(** * Callable resolution and specialization layer of loopy

    A shallow embedding of [loopy/kernel/function_interface.py]:
    argument descriptors, the positional/keyword id resolver, the three
    in-kernel callables, the renamer, the specialization registry and the
    call-site rewrite pass, with the properties stated about them.

    Conventions of the embedding.
    - A Python [dict] is an association list in insertion order with
      in-place update ([Dict]), since the source iterates over dicts and
      the order of iteration decides which exception is raised first.
    - A function that can raise returns [result]; the exception classes
      are the constructors of [exn].
    - Python 3 semantics is assumed for strings, comparisons and [%]
      formatting; a character is one Latin-1 code point. *)

From Stdlib Require Import ZArith NArith List String Ascii Bool Lia.
From Stdlib Require Import Decimal DecimalString DecimalN FinFun.
Import ListNotations.
Open Scope string_scope.
Open Scope Z_scope.
Open Scope list_scope.

Set Implicit Arguments.
Set Warnings "-register-all".

(** ** Exceptions and results *)

(** The [LoopyError]s of the module, told apart by their message. *)
Inductive loopy_msg : Type :=
  | Overwriting_specialized      (* "Overwriting a specialized function is illegal" *)
  | Function_not_present         (* "Function %s not present within the %s namespace" *)
  | Descriptor_kind.             (* "Descriptor must be either an instance of ..." *)

Inductive exn : Type :=
  | LoopyError (m : loopy_msg)
  | KeyError
  | IndexError
  | AttributeError
  | TypeError
  | AssertionError
  | NotImplementedError
  | ExternalError.               (* raised by a collaborator outside this module *)

Inductive result (A : Type) : Type :=
  | Ok (a : A)
  | Raise (e : exn).

Arguments Ok {A} a.
Arguments Raise {A} e.

Definition bind {A B : Type} (r : result A) (k : A -> result B) : result B :=
  match r with
  | Ok a => k a
  | Raise e => Raise e
  end.

Notation "x <- r ;; k" := (bind r (fun x => k))
  (at level 61, r at next level, right associativity).
Notation "' p <- r ;; k" := (bind r (fun x => let p := x in k))
  (at level 61, p pattern, r at next level, right associativity).

(** ** Python dictionaries *)

Module Dict.
Section Dict.
Variables K V : Type.
Variable eqb : K -> K -> bool.

Definition t : Type := list (K * V).

Definition empty : t := [].

  (** [d.get(k)]: the value stored under the first (and, for a dict built
      with [set], only) entry whose key equals [k]. *)
Fixpoint get (k : K) (d : t) : option V :=
    match d with
    | [] => None
    | (k', v) :: d' => if eqb k k' then Some v else get k d'
    end.

  (** [k in d] *)
Definition mem (k : K) (d : t) : bool :=
    match get k d with Some _ => true | None => false end.

  (** [d[k]], raising [KeyError] on a missing key. *)
Definition getitem (k : K) (d : t) : result V :=
    match get k d with Some v => Ok v | None => Raise KeyError end.

  (** [d[k] = v]: an existing key keeps its position, a new key goes last. *)
Fixpoint set (k : K) (v : V) (d : t) : t :=
    match d with
    | [] => [(k, v)]
    | (k', v') :: d' => if eqb k k' then (k', v) :: d' else (k', v') :: set k v d'
    end.

Definition keys (d : t) : list K := map fst d.

  (** [d.items()] in iteration order. *)
Definition items (d : t) : list (K * V) := d.

  (** [d.copy()]: a new dict with the same entries. *)
Definition copy (d : t) : t := d.

  (** [d.update(other)] *)
Definition update (d other : t) : t :=
    fold_left (fun acc kv => set (fst kv) (snd kv) acc) other d.
End Dict.
End Dict.

(** ** Python objects handled by the argument descriptors *)

Inductive pyobj : Type :=
  | PyNone
  | PyInt (z : Z)
  | PyStr (s : string)
  | PyVar (name : string)                    (* a symbolic dimension size *)
  | PyTuple (elts : list pyobj)
  | PyList (elts : list pyobj)
  | PyFixedStrideArrayDimTag (stride : pyobj) (target_axis : Z)
  | PyComputedStrideArrayDimTag (order : string) (target_axis : Z)
  | PyInstance (cls : string) (attrs : list (string * pyobj)).

Definition isinstance_tuple (o : pyobj) : bool :=
  match o with PyTuple _ => true | _ => false end.

Definition isinstance_str (o : pyobj) : bool :=
  match o with PyStr _ => true | _ => false end.

Definition isinstance_FixedStrideArrayDimTag (o : pyobj) : bool :=
  match o with PyFixedStrideArrayDimTag _ _ => true | _ => false end.

Definition is_None (o : pyobj) : bool :=
  match o with PyNone => true | _ => false end.

(** The elements of a tuple (none for any other object). *)
Definition tuple_elts (o : pyobj) : list pyobj :=
  match o with PyTuple l => l | _ => [] end.

(** Iterating over a Python object. *)
Definition py_iter (o : pyobj) : result (list pyobj) :=
  match o with
  | PyTuple l | PyList l => Ok l
  | _ => Raise TypeError
  end.

Definition py_assert (b : bool) : result unit :=
  if b then Ok tt else Raise AssertionError.

(** ** Records

    An [ImmutableRecord] stores the keyword arguments of its constructor as
    attributes; reading an attribute that was never stored raises
    [AttributeError]. *)

Module Record.
  (** [Record.__init__] of class [cls], called with keyword arguments only. *)
Definition init (cls : string) (kwargs : list (string * pyobj)) : pyobj :=
    PyInstance cls
      (fold_left (fun r kv => Dict.set String.eqb (fst kv) (snd kv) r) kwargs
                 (Dict.empty string pyobj)).

  (** [self.name] *)
Definition getattr (self : pyobj) (name : string) : result pyobj :=
    match self with
    | PyInstance _ attrs =>
        match Dict.get String.eqb name attrs with
        | Some v => Ok v
        | None => Raise AttributeError
        end
    | _ => Raise AttributeError
    end.

  (** [isinstance(o, cls)] for a record class without subclasses. *)
Definition isinstance (o : pyobj) (cls : string) : bool :=
    match o with
    | PyInstance c _ => String.eqb c cls
    | _ => false
    end.
End Record.

(** ** Argument descriptors *)

(** [ValueArgDescriptor()] has no attributes. *)
Definition ValueArgDescriptor : pyobj := Record.init "ValueArgDescriptor" [].

Module ArrayArgDescriptor.

  (** [ArrayArgDescriptor.__init__(self, shape, mem_scope, dim_tags)] *)
Definition init (shape mem_scope dim_tags : pyobj) : result pyobj :=
    _ <- py_assert (isinstance_tuple shape) ;;
    _ <- py_assert (isinstance_str mem_scope) ;;
    _ <- py_assert (isinstance_tuple dim_tags) ;;
    tags <- py_iter dim_tags ;;
    _ <- py_assert (forallb isinstance_FixedStrideArrayDimTag tags) ;;
    Ok (Record.init "ArrayArgDescriptor"
          [("shape", shape); ("mem_scope", mem_scope); ("dim_tags", dim_tags)]).

  (** Calling the class with keyword arguments: every parameter of
      [__init__] is required, a missing one is a [TypeError]. *)
Definition call_kw (kwargs : list (string * pyobj)) : result pyobj :=
    let arg (name : string) : result pyobj :=
      match Dict.get String.eqb name kwargs with
      | Some v => Ok v
      | None => Raise TypeError
      end in
    shape <- arg "shape" ;;
    mem_scope <- arg "mem_scope" ;;
    dim_tags <- arg "dim_tags" ;;
    init shape mem_scope dim_tags.

  (** [ArrayArgDescriptor.copy(self, dtype=None, mem_scope=None,
      shape=None, dim_tags=None)] *)
Definition copy (self : pyobj) (dtype mem_scope shape dim_tags : pyobj)
    : result pyobj :=
    dtype <- (if is_None dtype then Record.getattr self "dtype" else Ok dtype) ;;
    mem_scope <- (if is_None mem_scope then Record.getattr self "mem_scope"
                  else Ok mem_scope) ;;
    dim_tags <- (if is_None dim_tags then Record.getattr self "dim_tags"
                 else Ok dim_tags) ;;
    call_kw [("mem_scope", mem_scope); ("dim_tags", dim_tags)].

End ArrayArgDescriptor.

(** ** Types and argument identifiers *)

(** A [LoopyType]; types are opaque values compared by equality. *)
Inductive LoopyType : Type :=
  | NumpyType (numpy_name : string).

Definition LoopyType_eqb (a b : LoopyType) : bool :=
  match a, b with NumpyType x, NumpyType y => String.eqb x y end.

(** A value stored in an [arg_id_to_dtype] map: a type, or Python's [None]. *)
Definition dtype_value : Type := option LoopyType.

Definition dtype_value_eqb (a b : dtype_value) : bool :=
  match a, b with
  | Some x, Some y => LoopyType_eqb x y
  | None, None => true
  | _, _ => false
  end.

(** An argument identifier: an integer for a positional argument, a name
    for a keyword argument. *)
Inductive arg_id : Type :=
  | Pos (i : Z)
  | Kw (name : string).

Definition arg_id_eqb (a b : arg_id) : bool :=
  match a, b with
  | Pos i, Pos j => Z.eqb i j
  | Kw x, Kw y => String.eqb x y
  | _, _ => false
  end.

Definition dtype_map : Type := Dict.t arg_id dtype_value.
Definition descr_map : Type := Dict.t arg_id pyobj.

(** ** Kernels, as far as this module reads them *)

Record KernelArgument : Type := {
  arg_name : string;
  arg_dtype : dtype_value;
  arg_shape : pyobj;
  arg_dim_tags : pyobj
}.

(** [arg.copy(dtype=dtype)] *)
Definition arg_copy_dtype (a : KernelArgument) (dtype : dtype_value) : KernelArgument :=
  {| arg_name := arg_name a; arg_dtype := dtype;
     arg_shape := arg_shape a; arg_dim_tags := arg_dim_tags a |}.

(** [arg.copy(shape=shape, dim_tags=dim_tags)] *)
Definition arg_copy_shape (a : KernelArgument) (shape dim_tags : pyobj) : KernelArgument :=
  {| arg_name := arg_name a; arg_dtype := arg_dtype a;
     arg_shape := shape; arg_dim_tags := dim_tags |}.

Record LoopKernel : Type := {
  kernel_name : string;
  args : list KernelArgument;
  written_variables : list string;    (* [kernel.get_written_variables()] *)
  index_dtype : LoopyType
}.

(** [kernel.copy(name=name)] *)
Definition kernel_copy_name (k : LoopKernel) (name : string) : LoopKernel :=
  {| kernel_name := name; args := args k;
     written_variables := written_variables k; index_dtype := index_dtype k |}.

(** [kernel.copy(args=new_args)] *)
Definition kernel_copy_args (k : LoopKernel) (new_args : list KernelArgument) : LoopKernel :=
  {| kernel_name := kernel_name k; args := new_args;
     written_variables := written_variables k; index_dtype := index_dtype k |}.

(** [name in kernel.get_written_variables()] *)
Definition is_written (k : LoopKernel) (name : string) : bool :=
  existsb (String.eqb name) (written_variables k).

(** ** Positional/keyword id resolver *)

Definition kw_to_pos_map : Type := Dict.t string Z.
Definition pos_to_kw_map : Type := Dict.t Z string.

(** The local variables of [get_kw_pos_association]. *)
Record kw_pos_state : Type := {
  kw_to_pos : kw_to_pos_map;
  pos_to_kw : pos_to_kw_map;
  read_count : Z;
  write_count : Z
}.

Definition kw_pos_init : kw_pos_state :=
  {| kw_to_pos := []; pos_to_kw := []; read_count := 0; write_count := -1 |}.

(** One iteration of the loop over [kernel.args]. *)
Definition kw_pos_step (k : LoopKernel) (st : kw_pos_state) (arg : KernelArgument)
  : kw_pos_state :=
  if negb (is_written k (arg_name arg)) then
    {| kw_to_pos := Dict.set String.eqb (arg_name arg) (read_count st) (kw_to_pos st);
       pos_to_kw := Dict.set Z.eqb (read_count st) (arg_name arg) (pos_to_kw st);
       read_count := read_count st + 1;
       write_count := write_count st |}
  else
    {| kw_to_pos := Dict.set String.eqb (arg_name arg) (write_count st) (kw_to_pos st);
       pos_to_kw := Dict.set Z.eqb (write_count st) (arg_name arg) (pos_to_kw st);
       read_count := read_count st;
       write_count := write_count st - 1 |}.

(** [get_kw_pos_association(kernel)] *)
Definition get_kw_pos_association (kernel : LoopKernel)
  : kw_to_pos_map * pos_to_kw_map :=
  let st := fold_left (kw_pos_step kernel) (args kernel) kw_pos_init in
  (kw_to_pos st, pos_to_kw st).

(** The kernel of the scenario: scalar input [K], array input [u] and
    written array [lap]. *)
Definition float32 : LoopyType := NumpyType "float32".
Definition float64 : LoopyType := NumpyType "float64".
Definition int32 : LoopyType := NumpyType "int32".

Definition laplace_kernel : LoopKernel :=
  {| kernel_name := "laplace";
     args := [ {| arg_name := "K"; arg_dtype := Some int32;
                  arg_shape := PyTuple []; arg_dim_tags := PyNone |};
               {| arg_name := "u"; arg_dtype := Some float32;
                  arg_shape := PyTuple [PyVar "K"; PyInt 8];
                  arg_dim_tags := PyNone |};
               {| arg_name := "lap"; arg_dtype := Some float32;
                  arg_shape := PyTuple [PyVar "K"; PyInt 8];
                  arg_dim_tags := PyNone |} ];
     written_variables := ["lap"];
     index_dtype := int32 |}.

(** The ids handed out by the scan of [get_kw_pos_association] over [l],
    starting from the counters [r] and [w]. *)
Fixpoint scan_ids (k : LoopKernel) (l : list KernelArgument) (r w : Z) : list Z :=
  match l with
  | [] => []
  | a :: l' =>
      if negb (is_written k (arg_name a)) then r :: scan_ids k l' (r + 1) w
      else w :: scan_ids k l' r (w - 1)
  end.

(** The number of arguments of [l] that are inputs (not written). *)
Definition count_inputs (k : LoopKernel) (l : list KernelArgument) : Z :=
  Z.of_nat (List.length (filter (fun a => negb (is_written k (arg_name a))) l)).

(** The number of arguments of [l] that are outputs (written). *)
Definition count_outputs (k : LoopKernel) (l : list KernelArgument) : Z :=
  Z.of_nat (List.length (filter (fun a => is_written k (arg_name a)) l)).

(** ** Equality of Python values *)

(** [l == m] on sequences, elementwise. *)
Definition list_eqb (A : Type) (eqb : A -> A -> bool) : list A -> list A -> bool :=
  fix go (l m : list A) : bool :=
    match l, m with
    | [], [] => true
    | x :: l', y :: m' => eqb x y && go l' m'
    | _, _ => false
    end.

(** [a == b] on the objects of [pyobj].  The attributes of two instances
    of one record class are stored in the order of the constructor's
    keyword arguments and are compared in that order. *)
Fixpoint pyobj_eqb (a b : pyobj) : bool :=
  match a, b with
  | PyNone, PyNone => true
  | PyInt x, PyInt y => Z.eqb x y
  | PyStr x, PyStr y => String.eqb x y
  | PyVar x, PyVar y => String.eqb x y
  | PyTuple l, PyTuple m => list_eqb pyobj_eqb l m
  | PyList l, PyList m => list_eqb pyobj_eqb l m
  | PyFixedStrideArrayDimTag s x, PyFixedStrideArrayDimTag t y =>
      pyobj_eqb s t && Z.eqb x y
  | PyComputedStrideArrayDimTag o x, PyComputedStrideArrayDimTag p y =>
      String.eqb o p && Z.eqb x y
  | PyInstance c l, PyInstance d m =>
      String.eqb c d &&
      list_eqb (fun p q => String.eqb (fst p) (fst q) && pyobj_eqb (snd p) (snd q)) l m
  | _, _ => false
  end.

Definition option_eqb (A : Type) (eqb : A -> A -> bool) (a b : option A) : bool :=
  match a, b with
  | Some x, Some y => eqb x y
  | None, None => true
  | _, _ => false
  end.

(** [d1 == d2] on dicts: the same keys with equal values, in any order. *)
Definition dict_eqb (K V : Type) (keqb : K -> K -> bool) (veqb : V -> V -> bool)
  (d1 d2 : Dict.t K V) : bool :=
  let agree (k : K) := option_eqb veqb (Dict.get keqb k d1) (Dict.get keqb k d2) in
  forallb agree (Dict.keys d1) && forallb agree (Dict.keys d2).

Definition dtype_map_eqb : dtype_map -> dtype_map -> bool :=
  dict_eqb arg_id_eqb dtype_value_eqb.

Definition descr_map_eqb : descr_map -> descr_map -> bool :=
  dict_eqb arg_id_eqb pyobj_eqb.

Definition KernelArgument_eqb (a b : KernelArgument) : bool :=
  String.eqb (arg_name a) (arg_name b) &&
  dtype_value_eqb (arg_dtype a) (arg_dtype b) &&
  pyobj_eqb (arg_shape a) (arg_shape b) &&
  pyobj_eqb (arg_dim_tags a) (arg_dim_tags b).

Definition LoopKernel_eqb (k1 k2 : LoopKernel) : bool :=
  String.eqb (kernel_name k1) (kernel_name k2) &&
  list_eqb KernelArgument_eqb (args k1) (args k2) &&
  list_eqb String.eqb (written_variables k1) (written_variables k2) &&
  LoopyType_eqb (index_dtype k1) (index_dtype k2).

(** ** In-kernel callables *)

(** An extremum-with-index reduction operation; [which] is ["max"] or
    ["min"]. *)
Record ArgExtremumReductionOperation : Type := {
  which : string
}.

(** The [name] of a scalar callable: an identifier or a reduction
    operation. *)
Inductive callable_name : Type :=
  | Name (s : string)
  | ReductionOp (op : ArgExtremumReductionOperation).

Definition callable_name_eqb (a b : callable_name) : bool :=
  match a, b with
  | Name x, Name y => String.eqb x y
  | ReductionOp x, ReductionOp y => String.eqb (which x) (which y)
  | _, _ => false
  end.

Record ScalarCallable : Type := {
  sc_name : callable_name;
  sc_arg_id_to_dtype : option dtype_map;
  sc_arg_id_to_descr : option descr_map;
  sc_name_in_target : option string
}.

Record CallableKernel : Type := {
  subkernel : LoopKernel;
  ck_arg_id_to_dtype : option dtype_map;
  ck_arg_id_to_descr : option descr_map;
  ck_name_in_target : option string
}.

(** A function mangler is a Python function, compared by identity; it is
    referred to by an index into the table of manglers of [External]. *)
Definition mangler_ref : Type := nat.

Record ManglerCallable : Type := {
  mc_name : string;
  function_mangler : mangler_ref;
  mc_arg_id_to_dtype : option dtype_map;
  mc_arg_id_to_descr : option descr_map;
  mc_name_in_target : option string
}.

Inductive InKernelCallable : Type :=
  | Scalar (c : ScalarCallable)
  | Kernel (c : CallableKernel)
  | Mangler (c : ManglerCallable).

(** [CallableKernel.__init__] *)
Definition CallableKernel_init (subkernel : LoopKernel)
  (arg_id_to_dtype : option dtype_map) (arg_id_to_descr : option descr_map)
  (name_in_target : option string) : CallableKernel :=
  let subkernel :=
    match name_in_target with
    | Some n => kernel_copy_name subkernel n
    | None => subkernel
    end in
  {| subkernel := subkernel; ck_arg_id_to_dtype := arg_id_to_dtype;
     ck_arg_id_to_descr := arg_id_to_descr; ck_name_in_target := name_in_target |}.

(** [loopy.CallMangleInfo] *)
Record CallMangleInfo : Type := {
  target_name : string;
  result_dtypes : list dtype_value;
  arg_dtypes : list dtype_value
}.

(** What the callables ask of the rest of the compiler. *)
Record External : Type := {
  (* [kernel.target.get_device_ast_builder().function_identifiers()] *)
  function_identifiers : list string;
  (* [kernel.target.get_device_ast_builder().with_types(callable, arg_id_to_dtype)] *)
  target_with_types : ScalarCallable -> dtype_map -> result (option ScalarCallable);
  (* [op.result_dtypes(kernel, scalar_dtype, index_dtype)] *)
  op_result_dtypes : ArgExtremumReductionOperation -> LoopKernel ->
                     dtype_value -> dtype_value -> result (list dtype_value);
  (* [infer_unknown_types(kernel, expect_completion=True)] *)
  infer_unknown_types : LoopKernel -> result LoopKernel;
  (* the mangler functions, applied to [(kernel.target, name, arg_dtypes)] *)
  manglers : mangler_ref -> string -> list dtype_value -> result (option CallMangleInfo)
}.

(** Structural equality of callables ([ImmutableRecord.__eq__]): the same
    class and equal fields. *)
Definition ScalarCallable_eqb (a b : ScalarCallable) : bool :=
  callable_name_eqb (sc_name a) (sc_name b) &&
  option_eqb dtype_map_eqb (sc_arg_id_to_dtype a) (sc_arg_id_to_dtype b) &&
  option_eqb descr_map_eqb (sc_arg_id_to_descr a) (sc_arg_id_to_descr b) &&
  option_eqb String.eqb (sc_name_in_target a) (sc_name_in_target b).

Definition CallableKernel_eqb (a b : CallableKernel) : bool :=
  LoopKernel_eqb (subkernel a) (subkernel b) &&
  option_eqb dtype_map_eqb (ck_arg_id_to_dtype a) (ck_arg_id_to_dtype b) &&
  option_eqb descr_map_eqb (ck_arg_id_to_descr a) (ck_arg_id_to_descr b) &&
  option_eqb String.eqb (ck_name_in_target a) (ck_name_in_target b).

Definition ManglerCallable_eqb (a b : ManglerCallable) : bool :=
  String.eqb (mc_name a) (mc_name b) &&
  Nat.eqb (function_mangler a) (function_mangler b) &&
  option_eqb dtype_map_eqb (mc_arg_id_to_dtype a) (mc_arg_id_to_dtype b) &&
  option_eqb descr_map_eqb (mc_arg_id_to_descr a) (mc_arg_id_to_descr b) &&
  option_eqb String.eqb (mc_name_in_target a) (mc_name_in_target b).

Definition InKernelCallable_eqb (a b : InKernelCallable) : bool :=
  match a, b with
  | Scalar x, Scalar y => ScalarCallable_eqb x y
  | Kernel x, Kernel y => CallableKernel_eqb x y
  | Mangler x, Mangler y => ManglerCallable_eqb x y
  | _, _ => false
  end.

(** *** The check shared by [ScalarCallable.with_types] and
    [ManglerCallable.with_types] *)

(** The loop [for id, dtype in arg_id_to_dtype.items()] over an already
    specialized callable: [self_map[id]] is read first (a missing id is a
    [KeyError]) and a differing type raises the [LoopyError]. *)
Fixpoint check_specialized (self_map : dtype_map) (items : list (arg_id * dtype_value))
  : result unit :=
  match items with
  | [] => Ok tt
  | (id, dtype) :: rest =>
      old <- Dict.getitem arg_id_eqb id self_map ;;
      if negb (dtype_value_eqb old dtype) then
        Raise (LoopyError Overwriting_specialized)
      else check_specialized self_map rest
  end.

Definition check_already_specialized (self_map : option dtype_map)
  (arg_id_to_dtype : dtype_map) : result unit :=
  match self_map with
  | Some m => check_specialized m (Dict.items arg_id_to_dtype)
  | None => Ok tt
  end.

(** [range(n)] *)
Definition py_range (n : nat) : list Z := map Z.of_nat (seq 0 n).

(** [seq[i]] with Python's negative indices. *)
Definition list_getitem (A : Type) (l : list A) (i : Z) : result A :=
  let n := Z.of_nat (List.length l) in
  let j := if i <? 0 then i + n else i in
  if (j <? 0) || (n <=? j) then Raise IndexError
  else match nth_error l (Z.to_nat j) with
       | Some x => Ok x
       | None => Raise IndexError
       end.

Fixpoint list_update (A : Type) (l : list A) (j : nat) (x : A) : list A :=
  match l, j with
  | [], _ => []
  | _ :: l', O => x :: l'
  | y :: l', S j' => y :: list_update l' j' x
  end.

(** [seq[i] = x] with Python's negative indices. *)
Definition list_setitem (A : Type) (l : list A) (i : Z) (x : A) : result (list A) :=
  let n := Z.of_nat (List.length l) in
  let j := if i <? 0 then i + n else i in
  if (j <? 0) || (n <=? j) then Raise IndexError
  else Ok (list_update l (Z.to_nat j) x).

(** [[f(x) for x in l]] where [f] can raise. *)
Definition mapM (A B : Type) (f : A -> result B) : list A -> result (list B) :=
  fix go (l : list A) : result (list B) :=
    match l with
    | [] => Ok []
    | x :: l' => y <- f x ;; ys <- go l' ;; Ok (y :: ys)
    end.

(** A [for] loop whose body can raise, threading the loop's variables. *)
Fixpoint foldM (A S : Type) (body : S -> A -> result S) (l : list A) (s : S)
  : result S :=
  match l with
  | [] => Ok s
  | x :: l' => s' <- body s x ;; foldM body l' s'
  end.

(** [dtype.numpy_dtype.type.__name__]; [None] has no such attribute. *)
Definition numpy_type_name (dtype : dtype_value) : result string :=
  match dtype with
  | Some (NumpyType n) => Ok n
  | None => Raise AttributeError
  end.

(** *** [ScalarCallable] *)

(** [self.name in function_identifiers]: identifiers are strings. *)
Definition name_in (names : list string) (n : callable_name) : bool :=
  match n with
  | Name s => existsb (String.eqb s) names
  | ReductionOp _ => false
  end.

(** The body of the [make_tuple] loop. *)
Definition make_tuple_step (arg_id_to_dtype : dtype_map)
  (new_arg_id_to_dtype : dtype_map) (i : Z) : dtype_map :=
  match Dict.get arg_id_eqb (Pos i) arg_id_to_dtype with
  | Some (Some dtype) =>
      Dict.set arg_id_eqb (Pos (- i - 1)) (Some dtype) new_arg_id_to_dtype
  | _ => new_arg_id_to_dtype
  end.

(** [ScalarCallable.with_types(self, arg_id_to_dtype, kernel)] *)
Definition ScalarCallable_with_types (ext : External) (self : ScalarCallable)
  (arg_id_to_dtype : dtype_map) (kernel : LoopKernel) : result ScalarCallable :=
  _ <- check_already_specialized (sc_arg_id_to_dtype self) arg_id_to_dtype ;;
  if name_in (function_identifiers ext) (sc_name self) then
    new_in_knl_callable <- target_with_types ext self arg_id_to_dtype ;;
    match new_in_knl_callable with
    | Some c => Ok c
    | None => Ok self                         (* [self.copy()] *)
    end
  else if name_in ["indexof"; "indexof_vec"] (sc_name self) then
    let new_arg_id_to_dtype :=
      Dict.set arg_id_eqb (Pos (-1)) (Some (index_dtype kernel))
               (Dict.copy arg_id_to_dtype) in
    Ok {| sc_name := sc_name self;
          sc_arg_id_to_dtype := Some new_arg_id_to_dtype;
          sc_arg_id_to_descr := sc_arg_id_to_descr self;
          sc_name_in_target := sc_name_in_target self |}
  else if callable_name_eqb (sc_name self) (Name "make_tuple") then
    let new_arg_id_to_dtype :=
      fold_left (make_tuple_step arg_id_to_dtype)
                (py_range (List.length arg_id_to_dtype))
                (Dict.copy arg_id_to_dtype) in
    Ok {| sc_name := sc_name self;
          sc_arg_id_to_dtype := Some new_arg_id_to_dtype;
          sc_arg_id_to_descr := sc_arg_id_to_descr self;
          sc_name_in_target := Some "loopy_make_tuple" |}
  else
    match sc_name self with
    | ReductionOp op =>
        scalar_dtype <- Dict.getitem arg_id_eqb (Pos 0) arg_id_to_dtype ;;
        index_dtype <- Dict.getitem arg_id_eqb (Pos 1) arg_id_to_dtype ;;
        result_dtypes <- op_result_dtypes ext op kernel scalar_dtype index_dtype ;;
        let new_arg_id_to_dtype := Dict.copy arg_id_to_dtype in
        r0 <- list_getitem result_dtypes 0 ;;
        let new_arg_id_to_dtype :=
          Dict.set arg_id_eqb (Pos (-1)) r0 new_arg_id_to_dtype in
        r1 <- list_getitem result_dtypes 1 ;;
        let new_arg_id_to_dtype :=
          Dict.set arg_id_eqb (Pos (-2)) r1 new_arg_id_to_dtype in
        scalar_name <- numpy_type_name scalar_dtype ;;
        index_name <- numpy_type_name index_dtype ;;
        Ok {| sc_name := sc_name self;
              sc_arg_id_to_dtype := Some new_arg_id_to_dtype;
              sc_arg_id_to_descr := sc_arg_id_to_descr self;
              sc_name_in_target :=
                Some (String.concat ""
                        ["loopy_arg"; which op; "_"; scalar_name; "_";
                         index_name; "_op"]) |}
    | Name _ => Raise (LoopyError Function_not_present)
    end.

(** [ScalarCallable.with_descrs(self, arg_id_to_descr)], on values: the
    entry for id [-1] is stored into the map that was passed, and that map
    becomes the field of the copy. *)
Definition ScalarCallable_with_descrs (self : ScalarCallable)
  (arg_id_to_descr : descr_map) : result ScalarCallable :=
  let arg_id_to_descr :=
    Dict.set arg_id_eqb (Pos (-1)) ValueArgDescriptor arg_id_to_descr in
  Ok {| sc_name := sc_name self;
        sc_arg_id_to_dtype := sc_arg_id_to_dtype self;
        sc_arg_id_to_descr := Some arg_id_to_descr;
        sc_name_in_target := sc_name_in_target self |}.

(** *** [CallableKernel] *)

(** The body of the first loop of [CallableKernel.with_types]. *)
Definition push_dtype (kw_to_pos : kw_to_pos_map) (arg_id_to_dtype : dtype_map)
  (arg : KernelArgument) : result KernelArgument :=
  let kw := arg_name arg in
  if Dict.mem arg_id_eqb (Kw kw) arg_id_to_dtype then
    dtype <- Dict.getitem arg_id_eqb (Kw kw) arg_id_to_dtype ;;
    Ok (arg_copy_dtype arg dtype)
  else
    pos <- Dict.getitem String.eqb kw kw_to_pos ;;
    if Dict.mem arg_id_eqb (Pos pos) arg_id_to_dtype then
      dtype <- Dict.getitem arg_id_eqb (Pos pos) arg_id_to_dtype ;;
      Ok (arg_copy_dtype arg dtype)
    else Ok arg.

(** The body of the second loop of [CallableKernel.with_types]. *)
Definition harvest_dtype (kw_to_pos : kw_to_pos_map)
  (new_arg_id_to_dtype : dtype_map) (arg : KernelArgument) : result dtype_map :=
  let new_arg_id_to_dtype :=
    Dict.set arg_id_eqb (Kw (arg_name arg)) (arg_dtype arg) new_arg_id_to_dtype in
  pos <- Dict.getitem String.eqb (arg_name arg) kw_to_pos ;;
  Ok (Dict.set arg_id_eqb (Pos pos) (arg_dtype arg) new_arg_id_to_dtype).

(** [CallableKernel.with_types(self, arg_id_to_dtype, kernel)] *)
Definition CallableKernel_with_types (ext : External) (self : CallableKernel)
  (arg_id_to_dtype : dtype_map) (kernel : LoopKernel) : result CallableKernel :=
  let '(kw_to_pos, pos_to_kw) := get_kw_pos_association (subkernel self) in
  new_args <- mapM (push_dtype kw_to_pos arg_id_to_dtype) (args (subkernel self)) ;;
  let pre_specialized_subkernel := kernel_copy_args (subkernel self) new_args in
  specialized_kernel <- infer_unknown_types ext pre_specialized_subkernel ;;
  new_arg_id_to_dtype <-
    foldM (harvest_dtype kw_to_pos) (args specialized_kernel) (Dict.empty _ _) ;;
  Ok (CallableKernel_init specialized_kernel (Some new_arg_id_to_dtype)
        (ck_arg_id_to_descr self) (ck_name_in_target self)).

(** The body of the loop of [CallableKernel.with_descrs]. *)
Definition push_descr (kw_to_pos : kw_to_pos_map) (new_args : list KernelArgument)
  (item : arg_id * pyobj) : result (list KernelArgument) :=
  let '(id, descr) := item in
  id <- match id with
        | Kw s => Dict.getitem String.eqb s kw_to_pos
        | Pos i => Ok i
        end ;;
  if Record.isinstance descr "ArrayArgDescriptor" then
    old <- list_getitem new_args id ;;
    shape <- Record.getattr descr "shape" ;;
    dim_tags <- Record.getattr descr "dim_tags" ;;
    list_setitem new_args id (arg_copy_shape old shape dim_tags)
  else if Record.isinstance descr "ValueArgDescriptor" then
    Ok new_args
  else Raise (LoopyError Descriptor_kind).

(** [CallableKernel.with_descrs(self, arg_id_to_descr)] *)
Definition CallableKernel_with_descrs (self : CallableKernel)
  (arg_id_to_descr : descr_map) : result CallableKernel :=
  let new_args := args (subkernel self) in
  let '(kw_to_pos, pos_to_kw) := get_kw_pos_association (subkernel self) in
  new_args <- foldM (push_descr kw_to_pos) (Dict.items arg_id_to_descr) new_args ;;
  let descriptor_specialized_knl := kernel_copy_args (subkernel self) new_args in
  Ok (CallableKernel_init descriptor_specialized_knl (ck_arg_id_to_dtype self)
        (Some arg_id_to_descr) (ck_name_in_target self)).

(** *** [ManglerCallable] *)

(** Insertion into a sorted list of integers, for [sorted]. *)
Fixpoint insert_sorted (x : Z) (l : list Z) : list Z :=
  match l with
  | [] => [x]
  | y :: l' => if x <=? y then x :: l else y :: insert_sorted x l'
  end.

Definition sort_ints (l : list Z) : list Z := fold_right insert_sorted [] l.

(** The integer keys of an id map; a keyword id among the keys makes
    [sorted] or the comparison [key >= 0] raise [TypeError]. *)
Definition int_keys (keys : list arg_id) : result (list Z) :=
  mapM (fun id => match id with Pos i => Ok i | Kw _ => Raise TypeError end) keys.

(** [tuple(arg_id_to_dtype[key] for key in sorted_keys if key >= 0)] *)
Definition sorted_input_dtypes (arg_id_to_dtype : dtype_map) : result (list dtype_value) :=
  keys <- int_keys (Dict.keys arg_id_to_dtype) ;;
  let sorted_keys := sort_ints keys in
  mapM (fun key => Dict.getitem arg_id_eqb (Pos key) arg_id_to_dtype)
       (filter (fun key => 0 <=? key) sorted_keys).

(** [dict(enumerate(l))], keys shifted by [start]. *)
Fixpoint enumerate_from (A : Type) (start : Z) (l : list A) : list (Z * A) :=
  match l with
  | [] => []
  | x :: l' => (start, x) :: enumerate_from (start + 1) l'
  end.

Definition mangled_arg_id_to_dtype (info : CallMangleInfo) : dtype_map :=
  let new_arg_id_to_dtype :=
    fold_left (fun d iv => Dict.set arg_id_eqb (Pos (fst iv)) (snd iv) d)
              (enumerate_from 0 (arg_dtypes info)) (Dict.empty _ _) in
  Dict.update arg_id_eqb new_arg_id_to_dtype
    (fold_left (fun d iv => Dict.set arg_id_eqb (Pos (- fst iv - 1)) (snd iv) d)
               (enumerate_from 0 (result_dtypes info)) (Dict.empty _ _)).

(** [ManglerCallable.with_types(self, arg_id_to_dtype, kernel)].  When the
    mangler returns nothing, the message of the [LoopyError] is formatted
    with two values for one conversion, which raises [TypeError]. *)
Definition ManglerCallable_with_types (ext : External) (self : ManglerCallable)
  (arg_id_to_dtype : dtype_map) (kernel : LoopKernel) : result ManglerCallable :=
  _ <- check_already_specialized (mc_arg_id_to_dtype self) arg_id_to_dtype ;;
  arg_dtypes <- sorted_input_dtypes arg_id_to_dtype ;;
  mangle_result <- manglers ext (function_mangler self) (mc_name self) arg_dtypes ;;
  match mangle_result with
  | Some info =>
      Ok {| mc_name := mc_name self;
            function_mangler := function_mangler self;
            mc_arg_id_to_dtype := Some (mangled_arg_id_to_dtype info);
            mc_arg_id_to_descr := mc_arg_id_to_descr self;
            mc_name_in_target := Some (target_name info) |}
  | None => Raise TypeError
  end.

(** [with_descrs], inherited from [ScalarCallable]. *)
Definition ManglerCallable_with_descrs (self : ManglerCallable)
  (arg_id_to_descr : descr_map) : result ManglerCallable :=
  let arg_id_to_descr :=
    Dict.set arg_id_eqb (Pos (-1)) ValueArgDescriptor arg_id_to_descr in
  Ok {| mc_name := mc_name self;
        function_mangler := function_mangler self;
        mc_arg_id_to_dtype := mc_arg_id_to_dtype self;
        mc_arg_id_to_descr := Some arg_id_to_descr;
        mc_name_in_target := mc_name_in_target self |}.

(** *** Dispatch on the class of the callable *)

Definition with_types (ext : External) (self : InKernelCallable)
  (arg_id_to_dtype : dtype_map) (kernel : LoopKernel) : result InKernelCallable :=
  match self with
  | Scalar c => c' <- ScalarCallable_with_types ext c arg_id_to_dtype kernel ;; Ok (Scalar c')
  | Kernel c => c' <- CallableKernel_with_types ext c arg_id_to_dtype kernel ;; Ok (Kernel c')
  | Mangler c => c' <- ManglerCallable_with_types ext c arg_id_to_dtype kernel ;; Ok (Mangler c')
  end.

Definition with_descrs (self : InKernelCallable) (arg_id_to_descr : descr_map)
  : result InKernelCallable :=
  match self with
  | Scalar c => c' <- ScalarCallable_with_descrs c arg_id_to_descr ;; Ok (Scalar c')
  | Kernel c => c' <- CallableKernel_with_descrs c arg_id_to_descr ;; Ok (Kernel c')
  | Mangler c => c' <- ManglerCallable_with_descrs c arg_id_to_descr ;; Ok (Mangler c')
  end.

Definition callable_arg_id_to_dtype (c : InKernelCallable) : option dtype_map :=
  match c with
  | Scalar c => sc_arg_id_to_dtype c
  | Kernel c => ck_arg_id_to_dtype c
  | Mangler c => mc_arg_id_to_dtype c
  end.

(** *** What a call of [with_types] or [with_descrs] hands back

    Every [return] statement of the three classes returns the new callable
    alone; the documentation of [InKernelCallable] promises a tuple
    [(new_self, arg_id_to_type)]. *)
Inductive return_value : Type :=
  | Return_callable (new_self : InKernelCallable)
  | Return_tuple (new_self : InKernelCallable) (arg_id_to_dtype : dtype_map)
  | Return_descr_tuple (new_self : InKernelCallable) (arg_id_to_descr : descr_map).

Definition is_tuple (v : return_value) : bool :=
  match v with
  | Return_callable _ => false
  | Return_tuple _ _ | Return_descr_tuple _ _ => true
  end.

(** The value of the call expression [callable.with_types(arg_id_to_dtype, kernel)]. *)
Definition call_with_types (ext : External) (self : InKernelCallable)
  (arg_id_to_dtype : dtype_map) (kernel : LoopKernel) : result return_value :=
  new_self <- with_types ext self arg_id_to_dtype kernel ;;
  Ok (Return_callable new_self).

(** The value of the call expression [callable.with_descrs(arg_id_to_descr)]. *)
Definition call_with_descrs (self : InKernelCallable) (arg_id_to_descr : descr_map)
  : result return_value :=
  new_self <- with_descrs self arg_id_to_descr ;;
  Ok (Return_callable new_self).

(** *** A compiler around the callables, for the scenarios *)

(** A type inference that has nothing to infer: it accepts a kernel all of
    whose arguments are typed and fails on any other, as
    [expect_completion=True] asks. *)
Definition infer_nothing (k : LoopKernel) : result LoopKernel :=
  if forallb (fun a => match arg_dtype a with Some _ => true | None => false end)
             (args k)
  then Ok k else Raise ExternalError.

(** A target without built-in function identifiers and without manglers. *)
Definition bare_external : External :=
  {| function_identifiers := [];
     target_with_types := fun _ _ => Ok None;
     op_result_dtypes := fun _ _ scalar_dtype index_dtype =>
                           Ok [scalar_dtype; index_dtype];
     infer_unknown_types := infer_nothing;
     manglers := fun _ _ _ => Ok None |}.

(** A fresh, unspecialized scalar callable. *)
Definition fresh_scalar (n : string) : ScalarCallable :=
  {| sc_name := Name n; sc_arg_id_to_dtype := None;
     sc_arg_id_to_descr := None; sc_name_in_target := None |}.

(** A one-argument kernel used as a callee. *)
Definition twice_kernel : LoopKernel :=
  {| kernel_name := "twice";
     args := [ {| arg_name := "x"; arg_dtype := Some int32;
                  arg_shape := PyTuple [PyInt 8]; arg_dim_tags := PyNone |} ];
     written_variables := [];
     index_dtype := int32 |}.

(** The callable for [twice_kernel], already specialized for [int32]. *)
Definition twice_int32 : CallableKernel :=
  {| subkernel := twice_kernel;
     ck_arg_id_to_dtype := Some [(Kw "x", Some int32); (Pos 0, Some int32)];
     ck_arg_id_to_descr := None;
     ck_name_in_target := None |}.

(** ** The shared store: dictionaries as mutable objects

    [with_descrs] receives a reference to the caller's dictionary.  The
    store maps an address to the dictionary living there. *)

Module Store.

Definition ref : Type := nat.
Definition store : Type := list descr_map.

Definition deref (s : store) (r : ref) : result descr_map :=
  match nth_error s r with
  | Some d => Ok d
  | None => Raise ExternalError      (* no object at this address *)
  end.

(** The dictionary at [r] is replaced by [d]. *)
Definition assign (s : store) (r : ref) (d : descr_map) : store :=
  list_update s r d.

(** A scalar callable whose [arg_id_to_descr] field is a reference. *)
Record ScalarCallableObj : Type := {
  so_name : callable_name;
  so_arg_id_to_dtype : option dtype_map;
  so_arg_id_to_descr : option ref;
  so_name_in_target : option string
}.

Record CallableKernelObj : Type := {
  ko_subkernel : LoopKernel;
  ko_arg_id_to_dtype : option dtype_map;
  ko_arg_id_to_descr : option ref;
  ko_name_in_target : option string
}.

(** [ScalarCallable.with_descrs(self, arg_id_to_descr)]: the statement
    [arg_id_to_descr[-1] = ValueArgDescriptor()] writes into the object the
    caller passed, and [self.copy] stores the same reference. *)
Definition ScalarCallable_with_descrs (self : ScalarCallableObj)
  (arg_id_to_descr : ref) (s : store) : result (ScalarCallableObj * store) :=
  d <- deref s arg_id_to_descr ;;
  let s := assign s arg_id_to_descr
             (Dict.set arg_id_eqb (Pos (-1)) ValueArgDescriptor d) in
  Ok ({| so_name := so_name self;
         so_arg_id_to_dtype := so_arg_id_to_dtype self;
         so_arg_id_to_descr := Some arg_id_to_descr;
         so_name_in_target := so_name_in_target self |}, s).

(** [CallableKernel.with_descrs(self, arg_id_to_descr)]: the dictionary is
    only read; [new_args] is a fresh list. *)
Definition CallableKernel_with_descrs (self : CallableKernelObj)
  (arg_id_to_descr : ref) (s : store) : result (CallableKernelObj * store) :=
  d <- deref s arg_id_to_descr ;;
  let new_args := args (ko_subkernel self) in
  let '(kw_to_pos, pos_to_kw) := get_kw_pos_association (ko_subkernel self) in
  new_args <- foldM (push_descr kw_to_pos) (Dict.items d) new_args ;;
  let descriptor_specialized_knl := kernel_copy_args (ko_subkernel self) new_args in
  Ok ({| ko_subkernel :=
           match ko_name_in_target self with
           | Some n => kernel_copy_name descriptor_specialized_knl n
           | None => descriptor_specialized_knl
           end;
         ko_arg_id_to_dtype := ko_arg_id_to_dtype self;
         ko_arg_id_to_descr := Some arg_id_to_descr;
         ko_name_in_target := ko_name_in_target self |}, s).

(** Reading a callable object through the store gives a callable value. *)
Definition read_scalar (s : store) (c : ScalarCallableObj) : result ScalarCallable :=
  descr <- match so_arg_id_to_descr c with
           | Some r => d <- deref s r ;; Ok (Some d)
           | None => Ok None
           end ;;
  Ok {| sc_name := so_name c; sc_arg_id_to_dtype := so_arg_id_to_dtype c;
        sc_arg_id_to_descr := descr; sc_name_in_target := so_name_in_target c |}.

(** The caller of the scenario: it owns one dictionary [{0: ValueArgDescriptor()}]
    at address 0 and passes it to [with_descrs] of a callable named [sin]. *)
Definition caller_store : store := [[(Pos 0, ValueArgDescriptor)]].

Definition sin_obj : ScalarCallableObj :=
  {| so_name := Name "sin"; so_arg_id_to_dtype := Some [(Pos 0, Some float32)];
     so_arg_id_to_descr := None; so_name_in_target := None |}.

End Store.

(** ** The renamer *)

(** *** Characters and numerals *)

(** [\d]: a decimal digit. *)
Definition is_digit (c : ascii) : bool :=
  let n := N_of_ascii c in ((48 <=? n) && (n <=? 57))%N.

(** The complement of [\S]: a whitespace character. *)
Definition is_space (c : ascii) : bool :=
  let n := N_of_ascii c in
  (((9 <=? n) && (n <=? 13)) || ((28 <=? n) && (n <=? 32)) ||
   (n =? 133) || (n =? 160))%N.

Definition newline : ascii := "010"%char.
Definition underscore : ascii := "_"%char.

(** [int(s)] for a string of decimal digits. *)
Definition int_of_digits (s : string) : N :=
  match NilZero.uint_of_string s with
  | Some d => N.of_uint d
  | None => 0%N
  end.

(** [str(n)], the decimal numeral of [n] as [format] prints it. *)
Definition str_of_int (n : N) : string := NilZero.string_of_uint (N.to_uint n).

(** *** The regular expression [^(?P<alpha>\S+?)_(?P<num>\d+?)$] *)

(** [(?P<num>\d+?)$]: one or more digits up to the end of the string, or up
    to a newline that ends the string. *)
Fixpoint match_num (s : string) : option string :=
  match s with
  | EmptyString => None
  | String c s' =>
      if is_digit c then
        match s' with
        | EmptyString => Some (String c EmptyString)
        | String c' EmptyString =>
            if Ascii.eqb c' newline then Some (String c EmptyString)
            else option_map (String c) (match_num s')
        | _ => option_map (String c) (match_num s')
        end
      else None
  end.

(** [(?P<alpha>\S+?)_...]: the lazy group grows by one character at a time;
    [alpha] holds what it has consumed so far, and as soon as it is not
    empty the remainder of the pattern is tried before growing. *)
Fixpoint match_alpha (alpha : string) (rest : string) : option (string * string) :=
  match rest with
  | EmptyString => None
  | String c rest' =>
      let here :=
        match alpha with
        | EmptyString => None
        | _ => if Ascii.eqb c underscore then match_num rest' else None
        end in
      match here with
      | Some num => Some (alpha, num)
      | None =>
          if is_space c then None
          else match_alpha (String.append alpha (String c EmptyString)) rest'
      end
  end.

(** [func_name.match(name)], giving the groups [alpha] and [num]. *)
Definition func_name_match (name : string) : option (string * string) :=
  match_alpha EmptyString name.

(** [name[-1]] *)
Fixpoint last_char (s : string) : option ascii :=
  match s with
  | EmptyString => None
  | String c EmptyString => Some c
  | String _ s' => last_char s'
  end.

(** *** Function identifiers *)

(** [ArgExtOp(reduction_op)] *)
Record ArgExtOp_ : Type := {
  reduction_op : ArgExtremumReductionOperation
}.

(** What a call's callee, once unwrapped, is: a [Variable] or an
    [ArgExtOp]. *)
Inductive function_id : Type :=
  | Variable_ (name : string)
  | ArgExtOp (op : ArgExtOp_).

Definition function_id_eqb (a b : function_id) : bool :=
  match a, b with
  | Variable_ x, Variable_ y => String.eqb x y
  | ArgExtOp x, ArgExtOp y =>
      String.eqb (which (reduction_op x)) (which (reduction_op y))
  | _, _ => false
  end.

Definition isinstance_ArgExtOp (f : function_id) : bool :=
  match f with ArgExtOp _ => true | Variable_ _ => false end.

(** [next_indexed_variable(function)] *)
Definition next_indexed_variable (function : function_id) : result function_id :=
  match function with
  | ArgExtOp op => Ok (ArgExtOp op)                     (* [function.copy()] *)
  | Variable_ name =>
      match func_name_match name with
      | None =>
          match last_char name with
          | None => Raise IndexError
          | Some c =>
              if Ascii.eqb c underscore
              then Ok (Variable_ (String.append name "0"))
              else Ok (Variable_ (String.append name "_0"))
          end
      | Some (alpha, num) =>
          Ok (Variable_
                (String.append alpha
                   (String.append "_" (str_of_int (int_of_digits num + 1)))))
      end
  end.

(** *** Probing for an unused name

    A computation that may not finish within its fuel: [None] stands for
    fuel that ran out. *)
Definition partial (A : Type) : Type := option (result A).

Definition bind_partial (A B : Type) (r : partial A) (k : A -> partial B) : partial B :=
  match r with
  | Some (Ok a) => k a
  | Some (Raise e) => Some (Raise e)
  | None => None
  end.

(** [x in names] *)
Definition name_mem (x : function_id) (names : list function_id) : bool :=
  existsb (function_id_eqb x) names.

(** The loop
    [while unique_var in scoped_names_to_functions and not isinstance(unique_var, ArgExtOp)],
    run for at most [fuel] tests of its condition. *)
Fixpoint probe (fuel : nat) (names : list function_id) (unique_var : function_id)
  : partial function_id :=
  match fuel with
  | O => None
  | S fuel' =>
      if name_mem unique_var names && negb (isinstance_ArgExtOp unique_var) then
        match next_indexed_variable unique_var with
        | Ok v => probe fuel' names v
        | Raise e => Some (Raise e)
        end
      else Some (Ok unique_var)
  end.

(** The name given to a new callable reached through the callee
    [function]: the first candidate, then the loop, with one more round of
    fuel than there are names to avoid. *)
Definition unique_name (names : list function_id) (function : function_id)
  : partial function_id :=
  bind_partial (Some (next_indexed_variable function))
               (probe (S (List.length names)) names).

(** The [k]-th candidate name after [name]. *)
Fixpoint candidate (k : nat) (function : function_id) : result function_id :=
  match k with
  | O => Ok function
  | S k' => v <- candidate k' function ;; next_indexed_variable v
  end.

(** Following the specification's words: the numeric suffix of a name is
    the number written by its trailing digits, if it ends in a digit. *)
Fixpoint trailing_digits (s : string) : string :=
  match s with
  | EmptyString => EmptyString
  | String c s' =>
      let t := trailing_digits s' in
      if (String.length t =? String.length s')%nat && is_digit c
      then String c t else t
  end.

Definition numeric_suffix (s : string) : option N :=
  match trailing_digits s with
  | EmptyString => None
  | t => Some (int_of_digits t)
  end.

(** A name without whitespace. *)
Fixpoint no_space (s : string) : bool :=
  match s with
  | EmptyString => true
  | String c s' => negb (is_space c) && no_space s'
  end.

(** The name [alpha_n]. *)
Definition indexed (alpha : string) (n : N) : string :=
  String.append alpha (String underscore (str_of_int n)).

(** A string of decimal digits only. *)
Fixpoint all_digits (s : string) : bool :=
  match s with
  | EmptyString => true
  | String c s' => is_digit c && all_digits s'
  end.

(** The measure behind the probing loop: a name the pattern does not match
    is ranked by its length, below every name the pattern matches, which is
    ranked by its number. *)
Inductive rank : Type :=
  | Unindexed (len : nat)
  | Indexed (num : N).

Definition rank_of (s : string) : rank :=
  match func_name_match s with
  | Some (_, num) => Indexed (int_of_digits num)
  | None => Unindexed (String.length s)
  end.

Definition rank_lt (a b : rank) : Prop :=
  match a, b with
  | Unindexed x, Unindexed y => (x < y)%nat
  | Unindexed _, Indexed _ => True
  | Indexed x, Indexed y => (x < y)%N
  | Indexed _, Unindexed _ => False
  end.

(** ** Expressions *)

(** The expression nodes the module meets.  [Id] is a leaf holding a
    [Variable] (or an [ArgExtOp] used where an expression is expected);
    [ScopedFunction] wraps a callee that has been resolved. *)
Inductive expr : Type :=
  | Id (f : function_id)
  | ScopedFunction (function : function_id)
  | Constant (value : Z)
  | Sum (children : list expr)
  | Product (children : list expr)
  | Subscript (aggregate : expr) (index : expr)
  | Call (function : expr) (parameters : list expr).

(** [a == b] on expressions. *)
Fixpoint expr_eqb (a b : expr) : bool :=
  match a, b with
  | Id f, Id g => function_id_eqb f g
  | ScopedFunction f, ScopedFunction g => function_id_eqb f g
  | Constant x, Constant y => Z.eqb x y
  | Sum l, Sum m => list_eqb expr_eqb l m
  | Product l, Product m => list_eqb expr_eqb l m
  | Subscript a1 i1, Subscript a2 i2 => expr_eqb a1 a2 && expr_eqb i1 i2
  | Call f1 p1, Call f2 p2 => expr_eqb f1 f2 && list_eqb expr_eqb p1 p2
  | _, _ => false
  end.

(** ** The specialization registry *)

(** The three dictionaries of [register_pymbolic_calls_to_knl_callables]. *)
Record registry : Type := {
  scoped_names_to_functions : Dict.t function_id InKernelCallable;
  scoped_functions_to_names : Dict.t InKernelCallable function_id;
  pymbolic_calls_to_new_names : Dict.t expr function_id
}.

(** [pymbolic_call.function], unwrapped as the loop does: only a [Variable]
    or a [ScopedFunction] is accepted as the callee. *)
Definition callee (pymbolic_call : expr) : result function_id :=
  match pymbolic_call with
  | Call (Id (Variable_ n)) _ => Ok (Variable_ n)
  | Call (ScopedFunction f) _ => Ok f
  | Call _ _ => Raise NotImplementedError
  | _ => Raise AttributeError
  end.

Section Registry.

(** [op.name] for an [ArgExtOp], whose class is declared outside this
    module. *)
Variable ArgExtOp_name : ArgExtOp_ -> result string.

(** [unique_var.name] *)
Definition function_id_name (f : function_id) : result string :=
  match f with
  | Variable_ n => Ok n
  | ArgExtOp op => ArgExtOp_name op
  end.

(** The book-keeping of a callable that was not met before: a
    [CallableKernel] is copied with the new name as its [name_in_target]. *)
Definition named_callable (in_knl_callable : InKernelCallable)
  (unique_var : function_id) : result InKernelCallable :=
  match in_knl_callable with
  | Kernel c =>
      n <- function_id_name unique_var ;;
      Ok (Kernel (CallableKernel_init (subkernel c) (ck_arg_id_to_dtype c)
                    (ck_arg_id_to_descr c) (Some n)))
  | _ => Ok in_knl_callable
  end.

(** The body of the loop over [pymbolic_exprs_to_knl_callables.items()]. *)
Definition register_call (st : registry) (item : expr * InKernelCallable)
  : partial registry :=
  let '(pymbolic_call, in_knl_callable) := item in
  bind_partial
    (if negb (Dict.mem InKernelCallable_eqb in_knl_callable
                (scoped_functions_to_names st)) then
       bind_partial (Some (callee pymbolic_call)) (fun pymbolic_call_function =>
       bind_partial (unique_name (Dict.keys (scoped_names_to_functions st))
                       pymbolic_call_function) (fun unique_var =>
       bind_partial (Some (named_callable in_knl_callable unique_var))
         (fun in_knl_callable =>
       Some (Ok ({| scoped_names_to_functions :=
                      Dict.set function_id_eqb unique_var in_knl_callable
                               (scoped_names_to_functions st);
                    scoped_functions_to_names :=
                      Dict.set InKernelCallable_eqb in_knl_callable unique_var
                               (scoped_functions_to_names st);
                    pymbolic_calls_to_new_names :=
                      pymbolic_calls_to_new_names st |},
                 in_knl_callable)))))
     else Some (Ok (st, in_knl_callable)))
    (fun '(st, in_knl_callable) =>
       bind_partial
         (Some (Dict.getitem InKernelCallable_eqb in_knl_callable
                  (scoped_functions_to_names st)))
         (fun new_name =>
            Some (Ok {| scoped_names_to_functions := scoped_names_to_functions st;
                        scoped_functions_to_names := scoped_functions_to_names st;
                        pymbolic_calls_to_new_names :=
                          Dict.set expr_eqb pymbolic_call new_name
                                   (pymbolic_calls_to_new_names st) |}))).

Fixpoint register_calls (items : list (expr * InKernelCallable)) (st : registry)
  : partial registry :=
  match items with
  | [] => Some (Ok st)
  | item :: items' => bind_partial (register_call st item) (register_calls items')
  end.

(** [register_pymbolic_calls_to_knl_callables(kernel, pymbolic_exprs_to_knl_callables)],
    up to the rewriting of the kernel: the registry it ends with.
    [scoped_functions] is [kernel.scoped_functions]. *)
Definition register_pymbolic_calls_to_knl_callables
  (scoped_functions : Dict.t function_id InKernelCallable)
  (pymbolic_exprs_to_knl_callables : Dict.t expr InKernelCallable)
  : partial registry :=
  register_calls (Dict.items pymbolic_exprs_to_knl_callables)
    {| scoped_names_to_functions := Dict.copy scoped_functions;
       scoped_functions_to_names := Dict.empty _ _;
       pymbolic_calls_to_new_names := Dict.empty _ _ |}.

End Registry.

(** An equality test that is an equivalence relation. *)
Definition is_equivalence (A : Type) (eqb : A -> A -> bool) : Prop :=
  (forall a, eqb a a = true) /\
  (forall a b, eqb a b = true -> eqb b a = true) /\
  (forall a b c, eqb a b = true -> eqb b c = true -> eqb a c = true).

(** The class of a callable is [CallableKernel]. *)
Definition isinstance_CallableKernel (c : InKernelCallable) : bool :=
  match c with Kernel _ => true | _ => false end.

(** The callee of a call is a [Variable], bare or scoped. *)
Definition callee_is_Variable (pymbolic_call : expr) : bool :=
  match callee pymbolic_call with
  | Ok (Variable_ n) => negb (String.eqb n EmptyString)
  | _ => false
  end.

(** Two call sites of the scenarios. *)
Definition sincos_call (x : string) : expr :=
  Call (Id (Variable_ "sincos")) [Id (Variable_ x)].

Definition sincos_callable (t : LoopyType) : InKernelCallable :=
  Scalar {| sc_name := Name "sincos";
            sc_arg_id_to_dtype :=
              Some [(Pos 0, Some t); (Pos (-1), Some t); (Pos (-2), Some t)];
            sc_arg_id_to_descr :=
              Some [(Pos 0, ValueArgDescriptor); (Pos (-1), ValueArgDescriptor)];
            sc_name_in_target := Some "sincos" |}.

(** The registry never gives one name to two different callables, and
    every name it has given is a key of [scoped_names_to_functions]. *)
Definition names_injective (st : registry) : Prop :=
  (forall k1 k2 n,
      Dict.get InKernelCallable_eqb k1 (scoped_functions_to_names st) = Some n ->
      Dict.get InKernelCallable_eqb k2 (scoped_functions_to_names st) = Some n ->
      InKernelCallable_eqb k1 k2 = true) /\
  (forall k n,
      Dict.get InKernelCallable_eqb k (scoped_functions_to_names st) = Some n ->
      In n (Dict.keys (scoped_names_to_functions st))).

(** A call site whose callee is a [Variable] with a non-empty name and
    whose callable is not a [CallableKernel]. *)
Definition plain_site (item : expr * InKernelCallable) : bool :=
  callee_is_Variable (fst item) && negb (isinstance_CallableKernel (snd item)).

(** The extremum-with-index scenario: two calls of the same [ArgExtOp] on
    values of different types. *)
Definition argmax : ArgExtOp_ := {| reduction_op := {| which := "max" |} |}.

Definition argmax_call (x : string) : expr :=
  Call (ScopedFunction (ArgExtOp argmax)) [Id (Variable_ x); Id (Variable_ "i")].

Definition argmax_callable (t : LoopyType) : InKernelCallable :=
  Scalar {| sc_name := ReductionOp (reduction_op argmax);
            sc_arg_id_to_dtype :=
              Some [(Pos 0, Some t); (Pos 1, Some int32);
                    (Pos (-1), Some t); (Pos (-2), Some int32)];
            sc_arg_id_to_descr := None;
            sc_name_in_target := Some "loopy_argmax_op" |}.

(** [op.name] for a class of [ArgExtOp] without such an attribute. *)
Definition no_ArgExtOp_name (op : ArgExtOp_) : result string := Raise AttributeError.

(** ** The call-site rewrite pass *)

Section ScopedFunctionNameChanger.

(** [self.rule_mapping_context.old_subst_rules], by name. *)
Variable old_subst_rules : list string.
(** [parse_tagged_name(expr.function)], from [loopy.symbolic]. *)
Variable parse_tagged_name : expr -> result (string * option string).
(** [self.subst_expander], a [SubstitutionRuleExpander]. *)
Variable subst_expander : expr -> result expr.
(** [self.map_substitution(name, tag, arguments, expn_state)], the
    substitution-rule expansion of [RuleAwareIdentityMapper]. *)
Variable map_substitution : string -> option string -> list expr -> result expr.
(** [self.expr_to_new_names] *)
Variable expr_to_new_names : Dict.t expr function_id.

(** [ScopedFunctionNameChanger.map_call(self, expr, expn_state)], with
    [self.rec] passed as [rec] and [expr] given by its two fields.  Its last
    case, [IdentityMapper.map_call], rebuilds the call from its rewritten
    callee and parameters. *)
Definition map_call (rec : expr -> result expr) (function : expr)
  (parameters : list expr) : result expr :=
  let expr := Call function parameters in
  '(name, tag) <- parse_tagged_name function ;;
  if negb (existsb (String.eqb name) old_subst_rules) then
    expanded_expr <- subst_expander expr ;;
    if Dict.mem expr_eqb expr expr_to_new_names then
      new_name <- Dict.getitem expr_eqb expr expr_to_new_names ;;
      children <- mapM rec parameters ;;
      Ok (Call (ScopedFunction new_name) children)
    else if Dict.mem expr_eqb expanded_expr expr_to_new_names then
      new_name <- Dict.getitem expr_eqb expanded_expr expr_to_new_names ;;
      children <- mapM rec parameters ;;
      Ok (Call (ScopedFunction new_name) children)
    else
      function' <- rec function ;;
      children <- mapM rec parameters ;;
      Ok (Call function' children)
  else map_substitution name tag parameters.

(** Modelled from the spec: the traversal the name changer inherits (its
    base classes are not in this module) rewrites nothing but calls; it
    returns a leaf as it is and rebuilds any other node from its rewritten
    children.  Calls go to [map_call]. *)
Fixpoint rec (e : expr) : result expr :=
  match e with
  | Id _ | ScopedFunction _ | Constant _ => Ok e
  | Sum children => cs <- mapM rec children ;; Ok (Sum cs)
  | Product children => cs <- mapM rec children ;; Ok (Product cs)
  | Subscript aggregate index =>
      a <- rec aggregate ;; i <- rec index ;; Ok (Subscript a i)
  | Call function parameters => map_call rec function parameters
  end.

(** A call that is neither bound to a substitution rule nor tracked, by
    itself or once expanded. *)
Definition untracked_call (function : expr) (parameters : list expr) : Prop :=
  exists name tag expanded_expr,
    parse_tagged_name function = Ok (name, tag) /\
    existsb (String.eqb name) old_subst_rules = false /\
    subst_expander (Call function parameters) = Ok expanded_expr /\
    Dict.mem expr_eqb (Call function parameters) expr_to_new_names = false /\
    Dict.mem expr_eqb expanded_expr expr_to_new_names = false.

(** An expression without a tracked call and without a call bound to a
    substitution rule. *)
Fixpoint untracked (e : expr) : Prop :=
  let all := fix all (l : list expr) : Prop :=
               match l with
               | [] => True
               | x :: l' => untracked x /\ all l'
               end in
  match e with
  | Id _ | ScopedFunction _ | Constant _ => True
  | Sum children | Product children => all children
  | Subscript aggregate index => untracked aggregate /\ untracked index
  | Call function parameters =>
      untracked_call function parameters /\ untracked function /\ all parameters
  end.

End ScopedFunctionNameChanger.

(** [parse_tagged_name] on untagged names: the name of a [Variable], bare
    or scoped. *)
Definition parse_untagged_name (function : expr) : result (string * option string) :=
  match function with
  | Id (Variable_ n) | ScopedFunction (Variable_ n) => Ok (n, None)
  | _ => Raise ExternalError
  end.

(** The expansion of a substitution rule that is not there. *)
Definition no_substitution (name : string) (tag : option string)
  (arguments : list expr) : result expr := Raise ExternalError.

(** ** Readiness for code generation *)

Definition is_not_None (A : Type) (o : option A) : bool :=
  match o with Some _ => true | None => false end.

(** [ScalarCallable.is_ready_for_codegen], also that of
    [InKernelCallable] and, by inheritance, of [ManglerCallable]. *)
Definition ScalarCallable_is_ready_for_codegen (self : ScalarCallable) : bool :=
  is_not_None (sc_arg_id_to_dtype self) && is_not_None (sc_arg_id_to_descr self).

Definition ManglerCallable_is_ready_for_codegen (self : ManglerCallable) : bool :=
  is_not_None (mc_arg_id_to_dtype self) && is_not_None (mc_arg_id_to_descr self).

(** [CallableKernel.is_ready_for_codegen] *)
Definition CallableKernel_is_ready_for_codegen (self : CallableKernel) : bool :=
  is_not_None (ck_arg_id_to_dtype self) && is_not_None (ck_arg_id_to_descr self) &&
  is_not_None (ck_name_in_target self).

Definition is_ready_for_codegen (self : InKernelCallable) : bool :=
  match self with
  | Scalar c => ScalarCallable_is_ready_for_codegen c
  | Kernel c => CallableKernel_is_ready_for_codegen c
  | Mangler c => ManglerCallable_is_ready_for_codegen c
  end.

(** [ManglerCallable.mangle_result(self, kernel)]; on an unspecialized
    callable [self.arg_id_to_dtype.keys()] is an attribute of [None]. *)
Definition ManglerCallable_mangle_result (ext : External) (self : ManglerCallable)
  (kernel : LoopKernel) : result (option CallMangleInfo) :=
  match mc_arg_id_to_dtype self with
  | None => Raise AttributeError
  | Some arg_id_to_dtype =>
      arg_dtypes <- sorted_input_dtypes arg_id_to_dtype ;;
      manglers ext (function_mangler self) (mc_name self) arg_dtypes
  end.

(** An id that names an input or a keyword, not a result. *)
Definition is_input_id (id : arg_id) : bool :=
  match id with
  | Pos i => 0 <=? i
  | Kw _ => true
  end.

(** Every name the registry has given resolves, in
    [scoped_names_to_functions], to a callable equal to the one named. *)
Definition names_resolve (st : registry) : Prop :=
  forall k n,
    Dict.get InKernelCallable_eqb k (scoped_functions_to_names st) = Some n ->
    exists c, Dict.get function_id_eqb n (scoped_names_to_functions st) = Some c /\
              InKernelCallable_eqb c k = true.

(** A target with one mangler, which resolves [sincos] on one argument of
    any type to a function of that type returning a pair of that type. *)
Definition sincos_mangler (name : string) (arg_dtypes : list dtype_value)
  : result (option CallMangleInfo) :=
  if String.eqb name "sincos" then
    match arg_dtypes with
    | [Some t] => Ok (Some {| target_name := "sincos";
                              result_dtypes := [Some t; Some t];
                              arg_dtypes := [Some t] |})
    | _ => Ok None
    end
  else Ok None.

Definition sincos_external : External :=
  {| function_identifiers := [];
     target_with_types := fun _ _ => Ok None;
     op_result_dtypes := fun _ _ scalar_dtype index_dtype =>
                           Ok [scalar_dtype; index_dtype];
     infer_unknown_types := infer_nothing;
     manglers := fun _ => sincos_mangler |}.

Definition fresh_sincos_mangler : ManglerCallable :=
  {| mc_name := "sincos"; function_mangler := 0%nat;
     mc_arg_id_to_dtype := None; mc_arg_id_to_descr := None;
     mc_name_in_target := None |}.

(** The layout of an argument list in which positional ids and list
    indices agree: the inputs first, then at most one written argument. *)
Definition inputs_then_one_output (k : LoopKernel) : Prop :=
  exists ins outs,
    args k = ins ++ outs /\
    (forall a, In a ins -> is_written k (arg_name a) = false) /\
    (forall a, In a outs -> is_written k (arg_name a) = true) /\
    (List.length outs <= 1)%nat.

(** A kernel that declares its written argument first. *)
Definition scale_kernel : LoopKernel :=
  {| kernel_name := "scale";
     args := [ {| arg_name := "y"; arg_dtype := Some float32;
                  arg_shape := PyTuple [PyInt 8]; arg_dim_tags := PyNone |};
               {| arg_name := "x"; arg_dtype := Some float32;
                  arg_shape := PyTuple [PyInt 8]; arg_dim_tags := PyNone |} ];
     written_variables := ["y"];
     index_dtype := int32 |}.

(** An [ArrayArgDescriptor] with shape [(16,)]. *)
Definition descr16 : pyobj :=
  PyInstance "ArrayArgDescriptor"
    [("shape", PyTuple [PyInt 16]); ("mem_scope", PyStr "GLOBAL");
     ("dim_tags", PyTuple [PyFixedStrideArrayDimTag (PyInt 1) 0])].

(** ** Code generation of a call to a kernel

    A [CallInstruction] as [emit_call_insn] reads it: the parameters of its
    expression, the keyword parameters when the expression is a
    [CallWithKwargs], and the assignees. *)
Record CallInstruction : Type := {
  insn_parameters : list expr;
  insn_kw_parameters : option (Dict.t string expr);
  insn_assignees : list expr
}.

Inductive instruction : Type :=
  | CallInsn (insn : CallInstruction)
  | OtherInsn.

(** The call that is emitted: the variable [function] applied to the
    [parameters]. *)
Record c_call (cexpr : Type) : Type := {
  c_function : option string;
  c_parameters : list cexpr
}.

Section CodeGeneration.

(** The expressions of the target, and
    [expression_to_code_mapper(par, PREC_NONE,
       dtype_to_type_context(target, dtype), dtype).expr]. *)
Variable cexpr : Type.
Variable to_code : expr -> dtype_value -> result cexpr.

(** [self.arg_id_to_dtype[id]]; [None] cannot be subscripted. *)
Definition subscript_dtype (arg_id_to_dtype : option dtype_map) (id : arg_id)
  : result dtype_value :=
  match arg_id_to_dtype with
  | Some d => Dict.getitem arg_id_eqb id d
  | None => Raise TypeError
  end.

(** The body of the loop over the positions of the keyword parameters. *)
Definition append_kw_parameter (self : CallableKernel) (pos_to_kw : pos_to_kw_map)
  (kw_parameters : Dict.t string expr)
  (st : list expr * list dtype_value) (i : Z)
  : result (list expr * list dtype_value) :=
  let '(parameters, par_dtypes) := st in
  kw <- Dict.getitem Z.eqb i pos_to_kw ;;
  par <- Dict.getitem String.eqb kw kw_parameters ;;
  kw' <- Dict.getitem Z.eqb i pos_to_kw ;;
  dtype <- subscript_dtype (ck_arg_id_to_dtype self) (Kw kw') ;;
  Ok (parameters ++ [par], par_dtypes ++ [dtype]).

(** [CallableKernel.emit_call_insn(self, insn, target,
    expression_to_code_mapper)] *)
Definition CallableKernel_emit_call_insn (self : CallableKernel)
  (insn : instruction) : result (c_call cexpr) :=
  _ <- py_assert (CallableKernel_is_ready_for_codegen self) ;;
  match insn with
  | OtherInsn => Raise AssertionError
  | CallInsn insn =>
      let parameters := insn_parameters insn in
      let kw_parameters :=
        match insn_kw_parameters insn with Some kw => kw | None => [] end in
      let assignees := insn_assignees insn in
      par_dtypes <- mapM (fun ip => subscript_dtype (ck_arg_id_to_dtype self)
                                      (Pos (fst ip)))
                         (enumerate_from 0 parameters) ;;
      let pos_to_kw := snd (get_kw_pos_association (subkernel self)) in
      st <- foldM (append_kw_parameter self pos_to_kw kw_parameters)
                  (map (fun j => Z.of_nat (List.length parameters) + j)
                       (py_range (List.length kw_parameters)))
                  (parameters, par_dtypes) ;;
      let '(parameters, par_dtypes) := st in
      assignee_dtypes <- mapM (fun ia => subscript_dtype (ck_arg_id_to_dtype self)
                                           (Pos (- fst ia - 1)))
                              (enumerate_from 0 assignees) ;;
      let parameters := parameters ++ assignees in
      let par_dtypes := par_dtypes ++ assignee_dtypes in
      c_parameters <- mapM (fun pd => to_code (fst pd) (snd pd))
                           (combine parameters par_dtypes) ;;
      Ok {| c_function := ck_name_in_target self; c_parameters := c_parameters |}
  end.

End CodeGeneration.

(** The kernel of the scenario as a callable ready for code generation,
    and a call instruction that passes [K] by position and [u] by
    keyword. *)
Definition laplace_ready : CallableKernel :=
  {| subkernel := laplace_kernel;
     ck_arg_id_to_dtype :=
       Some [(Pos 0, Some int32); (Kw "u", Some float32); (Pos (-1), Some float32)];
     ck_arg_id_to_descr := Some [];
     ck_name_in_target := Some "laplace" |}.

Definition laplace_insn : CallInstruction :=
  {| insn_parameters := [Id (Variable_ "K")];
     insn_kw_parameters := Some [("u", Id (Variable_ "u"))];
     insn_assignees := [Id (Variable_ "lap")] |}.

(** A code mapper that records what it is asked to translate. *)
Definition code_request (par : expr) (dtype : dtype_value)
  : result (expr * dtype_value) := Ok (par, dtype).

(** ** Code generation of a scalar call *)

Section ScalarCodeGeneration.

(** [expression_to_code_mapper.infer_type(par)] and
    [expression_to_code_mapper.rec(par,
       dtype_to_type_context(target, dtype), dtype)]. *)
Variable cexpr : Type.
Variable infer_type : expr -> result dtype_value.
Variable rec_code : expr -> dtype_value -> result cexpr.

(** [expression.parameters]; only a call has the attribute. *)
Definition expression_parameters (expression : expr) : result (list expr) :=
  match expression with
  | Call _ parameters => Ok parameters
  | _ => Raise AttributeError
  end.

(** [len(self.arg_id_to_dtype)]; [None] has no length. *)
Definition len_dtype_map (arg_id_to_dtype : option dtype_map) : result Z :=
  match arg_id_to_dtype with
  | Some d => Ok (Z.of_nat (List.length d))
  | None => Raise TypeError
  end.

(** [ScalarCallable.emit_call(self, expression_to_code_mapper, expression,
    target)]; [range(k)] is empty for a negative [k], and [zip] stops with
    its shortest argument. *)
Definition ScalarCallable_emit_call (self : ScalarCallable) (expression : expr)
  : result (c_call cexpr) :=
  _ <- py_assert (ScalarCallable_is_ready_for_codegen self) ;;
  parameters <- expression_parameters expression ;;
  len <- len_dtype_map (sc_arg_id_to_dtype self) ;;
  _ <- py_assert (Z.of_nat (List.length parameters) =? len - 1) ;;
  arg_dtypes <- mapM (fun id => subscript_dtype (sc_arg_id_to_dtype self) (Pos id))
                     (py_range (Z.to_nat (len - 1))) ;;
  par_dtypes <- mapM infer_type parameters ;;
  processed_parameters <-
    mapM (fun x => rec_code (fst (fst x)) (snd x))
         (combine (combine parameters par_dtypes) arg_dtypes) ;;
  Ok {| c_function := sc_name_in_target self;
        c_parameters := processed_parameters |}.

End ScalarCodeGeneration.

(** A scalar callable with one input and one result, both [float32], and a
    type inference that always answers [float64]. *)
Definition sin_ready : ScalarCallable :=
  {| sc_name := Name "sin";
     sc_arg_id_to_dtype := Some [(Pos 0, Some float32); (Pos (-1), Some float32)];
     sc_arg_id_to_descr := Some [];
     sc_name_in_target := Some "sin" |}.

Definition infer_float64 (par : expr) : result dtype_value := Ok (Some float64).

(** * Properties *)

Unset Implicit Arguments.

(** ** Argument descriptors *)

Section DescriptorProperties.

Lemma py_assert_ok (b : bool) (u : unit) : py_assert b = Ok u -> b = true.
Proof. destruct b; simpl; [reflexivity | discriminate]. Qed.

Lemma init_ok_inv (shape mem_scope dim_tags d : pyobj) :
    ArrayArgDescriptor.init shape mem_scope dim_tags = Ok d ->
    isinstance_tuple shape = true /\ isinstance_str mem_scope = true /\
    isinstance_tuple dim_tags = true /\
    forallb isinstance_FixedStrideArrayDimTag (tuple_elts dim_tags) = true /\
    d = PyInstance "ArrayArgDescriptor"
          [("shape", shape); ("mem_scope", mem_scope); ("dim_tags", dim_tags)].
Proof.
    unfold ArrayArgDescriptor.init.
    destruct shape; simpl; try discriminate.
    destruct mem_scope; simpl; try discriminate.
    destruct dim_tags; simpl; try discriminate.
    destruct (forallb isinstance_FixedStrideArrayDimTag elts0) eqn:E; simpl;
      try discriminate.
    intros H; inversion H; subst. repeat split; reflexivity.
Qed.

Lemma init_ok_intro (shape mem_scope dim_tags : pyobj) :
    isinstance_tuple shape = true -> isinstance_str mem_scope = true ->
    isinstance_tuple dim_tags = true ->
    forallb isinstance_FixedStrideArrayDimTag (tuple_elts dim_tags) = true ->
    ArrayArgDescriptor.init shape mem_scope dim_tags =
      Ok (PyInstance "ArrayArgDescriptor"
            [("shape", shape); ("mem_scope", mem_scope); ("dim_tags", dim_tags)]).
Proof.
    unfold ArrayArgDescriptor.init.
    destruct shape; simpl; try discriminate; intros _.
    destruct mem_scope; simpl; try discriminate; intros _.
    destruct dim_tags; simpl; try discriminate; intros _.
    intros ->. reflexivity.
Qed.

End DescriptorProperties.

(** C7 (as stated, refuted): a descriptor whose [shape] has two entries and
    whose [dim_tags] has none is constructed without any failure. *)
Lemma ArrayArgDescriptor_init_length_mismatch :
  exists d,
    ArrayArgDescriptor.init (PyTuple [PyInt 4; PyInt 4]) (PyStr "GLOBAL") (PyTuple [])
      = Ok d /\
Record.getattr d "shape" = Ok (PyTuple [PyInt 4; PyInt 4]) /\
Record.getattr d "dim_tags" = Ok (PyTuple []) /\
    List.length [PyInt 4; PyInt 4] <> List.length (@nil pyobj).
Proof.
  eexists. split; [reflexivity |]. simpl. repeat split. discriminate.
Qed.

(** C7 (amended): construction of an [ArrayArgDescriptor] succeeds exactly
    when [shape] is a tuple, [mem_scope] a string and [dim_tags] a tuple of
    [FixedStrideArrayDimTag]s, and then stores the three values unchanged;
    the lengths of [shape] and [dim_tags] are not compared. *)
Theorem ArrayArgDescriptor_init_checks (shape mem_scope dim_tags d : pyobj) :
  ArrayArgDescriptor.init shape mem_scope dim_tags = Ok d <->
  (exists dims, shape = PyTuple dims) /\
  (exists s, mem_scope = PyStr s) /\
  (exists tags, dim_tags = PyTuple tags /\
                forallb isinstance_FixedStrideArrayDimTag tags = true) /\
  d = PyInstance "ArrayArgDescriptor"
        [("shape", shape); ("mem_scope", mem_scope); ("dim_tags", dim_tags)].
Proof.
  split.
  - intros H. apply init_ok_inv in H.
    destruct H as (Hs & Hm & Ht & Hf & ->).
    destruct shape; try discriminate Hs.
    destruct mem_scope; try discriminate Hm.
    destruct dim_tags; try discriminate Ht.
    simpl in Hf. repeat split; eauto.
  - intros ((dims & ->) & (s & ->) & (tags & -> & Hf) & ->).
    apply init_ok_intro; simpl; auto.
Qed.

Lemma ArrayArgDescriptor_init_checks_witness :
  ArrayArgDescriptor.init (PyTuple [PyInt 4; PyInt 4]) (PyStr "GLOBAL")
    (PyTuple [PyFixedStrideArrayDimTag (PyInt 1) 0]) =
  Ok (PyInstance "ArrayArgDescriptor"
        [("shape", PyTuple [PyInt 4; PyInt 4]); ("mem_scope", PyStr "GLOBAL");
         ("dim_tags", PyTuple [PyFixedStrideArrayDimTag (PyInt 1) 0])]).
Proof.
  apply (proj2 (ArrayArgDescriptor_init_checks
                  (PyTuple [PyInt 4; PyInt 4]) (PyStr "GLOBAL")
                  (PyTuple [PyFixedStrideArrayDimTag (PyInt 1) 0]) _)).
  repeat split; eauto.
Defined.

(** C10: on every constructed [ArrayArgDescriptor], [copy] without a
    [dtype] fails reading the [dtype] attribute, which no descriptor has;
    with a [dtype] it fails building the new value, whose [shape] is left
    out; so no call of [copy] returns a descriptor with the original's
    shape. *)
Theorem ArrayArgDescriptor_copy_fails (shape mem_scope dim_tags d : pyobj) :
  ArrayArgDescriptor.init shape mem_scope dim_tags = Ok d ->
  (forall mem_scope' shape' dim_tags',
      ArrayArgDescriptor.copy d PyNone mem_scope' shape' dim_tags'
        = Raise AttributeError) /\
  (forall dtype mem_scope' shape' dim_tags',
      is_None dtype = false ->
      ArrayArgDescriptor.copy d dtype mem_scope' shape' dim_tags'
        = Raise TypeError) /\
  (forall dtype mem_scope' shape' dim_tags' d',
      ArrayArgDescriptor.copy d dtype mem_scope' shape' dim_tags' = Ok d' ->
Record.getattr d' "shape" <> Record.getattr d "shape").
Proof.
  intros H. apply init_ok_inv in H. destruct H as (_ & _ & _ & _ & ->).
  assert (A : forall m s t,
             ArrayArgDescriptor.copy
               (PyInstance "ArrayArgDescriptor"
                  [("shape", shape); ("mem_scope", mem_scope);
                   ("dim_tags", dim_tags)]) PyNone m s t = Raise AttributeError)
    by reflexivity.
  assert (B : forall dt m s t, is_None dt = false ->
             ArrayArgDescriptor.copy
               (PyInstance "ArrayArgDescriptor"
                  [("shape", shape); ("mem_scope", mem_scope);
                   ("dim_tags", dim_tags)]) dt m s t = Raise TypeError).
  { intros dt m s t Hd. unfold ArrayArgDescriptor.copy. rewrite Hd. simpl.
    destruct (is_None m); simpl; destruct (is_None t); reflexivity. }
  split; [exact A | split; [exact B |]].
  intros dt m s t d' Hc.
  destruct (is_None dt) eqn:Hd.
  - destruct dt; try discriminate Hd. rewrite A in Hc. discriminate.
  - rewrite (B _ _ _ _ Hd) in Hc. discriminate.
Qed.

Lemma ArrayArgDescriptor_copy_fails_witness :
  ArrayArgDescriptor.copy
    (PyInstance "ArrayArgDescriptor"
       [("shape", PyTuple [PyInt 4]); ("mem_scope", PyStr "GLOBAL");
        ("dim_tags", PyTuple [PyFixedStrideArrayDimTag (PyInt 1) 0])])
    PyNone PyNone PyNone PyNone = Raise AttributeError.
Proof.
  apply (proj1 (ArrayArgDescriptor_copy_fails
                  (PyTuple [PyInt 4]) (PyStr "GLOBAL")
                  (PyTuple [PyFixedStrideArrayDimTag (PyInt 1) 0])
                  _ eq_refl)).
Defined.

(** ** Dictionaries *)

Section DictFacts.
Variables K V : Type.
Variable eqb : K -> K -> bool.
Hypothesis eqb_eq : forall a b, eqb a b = true <-> a = b.

Lemma eqb_refl' (a : K) : eqb a a = true.
Proof. apply eqb_eq. reflexivity. Qed.

Lemma eqb_neq (a b : K) : a <> b -> eqb a b = false.
Proof.
  intros H. destruct (eqb a b) eqn:E; [| reflexivity].
  apply eqb_eq in E. contradiction.
Qed.

Lemma get_None_not_In (k : K) (d : Dict.t K V) :
  Dict.get eqb k d = None <-> ~ In k (Dict.keys d).
Proof.
  induction d as [| [k' v] d IH]; simpl.
  - tauto.
  - destruct (eqb k k') eqn:E.
    + apply eqb_eq in E. subst. split; [discriminate | intros H; exfalso; auto].
    + rewrite IH. split.
      * intros H [H1 | H1]; [subst; rewrite eqb_refl' in E; discriminate | auto].
      * intros H H1. auto.
Qed.

Lemma get_Some_In (k : K) (v : V) (d : Dict.t K V) :
  Dict.get eqb k d = Some v -> In (k, v) d.
Proof.
  induction d as [| [k' v'] d IH]; simpl; [discriminate |].
  destruct (eqb k k') eqn:E.
  - apply eqb_eq in E. subst. intros H; inversion H; subst. auto.
  - auto.
Qed.

Lemma In_get_Some (k : K) (v : V) (d : Dict.t K V) :
  NoDup (Dict.keys d) -> In (k, v) d -> Dict.get eqb k d = Some v.
Proof.
  induction d as [| [k' v'] d IH]; simpl; [tauto |].
  intros N [H | H].
  - inversion H; subst. rewrite eqb_refl'. reflexivity.
  - inversion N; subst. rewrite eqb_neq.
    + auto.
    + intros ->. apply H2. change k' with (fst (k', v)). apply in_map. exact H.
Qed.

Lemma set_fresh (k : K) (v : V) (d : Dict.t K V) :
  Dict.get eqb k d = None -> Dict.set eqb k v d = d ++ [(k, v)].
Proof.
  induction d as [| [k' v'] d IH]; simpl; [reflexivity |].
  destruct (eqb k k'); [discriminate |]. intros H. rewrite IH; auto.
Qed.

Lemma get_set_same (k : K) (v : V) (d : Dict.t K V) :
  Dict.get eqb k (Dict.set eqb k v d) = Some v.
Proof.
  induction d as [| [k' v'] d IH]; simpl.
  - rewrite eqb_refl'. reflexivity.
  - destruct (eqb k k') eqn:E; simpl; rewrite E; auto.
Qed.

Lemma get_set_other (k k0 : K) (v : V) (d : Dict.t K V) :
  k0 <> k -> Dict.get eqb k0 (Dict.set eqb k v d) = Dict.get eqb k0 d.
Proof.
  intros N. induction d as [| [k' v'] d IH]; simpl.
  - rewrite eqb_neq; auto.
  - destruct (eqb k k') eqn:E; simpl.
    + apply eqb_eq in E. subst. rewrite eqb_neq; auto.
    + destruct (eqb k0 k'); auto.
Qed.

Lemma keys_set (k : K) (v : V) (d : Dict.t K V) :
  Dict.keys (Dict.set eqb k v d) =
  if Dict.mem eqb k d then Dict.keys d else Dict.keys d ++ [k].
Proof.
  unfold Dict.mem. induction d as [| [k' v'] d IH]; simpl; [reflexivity |].
  destruct (eqb k k') eqn:E; simpl; [reflexivity |].
  rewrite IH. destruct (Dict.get eqb k d); reflexivity.
Qed.

End DictFacts.

Arguments eqb_refl' {K} eqb eqb_eq a.
Arguments eqb_neq {K} eqb eqb_eq a b _.
Arguments get_None_not_In {K V} eqb eqb_eq k d.
Arguments get_Some_In {K V} eqb eqb_eq k v d _.
Arguments In_get_Some {K V} eqb eqb_eq k v d _ _.
Arguments set_fresh {K V} eqb k v d _.
Arguments get_set_same {K V} eqb eqb_eq k v d.
Arguments get_set_other {K V} eqb eqb_eq k k0 v d _.
Arguments keys_set {K V} eqb k v d.

Lemma arg_id_eqb_eq (a b : arg_id) : arg_id_eqb a b = true <-> a = b.
Proof.
  destruct a, b; simpl; split; intros H; try discriminate; try congruence.
  - apply Z.eqb_eq in H. congruence.
  - inversion H. apply Z.eqb_refl.
  - apply String.eqb_eq in H. congruence.
  - inversion H. apply String.eqb_refl.
Qed.

(** ** Positional/keyword id resolver *)

Section Resolver.
Variable k : LoopKernel.

Lemma scan_ids_length (l : list KernelArgument) (r w : Z) :
  List.length (scan_ids k l r w) = List.length l.
Proof.
  revert r w. induction l as [| a l IH]; intros r w; simpl; [reflexivity |].
  destruct (negb (is_written k (arg_name a))); simpl; rewrite IH; reflexivity.
Qed.

Lemma scan_ids_range (l : list KernelArgument) (r w id : Z) :
  In id (scan_ids k l r w) -> r <= id \/ id <= w.
Proof.
  revert r w. induction l as [| a l IH]; intros r w; simpl; [tauto |].
  destruct (negb (is_written k (arg_name a))); simpl.
  - intros [H | H]; [lia | apply IH in H; lia].
  - intros [H | H]; [lia | apply IH in H; lia].
Qed.

Lemma scan_ids_NoDup (l : list KernelArgument) (r w : Z) :
  w < r -> NoDup (scan_ids k l r w).
Proof.
  revert r w. induction l as [| a l IH]; intros r w Hwr; simpl; [constructor |].
  destruct (negb (is_written k (arg_name a))); constructor.
  - intros H. apply scan_ids_range in H. lia.
  - apply IH. lia.
  - intros H. apply scan_ids_range in H. lia.
  - apply IH. lia.
Qed.

Lemma scan_ids_app (l1 l2 : list KernelArgument) (r w : Z) :
  scan_ids k (l1 ++ l2) r w =
  scan_ids k l1 r w ++
  scan_ids k l2 (r + count_inputs k l1) (w - count_outputs k l1).
Proof.
  revert r w. induction l1 as [| a l1 IH]; intros r w.
  - simpl. unfold count_inputs, count_outputs. simpl.
    rewrite Z.add_0_r, Z.sub_0_r. reflexivity.
  - assert (L : forall (x : KernelArgument) (l : list KernelArgument),
               Z.of_nat (List.length (x :: l)) = 1 + Z.of_nat (List.length l)).
    { intros x l. change (List.length (x :: l)) with (S (List.length l)). lia. }
    unfold count_inputs, count_outputs in *. simpl app. simpl scan_ids. simpl filter.
    destruct (is_written k (arg_name a)); simpl negb; cbv iota; rewrite IH;
      rewrite L; rewrite <- app_comm_cons; do 3 f_equal; lia.
Qed.

(** The sign of an id tells inputs from outputs. *)
Lemma scan_ids_sign (l : list KernelArgument) (r w : Z) (a : KernelArgument) (id : Z) :
  w < 0 <= r ->
  In (arg_name a, id) (combine (map arg_name l) (scan_ids k l r w)) ->
  (0 <= id <-> is_written k (arg_name a) = false).
Proof.
  revert r w. induction l as [| b l IH]; intros r w Hwr; simpl; [tauto |].
  destruct (is_written k (arg_name b)) eqn:E; simpl.
  - intros [H | H].
    + injection H as Hn Hid. rewrite <- Hn, E. split; [lia | discriminate].
    + apply (IH r (w - 1)); [lia | exact H].
  - intros [H | H].
    + injection H as Hn Hid. rewrite <- Hn, E. split; [reflexivity | lia].
    + apply (IH (r + 1) w); [lia | exact H].
Qed.

Lemma kw_pos_fold (l : list KernelArgument) (st : kw_pos_state) :
  NoDup (map arg_name l) ->
  (forall a, In a l -> Dict.get String.eqb (arg_name a) (kw_to_pos st) = None) ->
  (forall id, In id (Dict.keys (pos_to_kw st)) ->
              write_count st < id < read_count st) ->
  write_count st < read_count st ->
  kw_to_pos (fold_left (kw_pos_step k) l st) =
    kw_to_pos st ++
    combine (map arg_name l) (scan_ids k l (read_count st) (write_count st)) /\
  pos_to_kw (fold_left (kw_pos_step k) l st) =
    pos_to_kw st ++
    combine (scan_ids k l (read_count st) (write_count st)) (map arg_name l).
Proof.
  revert st. induction l as [| a l IH]; intros st N Hkw Hpk Hwr; simpl.
  - rewrite !app_nil_r. auto.
  - inversion N as [| ? ? Hnotin N']; subst.
    assert (Hr : Dict.get Z.eqb (read_count st) (pos_to_kw st) = None).
    { apply (get_None_not_In Z.eqb Z.eqb_eq). intros H. apply Hpk in H. lia. }
    assert (Hw : Dict.get Z.eqb (write_count st) (pos_to_kw st) = None).
    { apply (get_None_not_In Z.eqb Z.eqb_eq). intros H. apply Hpk in H. lia. }
    assert (Ha : Dict.get String.eqb (arg_name a) (kw_to_pos st) = None)
      by (apply Hkw; left; reflexivity).
    assert (Hfresh : forall id0 b, In b l ->
              Dict.get String.eqb (arg_name b)
                (kw_to_pos st ++ [(arg_name a, id0)]) = None).
    { intros id0 b Hb. apply (get_None_not_In String.eqb String.eqb_eq).
      unfold Dict.keys. rewrite map_app. simpl. intros H.
      apply in_app_or in H. destruct H as [H | [H | []]].
      - assert (G := Hkw b (or_intror Hb)).
        apply (get_None_not_In String.eqb String.eqb_eq) in G. apply G. exact H.
      - apply Hnotin. rewrite H. apply in_map. exact Hb. }
    unfold kw_pos_step at 2 4.
    destruct (negb (is_written k (arg_name a))) eqn:E.
    + rewrite (set_fresh String.eqb _ _ _ Ha), (set_fresh Z.eqb _ _ _ Hr).
      match goal with |- context [fold_left _ l ?s] => specialize (IH s) end.
      simpl in IH. destruct IH as [IH1 IH2]; auto.
      * intros id. unfold Dict.keys. rewrite map_app. simpl. intros H.
        apply in_app_or in H. destruct H as [H | [H | []]];
          [apply Hpk in H; lia | lia].
      * lia.
      * rewrite IH1, IH2, <- !app_assoc. simpl. auto.
    + rewrite (set_fresh String.eqb _ _ _ Ha), (set_fresh Z.eqb _ _ _ Hw).
      match goal with |- context [fold_left _ l ?s] => specialize (IH s) end.
      simpl in IH. destruct IH as [IH1 IH2]; auto.
      * intros id. unfold Dict.keys. rewrite map_app. simpl. intros H.
        apply in_app_or in H. destruct H as [H | [H | []]];
          [apply Hpk in H; lia | lia].
      * lia.
      * rewrite IH1, IH2, <- !app_assoc. simpl. auto.
Qed.

(** With pairwise distinct argument names, the two maps list the arguments
    in declaration order, each paired with the id the scan hands out. *)
Lemma get_kw_pos_association_combine :
  NoDup (map arg_name (args k)) ->
  get_kw_pos_association k =
  (combine (map arg_name (args k)) (scan_ids k (args k) 0 (-1)),
   combine (scan_ids k (args k) 0 (-1)) (map arg_name (args k))).
Proof.
  intros N. unfold get_kw_pos_association.
  destruct (kw_pos_fold (args k) kw_pos_init N) as [H1 H2].
  - intros a _. reflexivity.
  - intros id [].
  - simpl. lia.
  - simpl in H1, H2. rewrite H1, H2. reflexivity.
Qed.

End Resolver.

Lemma keys_combine (A B : Type) (l1 : list A) (l2 : list B) :
  List.length l1 = List.length l2 -> Dict.keys (combine l1 l2) = l1.
Proof.
  revert l2. induction l1 as [| a l1 IH]; intros [| b l2]; simpl;
    try discriminate; [reflexivity |].
  intros H. unfold Dict.keys in *. simpl. f_equal. apply IH. lia.
Qed.

Lemma In_combine_swap (A B : Type) (l1 : list A) (l2 : list B) (a : A) (b : B) :
  In (a, b) (combine l1 l2) <-> In (b, a) (combine l2 l1).
Proof.
  revert l2. induction l1 as [| x l1 IH]; intros [| y l2]; simpl; try tauto.
  rewrite IH. split; intros [H | H]; auto; left; congruence.
Qed.


Lemma combine_app_same (A B : Type) (l1 l2 : list A) (m1 m2 : list B) :
  List.length l1 = List.length m1 ->
  combine (l1 ++ l2) (m1 ++ m2) = combine l1 m1 ++ combine l2 m2.
Proof.
  revert m1. induction l1 as [| a l1 IH]; intros [| b m1]; simpl;
    try discriminate; [reflexivity |].
  intros H. f_equal. apply IH. lia.
Qed.

Lemma In_combine_l (A B : Type) (l1 : list A) (l2 : list B) (a : A) (b : B) :
  In (a, b) (combine l1 l2) -> In a l1.
Proof.
  revert l2. induction l1 as [| x l1 IH]; intros [| y l2]; simpl; try tauto.
  intros [H | H]; [left; congruence | right; eauto].
Qed.

Lemma get_kw_pos_association_rerun (k k' : LoopKernel) :
  args k' = args k -> written_variables k' = written_variables k ->
  get_kw_pos_association k' = get_kw_pos_association k.
Proof.
  destruct k as [n a w i], k' as [n' a' w' i']. simpl. intros -> ->.
  reflexivity.
Qed.

(** C6: on a kernel whose argument names are pairwise distinct, the
    resolver gives the i-th input (argument not in the write set), in
    declaration order, the id [i] counted from 0 and the j-th output the id
    [-1 - j]; the name-to-id map is defined exactly on the argument names;
    the two maps are inverse to each other; an id is non-negative exactly
    for an input; a kernel with the same arguments and write set gets the
    same maps.  On the kernel with scalar input [K], array input [u] and
    written array [lap] the maps are [{K:0, u:1, lap:-1}] and its inverse. *)
Theorem get_kw_pos_association_spec :
  (forall k : LoopKernel,
      NoDup (map arg_name (args k)) ->
      let kw := fst (get_kw_pos_association k) in
      let pk := snd (get_kw_pos_association k) in
      (forall l1 a l2, args k = l1 ++ a :: l2 ->
          Dict.get String.eqb (arg_name a) kw =
          Some (if is_written k (arg_name a)
                then -1 - count_outputs k l1 else count_inputs k l1)) /\
      (forall name id, Dict.get String.eqb name kw = Some id ->
                       In name (map arg_name (args k))) /\
      (forall name id, Dict.get String.eqb name kw = Some id <->
                       Dict.get Z.eqb id pk = Some name) /\
      (forall name id, Dict.get String.eqb name kw = Some id ->
                       (0 <= id <-> is_written k name = false)) /\
      (forall k', args k' = args k ->
                  written_variables k' = written_variables k ->
                  get_kw_pos_association k' = get_kw_pos_association k)) /\
  get_kw_pos_association laplace_kernel =
    ([("K", 0); ("u", 1); ("lap", -1)], [(0, "K"); (1, "u"); (-1, "lap")]).
Proof.
  split; [| reflexivity].
  intros k N kw pk. subst kw pk.
  rewrite (get_kw_pos_association_combine k N). cbn [fst snd].
  set (names := map arg_name (args k)).
  set (ids := scan_ids k (args k) 0 (-1)).
  assert (L : List.length names = List.length ids).
  { unfold names, ids. rewrite scan_ids_length, length_map. reflexivity. }
  assert (Nk : NoDup (Dict.keys (combine names ids)))
    by (rewrite keys_combine; auto).
  assert (Ni : NoDup (Dict.keys (combine ids names))).
  { rewrite keys_combine; auto. apply scan_ids_NoDup. lia. }
  repeat split.
  - intros l1 a l2 E. apply (In_get_Some String.eqb String.eqb_eq); [exact Nk |].
    unfold names, ids. rewrite E, map_app, scan_ids_app.
    rewrite combine_app_same by (rewrite scan_ids_length, length_map; reflexivity).
    apply in_or_app. right. simpl.
    destruct (is_written k (arg_name a)); simpl; left; f_equal; lia.
  - intros name id H. apply (get_Some_In String.eqb String.eqb_eq) in H.
    apply In_combine_l in H. exact H.
  - intros H. apply (In_get_Some Z.eqb Z.eqb_eq); [exact Ni |].
    apply In_combine_swap. apply (get_Some_In String.eqb String.eqb_eq). exact H.
  - intros H. apply (In_get_Some String.eqb String.eqb_eq); [exact Nk |].
    apply In_combine_swap. apply (get_Some_In Z.eqb Z.eqb_eq). exact H.
  - intros Hid. apply (get_Some_In String.eqb String.eqb_eq) in H.
    destruct (in_map_iff arg_name (args k) name) as [F _].
    destruct (F (In_combine_l _ _ _ _ _ _ H)) as (a & <- & _).
    apply (scan_ids_sign k (args k) 0 (-1) a id); [lia | exact H | exact Hid].
  - intros Hw. apply (get_Some_In String.eqb String.eqb_eq) in H.
    destruct (in_map_iff arg_name (args k) name) as [F _].
    destruct (F (In_combine_l _ _ _ _ _ _ H)) as (a & <- & _).
    apply (scan_ids_sign k (args k) 0 (-1) a id); [lia | exact H | exact Hw].
  - intros k' Ha Hw. rewrite (get_kw_pos_association_rerun k k' Ha Hw).
    exact (get_kw_pos_association_combine k N).
Qed.

Lemma get_kw_pos_association_spec_witness :
  Dict.get String.eqb "lap" (fst (get_kw_pos_association laplace_kernel)) = Some (-1) <->
  Dict.get Z.eqb (-1) (snd (get_kw_pos_association laplace_kernel)) = Some "lap".
Proof.
  assert (N : NoDup (map arg_name (args laplace_kernel))).
  { simpl. repeat constructor; simpl; intuition discriminate. }
  exact (proj1 (proj2 (proj2 (proj1 get_kw_pos_association_spec laplace_kernel N)))
           "lap" (-1)).
Defined.

(** ** Specialization of callables *)

Lemma LoopyType_eqb_eq (a b : LoopyType) : LoopyType_eqb a b = true <-> a = b.
Proof.
  destruct a as [x], b as [y]. simpl. rewrite String.eqb_eq.
  split; congruence.
Qed.

Lemma dtype_value_eqb_eq (a b : dtype_value) : dtype_value_eqb a b = true <-> a = b.
Proof.
  destruct a as [x |], b as [y |]; simpl; try (split; congruence).
  rewrite LoopyType_eqb_eq. split; congruence.
Qed.

Lemma dtype_value_eqb_neq (a b : dtype_value) : a <> b -> dtype_value_eqb a b = false.
Proof.
  intros H. destruct (dtype_value_eqb a b) eqn:E; [| reflexivity].
  apply dtype_value_eqb_eq in E. contradiction.
Qed.

Lemma bind_Ok_inv (A B : Type) (r : result A) (f : A -> result B) (b : B) :
  bind r f = Ok b -> exists a, r = Ok a /\ f a = Ok b.
Proof. destruct r as [a | e]; simpl; [eauto | discriminate]. Qed.

(** The loop of the check stops at a disagreeing entry at the latest. *)
Lemma check_specialized_conflict (self_map : dtype_map)
  (items : list (arg_id * dtype_value)) (id : arg_id) (t t' : dtype_value) :
  In (id, t') items ->
  Dict.get arg_id_eqb id self_map = Some t ->
  t <> t' ->
  (exists e, check_specialized self_map items = Raise e) /\
  ((forall id', In id' (map fst items) -> Dict.get arg_id_eqb id' self_map <> None) ->
   check_specialized self_map items = Raise (LoopyError Overwriting_specialized)).
Proof.
  intros Hin Hget Hne. induction items as [| [id0 t0] items IH]; [destruct Hin |].
  simpl. unfold Dict.getitem.
  destruct Hin as [Hin | Hin].
  - inversion Hin; subst. rewrite Hget. simpl.
    rewrite (dtype_value_eqb_neq _ _ Hne). simpl. split; eauto.
  - destruct (IH Hin) as [[e He] IH2].
    destruct (Dict.get arg_id_eqb id0 self_map) as [old |] eqn:G; simpl.
    + destruct (dtype_value_eqb old t0); simpl.
      * split; [eauto |]. intros Hall. apply IH2. intros id' Hi.
        apply Hall. right. exact Hi.
      * split; eauto.
    + split; [eauto |]. intros Hall. exfalso. apply (Hall id0); [left |]; auto.
Qed.

Lemma get_Some_In_items (id : arg_id) (t : dtype_value) (m : dtype_map) :
  Dict.get arg_id_eqb id m = Some t -> In (id, t) (Dict.items m).
Proof. apply (get_Some_In arg_id_eqb arg_id_eqb_eq). Qed.

(** C1 (the code, evaluated): whenever [with_types] or [with_descrs]
    succeeds, on any of the three classes, the value handed to the caller is
    the new callable alone, never a pair of a callable and a map. *)
Theorem call_with_types_returns_callable_alone :
  (forall ext self arg_id_to_dtype kernel v,
      call_with_types ext self arg_id_to_dtype kernel = Ok v ->
      is_tuple v = false /\
      exists new_self, v = Return_callable new_self /\
        with_types ext self arg_id_to_dtype kernel = Ok new_self) /\
  (forall self arg_id_to_descr v,
      call_with_descrs self arg_id_to_descr = Ok v ->
      is_tuple v = false /\
      exists new_self, v = Return_callable new_self /\
        with_descrs self arg_id_to_descr = Ok new_self).
Proof.
  split.
  - intros ext self m k v H. unfold call_with_types in H.
    apply bind_Ok_inv in H. destruct H as (c & Hc & Hv).
    inversion Hv; subst. split; [reflexivity | eauto].
  - intros self m v H. unfold call_with_descrs in H.
    apply bind_Ok_inv in H. destruct H as (c & Hc & Hv).
    inversion Hv; subst. split; [reflexivity | eauto].
Qed.

Lemma call_with_types_returns_callable_alone_witness :
  is_tuple
    (Return_callable
       (Scalar {| sc_name := Name "indexof";
                  sc_arg_id_to_dtype :=
                    Some [(Pos 0, Some int32); (Pos (-1), Some int32)];
                  sc_arg_id_to_descr := None;
                  sc_name_in_target := None |})) = false.
Proof.
  apply (proj1 (proj1 call_with_types_returns_callable_alone bare_external
                  (Scalar (fresh_scalar "indexof")) [(Pos 0, Some int32)]
                  laplace_kernel _ eq_refl)).
Defined.

(** C2 (as stated, refuted): a [CallableKernel] already specialized with
    [int32] for id 0 is specialized again with [float32] for id 0, and the
    call succeeds with the new type in place of the old one. *)
Lemma CallableKernel_with_types_overwrites :
  callable_arg_id_to_dtype (Kernel twice_int32)
    = Some [(Kw "x", Some int32); (Pos 0, Some int32)] /\
  with_types bare_external (Kernel twice_int32) [(Pos 0, Some float32)]
             laplace_kernel
    = Ok (Kernel
            {| subkernel :=
                 kernel_copy_args twice_kernel
                   [ {| arg_name := "x"; arg_dtype := Some float32;
                        arg_shape := PyTuple [PyInt 8];
                        arg_dim_tags := PyNone |} ];
               ck_arg_id_to_dtype :=
                 Some [(Kw "x", Some float32); (Pos 0, Some float32)];
               ck_arg_id_to_descr := None;
               ck_name_in_target := None |}).
Proof. split; reflexivity. Qed.

(** C2 (amended): for a [ScalarCallable] or [ManglerCallable] whose type map
    is set, and an input map that gives some id of that map a different
    type, [with_types] never succeeds, so the fixed type is not
    overwritten; when moreover every id of the input map is already in the
    callable's type map, the failure is the [LoopyError] for overwriting a
    specialized function.  [CallableKernel.with_types] makes no such
    check. *)
Theorem with_types_conflicting_specialization
  (ext : External) (self : InKernelCallable) (arg_id_to_dtype : dtype_map)
  (kernel : LoopKernel) (self_map : dtype_map) (id : arg_id) (t t' : dtype_value) :
  (forall c, self <> Kernel c) ->
  callable_arg_id_to_dtype self = Some self_map ->
  Dict.get arg_id_eqb id self_map = Some t ->
  Dict.get arg_id_eqb id arg_id_to_dtype = Some t' ->
  t <> t' ->
  (forall new_self, with_types ext self arg_id_to_dtype kernel <> Ok new_self) /\
  ((forall id', In id' (Dict.keys arg_id_to_dtype) ->
                Dict.get arg_id_eqb id' self_map <> None) ->
   with_types ext self arg_id_to_dtype kernel
     = Raise (LoopyError Overwriting_specialized)).
Proof.
  intros Hk Hmap Hself Hin Hne.
  apply get_Some_In_items in Hin.
  destruct (check_specialized_conflict self_map _ id t t' Hin Hself Hne)
    as [[e He] Hall].
  destruct self as [c | c | c]; simpl in Hmap.
  - unfold with_types, ScalarCallable_with_types, check_already_specialized.
    rewrite Hmap. split.
    + intros new_self. rewrite He. simpl. discriminate.
    + intros H. rewrite (Hall H). reflexivity.
  - exfalso. apply (Hk c). reflexivity.
  - unfold with_types, ManglerCallable_with_types, check_already_specialized.
    rewrite Hmap. split.
    + intros new_self. rewrite He. simpl. discriminate.
    + intros H. rewrite (Hall H). reflexivity.
Qed.

Lemma with_types_conflicting_specialization_witness :
  with_types bare_external
    (Scalar {| sc_name := Name "indexof";
               sc_arg_id_to_dtype :=
                 Some [(Pos 0, Some int32); (Pos (-1), Some int32)];
               sc_arg_id_to_descr := None;
               sc_name_in_target := None |})
    [(Pos 0, Some float32)] laplace_kernel
  = Raise (LoopyError Overwriting_specialized).
Proof.
  apply (proj2 (with_types_conflicting_specialization bare_external
                  (Scalar {| sc_name := Name "indexof";
                             sc_arg_id_to_dtype :=
                               Some [(Pos 0, Some int32); (Pos (-1), Some int32)];
                             sc_arg_id_to_descr := None;
                             sc_name_in_target := None |})
                  [(Pos 0, Some float32)] laplace_kernel
                  [(Pos 0, Some int32); (Pos (-1), Some int32)]
                  (Pos 0) (Some int32) (Some float32)
                  ltac:(discriminate) eq_refl eq_refl eq_refl
                  ltac:(discriminate))).
  simpl. intros id' [<- | []]. simpl. discriminate.
Defined.

(** The lookup [self.arg_id_to_dtype[id]] of the check is not guarded: an
    id the callable has no type for raises [KeyError], also when a
    disagreeing id follows it in the input map. *)
Lemma with_types_unknown_id_KeyError :
  let indexof_int32 :=
    Scalar {| sc_name := Name "indexof";
              sc_arg_id_to_dtype :=
                Some [(Pos 0, Some int32); (Pos (-1), Some int32)];
              sc_arg_id_to_descr := None;
              sc_name_in_target := None |} in
  with_types bare_external (Scalar (fresh_scalar "indexof")) [(Pos 0, Some int32)]
             laplace_kernel = Ok indexof_int32 /\
  with_types bare_external indexof_int32 [(Pos 1, Some int32)] laplace_kernel
    = Raise KeyError /\
  with_types bare_external indexof_int32
             [(Pos 1, Some int32); (Pos 0, Some float32)] laplace_kernel
    = Raise KeyError.
Proof. repeat split; reflexivity. Qed.

(** C3 (as stated, refuted): on a target that does not list [foo] among its
    function identifiers, the first call already fails. *)
Lemma with_types_foo_unknown :
  with_types bare_external (Scalar (fresh_scalar "foo")) [(Pos 0, Some int32)]
             laplace_kernel
    = Raise (LoopyError Function_not_present).
Proof. reflexivity. Qed.

(** C3 (amended): on a fresh [ScalarCallable] named [foo], [with_types]
    with [{0: int32}] is decided by the target: if [foo] is one of the
    target's function identifiers the result is the callable the target's
    own [with_types] returns (the unchanged callable if it returns none),
    and otherwise the call fails with the [LoopyError] for a function that
    is not present. *)
Theorem with_types_foo_first_call (ext : External) (kernel : LoopKernel) :
  with_types ext (Scalar (fresh_scalar "foo")) [(Pos 0, Some int32)] kernel =
  if existsb (String.eqb "foo") (function_identifiers ext) then
    new_in_knl_callable <-
      target_with_types ext (fresh_scalar "foo") [(Pos 0, Some int32)] ;;
    Ok (Scalar match new_in_knl_callable with
               | Some c => c
               | None => fresh_scalar "foo"
               end)
  else Raise (LoopyError Function_not_present).
Proof.
  unfold with_types, ScalarCallable_with_types.
  change (check_already_specialized (sc_arg_id_to_dtype (fresh_scalar "foo"))
            [(Pos 0, Some int32)]) with (@Ok unit tt).
  change (name_in (function_identifiers ext) (sc_name (fresh_scalar "foo")))
    with (existsb (String.eqb "foo") (function_identifiers ext)).
  cbv beta iota delta [bind].
  destruct (existsb (String.eqb "foo") (function_identifiers ext)); [| reflexivity].
  destruct (target_with_types ext (fresh_scalar "foo") [(Pos 0, Some int32)])
    as [[c |] | e]; reflexivity.
Qed.

(** ** The caller's dictionary under [with_descrs] *)

Lemma nth_error_list_update_same (A : Type) (l : list A) (j : nat) (x y : A) :
  nth_error l j = Some y -> nth_error (list_update l j x) j = Some x.
Proof.
  revert j. induction l as [| z l IH]; intros [| j]; simpl; try discriminate.
  - reflexivity.
  - apply IH.
Qed.

Lemma set_changes_dict (d : descr_map) (id : arg_id) (v : pyobj) :
  Dict.get arg_id_eqb id d <> Some v -> Dict.set arg_id_eqb id v d <> d.
Proof.
  intros H E. apply H. rewrite <- E.
  apply (get_set_same arg_id_eqb arg_id_eqb_eq).
Qed.

(** C8 (the code, evaluated): [ScalarCallable.with_descrs] writes the entry
    for id [-1] into the dictionary the caller passed: unless that entry
    was there already, the caller's dictionary differs after the call, and
    the new callable's [arg_id_to_descr] field is that same dictionary
    object, not a copy. *)
Theorem ScalarCallable_with_descrs_mutates_argument
  (self : Store.ScalarCallableObj) (arg_id_to_descr : Store.ref)
  (s : Store.store) (d : descr_map) :
  Store.deref s arg_id_to_descr = Ok d ->
  Dict.get arg_id_eqb (Pos (-1)) d <> Some ValueArgDescriptor ->
  exists new_self s',
    Store.ScalarCallable_with_descrs self arg_id_to_descr s = Ok (new_self, s') /\
    Store.deref s' arg_id_to_descr
      = Ok (Dict.set arg_id_eqb (Pos (-1)) ValueArgDescriptor d) /\
    Store.deref s' arg_id_to_descr <> Store.deref s arg_id_to_descr /\
    Store.so_arg_id_to_descr new_self = Some arg_id_to_descr.
Proof.
  intros Hd Hget. unfold Store.ScalarCallable_with_descrs. rewrite Hd.
  cbv beta iota delta [bind].
  eexists. eexists. split; [reflexivity |].
  assert (E : Store.deref
                (Store.assign s arg_id_to_descr
                   (Dict.set arg_id_eqb (Pos (-1)) ValueArgDescriptor d))
                arg_id_to_descr
              = Ok (Dict.set arg_id_eqb (Pos (-1)) ValueArgDescriptor d)).
  { pose proof Hd as Hd'. unfold Store.deref in Hd'.
    unfold Store.deref, Store.assign.
    destruct (nth_error s arg_id_to_descr) as [d0 |] eqn:N; [| discriminate].
    rewrite (nth_error_list_update_same _ _ _ _ d0 N). reflexivity. }
  split; [exact E |]. split; [| reflexivity].
  rewrite E. intros H. inversion H as [H1].
  revert H1. apply set_changes_dict. exact Hget.
Qed.

Lemma ScalarCallable_with_descrs_mutates_argument_witness :
  exists new_self s',
    Store.ScalarCallable_with_descrs Store.sin_obj 0%nat Store.caller_store
      = Ok (new_self, s') /\
    Store.deref s' 0%nat
      = Ok [(Pos 0, ValueArgDescriptor); (Pos (-1), ValueArgDescriptor)] /\
    Store.deref s' 0%nat <> Store.deref Store.caller_store 0%nat /\
    Store.so_arg_id_to_descr new_self = Some 0%nat.
Proof.
  apply (ScalarCallable_with_descrs_mutates_argument Store.sin_obj 0%nat
           Store.caller_store [(Pos 0, ValueArgDescriptor)] eq_refl).
  simpl. discriminate.
Defined.

(** The sibling [CallableKernel.with_descrs] only reads the dictionary. *)
Lemma CallableKernel_with_descrs_keeps_store
  (self : Store.CallableKernelObj) (arg_id_to_descr : Store.ref)
  (s s' : Store.store) (new_self : Store.CallableKernelObj) :
  Store.CallableKernel_with_descrs self arg_id_to_descr s = Ok (new_self, s') ->
  s' = s.
Proof.
  unfold Store.CallableKernel_with_descrs. intros H.
  apply bind_Ok_inv in H. destruct H as (d & _ & H).
  destruct (get_kw_pos_association (Store.ko_subkernel self)) as [kw pk].
  apply bind_Ok_inv in H. destruct H as (na & _ & H).
  inversion H. reflexivity.
Qed.

(** Read through the store after the call, the callable object is the
    value computed by [ScalarCallable_with_descrs] on the dictionary's
    contents before the call. *)
Lemma Store_with_descrs_refines (self : Store.ScalarCallableObj)
  (r : Store.ref) (s s' : Store.store) (d : descr_map)
  (new_self : Store.ScalarCallableObj) :
  Store.deref s r = Ok d ->
  Store.ScalarCallable_with_descrs self r s = Ok (new_self, s') ->
  Store.read_scalar s' new_self =
  ScalarCallable_with_descrs
    {| sc_name := Store.so_name self;
       sc_arg_id_to_dtype := Store.so_arg_id_to_dtype self;
       sc_arg_id_to_descr := None;
       sc_name_in_target := Store.so_name_in_target self |} d.
Proof.
  intros Hd H. unfold Store.ScalarCallable_with_descrs in H. rewrite Hd in H.
  simpl in H. inversion H; subst. unfold Store.read_scalar. simpl.
  unfold Store.deref, Store.assign in *.
  destruct (nth_error s r) as [d0 |] eqn:N; [| discriminate].
  rewrite (nth_error_list_update_same _ _ _ _ d0 N). simpl.
  inversion Hd; subst. reflexivity.
Qed.

(** ** The renamer *)

(** *** Strings *)

Lemma append_nil_r (s : string) : String.append s EmptyString = s.
Proof. induction s as [| c s IH]; simpl; [reflexivity | rewrite IH; reflexivity]. Qed.

Lemma append_assoc (a b c : string) :
  String.append (String.append a b) c = String.append a (String.append b c).
Proof. induction a as [| x a IH]; simpl; [reflexivity | rewrite IH; reflexivity]. Qed.

Lemma length_append (a b : string) :
  String.length (String.append a b) = (String.length a + String.length b)%nat.
Proof. induction a as [| x a IH]; simpl; [reflexivity | rewrite IH; reflexivity]. Qed.

Lemma append_snoc_cons (a : string) (c : ascii) (b : string) :
  String.append (String.append a (String c EmptyString)) b
  = String.append a (String c b).
Proof. rewrite append_assoc. reflexivity. Qed.

Lemma no_space_append (a b : string) :
  no_space (String.append a b) = no_space a && no_space b.
Proof.
  induction a as [| x a IH]; simpl; [reflexivity |].
  rewrite IH, andb_assoc. reflexivity.
Qed.

(** *** Numerals *)

Lemma all_digits_string_of_uint (d : uint) :
  all_digits (NilEmpty.string_of_uint d) = true.
Proof. induction d; simpl; auto. Qed.

Lemma string_of_uint_nonempty (d : uint) :
  d <> Nil -> NilEmpty.string_of_uint d <> EmptyString.
Proof. destruct d; simpl; congruence. Qed.

Lemma to_uint_nonnil (n : N) : N.to_uint n <> Nil.
Proof.
  destruct n as [| p]; simpl; [discriminate |].
  apply DecimalPos.Unsigned.to_uint_nonnil.
Qed.

Lemma str_of_int_digits (n : N) :
  all_digits (str_of_int n) = true /\ str_of_int n <> EmptyString.
Proof.
  unfold str_of_int, NilZero.string_of_uint.
  assert (H := to_uint_nonnil n).
  destruct (N.to_uint n) eqn:E; try contradiction;
    (split; [apply all_digits_string_of_uint
            | apply string_of_uint_nonempty; discriminate]).
Qed.

(** [int(str(n)) == n] *)
Lemma int_of_digits_str_of_int (n : N) : int_of_digits (str_of_int n) = n.
Proof.
  unfold int_of_digits, str_of_int.
  rewrite NilZero.usu by apply to_uint_nonnil.
  apply DecimalN.Unsigned.of_to.
Qed.

(** *** The pattern *)

Lemma is_digit_not_underscore (c : ascii) :
  is_digit c = true -> Ascii.eqb c underscore = false.
Proof.
  intros H. destruct (Ascii.eqb c underscore) eqn:E; [| reflexivity].
  apply Ascii.eqb_eq in E. subst. discriminate H.
Qed.

Lemma is_digit_not_newline (c : ascii) :
  is_digit c = true -> Ascii.eqb c newline = false.
Proof.
  intros H. destruct (Ascii.eqb c newline) eqn:E; [| reflexivity].
  apply Ascii.eqb_eq in E. subst. discriminate H.
Qed.

(** A nonempty string of digits is matched whole by [(\d+?)$]. *)
Lemma match_num_digits (num : string) :
  all_digits num = true -> num <> EmptyString -> match_num num = Some num.
Proof.
  induction num as [| c num IH]; [congruence |].
  simpl. intros H _. apply andb_prop in H. destruct H as [Hc Hn].
  rewrite Hc. destruct num as [| c' num']; [reflexivity |].
  assert (R : match_num (String c' num') = Some (String c' num'))
    by (apply IH; [exact Hn | discriminate]).
  destruct num' as [| c'' num''].
  - simpl in Hn. apply andb_prop in Hn. destruct Hn as [Hc' _].
    rewrite (is_digit_not_newline c' Hc'). rewrite R. reflexivity.
  - rewrite R. reflexivity.
Qed.

(** What [(\d+?)$] matches is a nonempty string of digits. *)
Lemma match_num_sound (s num : string) :
  match_num s = Some num -> all_digits num = true /\ num <> EmptyString.
Proof.
  revert num. induction s as [| c s IH]; simpl; [discriminate |].
  intros num. destruct (is_digit c) eqn:Hc; [| discriminate].
  assert (G : option_map (String c) (match_num s) = Some num ->
              all_digits num = true /\ num <> EmptyString).
  { destruct (match_num s) as [n |] eqn:E; simpl; [| discriminate].
    intros H. inversion H; subst. destruct (IH n eq_refl) as [H1 _].
    simpl. rewrite Hc, H1. split; [reflexivity | discriminate]. }
  assert (B : Some (String c EmptyString) = Some num ->
              all_digits num = true /\ num <> EmptyString).
  { intros H. inversion H; subst. simpl. rewrite Hc.
    split; [reflexivity | discriminate]. }
  destruct s as [| c' [| c'' s'']]; auto.
  destruct (Ascii.eqb c' newline); auto.
Qed.

(** No match of [(\d+?)$] runs across an underscore. *)
Lemma match_num_underscore (x y : string) :
  match_num (String.append x (String underscore y)) = None.
Proof.
  induction x as [| c x IH]; [reflexivity |].
  cbn [String.append match_num].
  destruct (is_digit c) eqn:Hc; [| reflexivity].
  rewrite IH.
  destruct (String.append x (String underscore y)) as [| c' [| c'' s'']] eqn:E.
  - destruct x; discriminate E.
  - destruct x as [| a x'].
    + simpl in E. inversion E; subst. reflexivity.
    + simpl in E. inversion E. destruct x'; discriminate.
  - reflexivity.
Qed.


(** The lazy group stops at the underscore before the digits: a name
    [alpha_num] is matched with exactly these two groups. *)
Lemma match_alpha_complete (mid acc num : string) :
  no_space mid = true -> all_digits num = true -> num <> EmptyString ->
  (acc <> EmptyString \/ mid <> EmptyString) ->
  match_alpha acc (String.append mid (String underscore num))
  = Some (String.append acc mid, num).
Proof.
  revert acc. induction mid as [| c mid IH]; intros acc Hs Hd Hn Hne.
  - destruct Hne as [Hne | Hne]; [| congruence].
    cbn [String.append match_alpha]. rewrite append_nil_r.
    destruct acc as [| a acc']; [congruence |].
    rewrite Ascii.eqb_refl, (match_num_digits num Hd Hn). reflexivity.
  - cbn [String.append match_alpha]. simpl in Hs.
    apply andb_prop in Hs. destruct Hs as [Hc Hs].
    apply negb_true_iff in Hc. rewrite Hc.
    assert (Hhere : match acc with
                    | EmptyString => None
                    | String _ _ =>
                        if Ascii.eqb c underscore
                        then match_num (String.append mid (String underscore num))
                        else None
                    end = None).
    { destruct acc; [reflexivity |].
      destruct (Ascii.eqb c underscore); [apply match_num_underscore | reflexivity]. }
    rewrite Hhere. rewrite IH; auto.
    + rewrite append_snoc_cons. reflexivity.
    + left. destruct acc; discriminate.
Qed.

Lemma match_alpha_sound (rest acc alpha num : string) :
  match_alpha acc rest = Some (alpha, num) ->
  exists mid,
    alpha = String.append acc mid /\ no_space mid = true /\
    alpha <> EmptyString /\ all_digits num = true /\ num <> EmptyString.
Proof.
  revert acc. induction rest as [| c rest IH]; intros acc; [discriminate |].
  cbn [match_alpha].
  destruct (match acc with
            | EmptyString => None
            | String _ _ =>
                if Ascii.eqb c underscore then match_num rest else None
            end) as [n |] eqn:Hhere.
  - intros H. inversion H; subst. exists EmptyString.
    rewrite append_nil_r. destruct alpha as [| a alpha']; [discriminate |].
    destruct (Ascii.eqb c underscore); [| discriminate].
    destruct (match_num_sound _ _ Hhere) as [H1 H2].
    repeat split; auto. discriminate.
  - destruct (is_space c) eqn:Hc; [discriminate |].
    intros H. apply IH in H. destruct H as (mid & Ha & Hs & Hne & Hd & Hn).
    exists (String c mid). rewrite append_snoc_cons in Ha.
    repeat split; auto. simpl. rewrite Hc, Hs. reflexivity.
Qed.

Lemma func_name_match_indexed (alpha : string) (n : N) :
  alpha <> EmptyString -> no_space alpha = true ->
  func_name_match (indexed alpha n) = Some (alpha, str_of_int n).
Proof.
  intros Hne Hs. unfold func_name_match, indexed.
  destruct (str_of_int_digits n) as [Hd Hn].
  rewrite (match_alpha_complete alpha EmptyString (str_of_int n)); auto.
Qed.

Lemma func_name_match_sound (name alpha num : string) :
  func_name_match name = Some (alpha, num) ->
  alpha <> EmptyString /\ no_space alpha = true /\
  all_digits num = true /\ num <> EmptyString.
Proof.
  intros H. apply match_alpha_sound in H.
  destruct H as (mid & Ha & Hs & Hne & Hd & Hn). simpl in Ha. subst mid.
  auto.
Qed.

(** *** One step of the renamer *)

Lemma next_indexed_variable_matched (name alpha num : string) :
  func_name_match name = Some (alpha, num) ->
  next_indexed_variable (Variable_ name)
  = Ok (Variable_ (indexed alpha (int_of_digits num + 1))).
Proof. intros H. unfold next_indexed_variable. rewrite H. reflexivity. Qed.

Lemma last_char_None (s : string) : last_char s = None -> s = EmptyString.
Proof.
  induction s as [| c s IH]; [reflexivity |].
  simpl. destruct s; [discriminate |]. intros H. apply IH in H. discriminate.
Qed.

Lemma last_char_append (s : string) (c : ascii) :
  last_char s = Some c ->
  exists s', s = String.append s' (String c EmptyString).
Proof.
  induction s as [| x s IH]; [discriminate |].
  simpl. destruct s as [| y s'].
  - intros H. inversion H; subst. exists EmptyString. reflexivity.
  - intros H. apply IH in H. destruct H as [s0 E].
    exists (String x s0). simpl. rewrite <- E. reflexivity.
Qed.

Lemma next_indexed_variable_unmatched (name : string) :
  func_name_match name = None -> name <> EmptyString ->
  next_indexed_variable (Variable_ name) = Ok (Variable_ (String.append name "_0"))
  /\ last_char name <> Some underscore
  \/ next_indexed_variable (Variable_ name) = Ok (Variable_ (String.append name "0"))
  /\ last_char name = Some underscore.
Proof.
  intros H Hne. unfold next_indexed_variable. rewrite H.
  destruct (last_char name) as [c |] eqn:L.
  - destruct (Ascii.eqb c underscore) eqn:E.
    + apply Ascii.eqb_eq in E. subst. right. split; reflexivity.
    + left. split; [reflexivity |]. intros F. inversion F; subst.
      rewrite Ascii.eqb_refl in E. discriminate.
  - apply last_char_None in L. contradiction.
Qed.


(** *** The probing loop ends *)

Lemma rank_lt_irrefl (a : rank) : ~ rank_lt a a.
Proof. destruct a; simpl; lia. Qed.

Lemma rank_lt_trans (a b c : rank) : rank_lt a b -> rank_lt b c -> rank_lt a c.
Proof. destruct a, b, c; simpl; try tauto; lia. Qed.

(** Each step of the renamer moves strictly up in rank. *)
Lemma next_indexed_variable_rank (s : string) (v : function_id) :
  next_indexed_variable (Variable_ s) = Ok v ->
  exists s', v = Variable_ s' /\ rank_lt (rank_of s) (rank_of s').
Proof.
  destruct (func_name_match s) as [[alpha num] |] eqn:M.
  - rewrite (next_indexed_variable_matched s alpha num M).
    intros H. inversion H; subst. eexists. split; [reflexivity |].
    destruct (func_name_match_sound _ _ _ M) as (Hne & Hs & _).
    unfold rank_of. rewrite M, (func_name_match_indexed alpha _ Hne Hs).
    rewrite int_of_digits_str_of_int. simpl. lia.
  - destruct s as [| c s0] eqn:Es; [discriminate |]. rewrite <- Es in *.
    assert (Hne : s <> EmptyString) by (subst; discriminate).
    destruct (next_indexed_variable_unmatched s M Hne) as [[E _] | [E _]];
      rewrite E; intros H; inversion H; subst v;
      (eexists; split; [reflexivity |]);
      unfold rank_of at 1; rewrite M;
      match goal with |- rank_lt _ (rank_of ?t) =>
        unfold rank_of; destruct (func_name_match t) as [[a n] |];
        simpl; [exact I | rewrite length_append; simpl; lia]
      end.
Qed.

Lemma function_id_eqb_eq (a b : function_id) : function_id_eqb a b = true <-> a = b.
Proof.
  destruct a as [x | [[x]]], b as [y | [[y]]]; simpl;
    try (split; [discriminate | congruence]);
    rewrite String.eqb_eq; split; congruence.
Qed.

Lemma name_mem_In (x : function_id) (names : list function_id) :
  name_mem x names = true <-> In x names.
Proof.
  unfold name_mem. rewrite existsb_exists. split.
  - intros (y & Hy & E). apply function_id_eqb_eq in E. subst. exact Hy.
  - intros H. exists x. split; [exact H | apply function_id_eqb_eq; reflexivity].
Qed.

Lemma probe_fuel (fuel : nat) (names : list function_id) (v : function_id)
  (seen : list string) :
  NoDup seen ->
  (forall x, In x seen -> In (Variable_ x) names) ->
  (forall s, v = Variable_ s ->
             forall x, In x seen -> rank_lt (rank_of x) (rank_of s)) ->
  (List.length names < List.length seen + fuel)%nat ->
  probe fuel names v <> None.
Proof.
  revert v seen. induction fuel as [| fuel IH]; intros v seen ND Hin Hrk Hlen.
  - exfalso.
    assert (L : (List.length (map Variable_ seen) <= List.length names)%nat).
    { apply NoDup_incl_length.
      - apply Injective_map_NoDup; [| exact ND].
        intros a b E. inversion E. reflexivity.
      - intros y Hy. apply in_map_iff in Hy. destruct Hy as (x & <- & Hx). auto. }
    rewrite length_map in L. lia.
  - cbn [probe].
    destruct (name_mem v names && negb (isinstance_ArgExtOp v)) eqn:C;
      [| discriminate].
    apply andb_prop in C. destruct C as [Cm Ca].
    destruct v as [s | op]; [| discriminate Ca].
    destruct (next_indexed_variable (Variable_ s)) as [v' | e] eqn:N;
      [| discriminate].
    destruct (next_indexed_variable_rank s v' N) as (s' & -> & Hlt).
    apply (IH (Variable_ s') (s :: seen)).
    + constructor; [| exact ND]. intros Hs.
      apply (rank_lt_irrefl (rank_of s)). apply (Hrk s eq_refl s Hs).
    + intros x [<- | Hx]; [apply name_mem_In; exact Cm | auto].
    + intros t Et x Hx. inversion Et; subst t. destruct Hx as [<- | Hx].
      * exact Hlt.
      * apply (rank_lt_trans _ (rank_of s)); [apply (Hrk s eq_refl x Hx) | exact Hlt].
    + simpl. lia.
Qed.

(** The loop finishes within one more test than there are names. *)
Lemma probe_terminates (names : list function_id) (v : function_id) :
  probe (S (List.length names)) names v <> None.
Proof.
  apply (probe_fuel _ names v []).
  - constructor.
  - intros x [].
  - intros s _ x [].
  - simpl. lia.
Qed.

(** A name the loop returns is unused, unless it is an [ArgExtOp]. *)
Lemma probe_result (fuel : nat) (names : list function_id) (v u : function_id) :
  probe fuel names v = Some (Ok u) ->
  name_mem u names = false \/ isinstance_ArgExtOp u = true.
Proof.
  revert v. induction fuel as [| fuel IH]; intros v; [discriminate |].
  cbn [probe].
  destruct (name_mem v names && negb (isinstance_ArgExtOp v)) eqn:C.
  - destruct (next_indexed_variable v) as [v' | e]; [apply IH | discriminate].
  - intros H. inversion H; subst.
    apply andb_false_iff in C. destruct C as [C | C]; [left; exact C |].
    right. apply negb_false_iff in C. exact C.
Qed.

(** The loop keeps a [Variable] a [Variable]. *)
Lemma probe_Variable (fuel : nat) (names : list function_id) (s : string)
  (u : function_id) :
  probe fuel names (Variable_ s) = Some (Ok u) -> isinstance_ArgExtOp u = false.
Proof.
  revert s. induction fuel as [| fuel IH]; intros s; [discriminate |].
  cbn [probe].
  destruct (name_mem (Variable_ s) names && negb (isinstance_ArgExtOp (Variable_ s))).
  - destruct (next_indexed_variable (Variable_ s)) as [v' | e] eqn:N;
      [| discriminate].
    destruct (next_indexed_variable_rank s v' N) as (s' & -> & _). apply IH.
  - intros H. inversion H; subst. reflexivity.
Qed.


(** *** The sequence of candidates *)

Lemma next_indexed_variable_indexed (alpha : string) (n : N) :
  alpha <> EmptyString -> no_space alpha = true ->
  next_indexed_variable (Variable_ (indexed alpha n))
  = Ok (Variable_ (indexed alpha (n + 1))).
Proof.
  intros Hne Hs.
  rewrite (next_indexed_variable_matched _ _ _ (func_name_match_indexed alpha n Hne Hs)).
  rewrite int_of_digits_str_of_int. reflexivity.
Qed.

(** Once a candidate is [alpha_b], the following ones count up from [b]. *)
Lemma candidate_from_indexed (function : function_id) (alpha : string) (b : N) :
  alpha <> EmptyString -> no_space alpha = true ->
  next_indexed_variable function = Ok (Variable_ (indexed alpha b)) ->
  forall k : nat,
    candidate (S k) function = Ok (Variable_ (indexed alpha (b + N.of_nat k))).
Proof.
  intros Hne Hs H1 k. induction k as [| k IH].
  - cbn [candidate bind]. rewrite H1, N.add_0_r. reflexivity.
  - change (candidate (S (S k)) function)
      with (bind (candidate (S k) function) next_indexed_variable).
    rewrite IH. cbn [bind].
    rewrite (next_indexed_variable_indexed alpha _ Hne Hs).
    do 3 f_equal. lia.
Qed.

Lemma next_indexed_variable_nonempty (s : string) :
  s <> EmptyString ->
  exists s', next_indexed_variable (Variable_ s) = Ok (Variable_ s')
             /\ s' <> EmptyString.
Proof.
  intros Hne. destruct (func_name_match s) as [[alpha num] |] eqn:M.
  - rewrite (next_indexed_variable_matched s alpha num M). eexists.
    split; [reflexivity |].
    destruct (func_name_match_sound _ _ _ M) as (Ha & _).
    unfold indexed. destruct alpha; [congruence | discriminate].
  - destruct (next_indexed_variable_unmatched s M Hne) as [[E _] | [E _]];
      rewrite E; eexists; (split; [reflexivity |]);
      destruct s; [congruence | discriminate | congruence | discriminate].
Qed.

(** From a non-empty name, the loop never raises. *)
Lemma probe_nonempty (fuel : nat) (names : list function_id) (s : string) :
  s <> EmptyString ->
  probe fuel names (Variable_ s) = None \/
  exists u, probe fuel names (Variable_ s) = Some (Ok (Variable_ u))
            /\ u <> EmptyString.
Proof.
  revert s. induction fuel as [| fuel IH]; intros s Hne; [left; reflexivity |].
  cbn [probe].
  destruct (name_mem (Variable_ s) names && negb (isinstance_ArgExtOp (Variable_ s))).
  - destruct (next_indexed_variable_nonempty s Hne) as (s' & -> & Hne').
    apply IH. exact Hne'.
  - right. exists s. auto.
Qed.

(** *** What the probing returns *)

Lemma unique_name_ends (names : list function_id) (function : function_id) :
  unique_name names function <> None.
Proof.
  unfold unique_name, bind_partial.
  destruct (next_indexed_variable function) as [v | e]; [| discriminate].
  apply probe_terminates.
Qed.

Lemma unique_name_fresh (names : list function_id) (function u : function_id) :
  unique_name names function = Some (Ok u) ->
  name_mem u names = false \/ isinstance_ArgExtOp u = true.
Proof.
  unfold unique_name, bind_partial.
  destruct (next_indexed_variable function) as [v | e]; [| discriminate].
  apply probe_result.
Qed.

Lemma unique_name_Variable (names : list function_id) (name : string) :
  name <> EmptyString ->
  exists u, unique_name names (Variable_ name) = Some (Ok (Variable_ u)) /\
            name_mem (Variable_ u) names = false.
Proof.
  intros Hne. unfold unique_name, bind_partial.
  destruct (next_indexed_variable_nonempty name Hne) as (s' & -> & Hne').
  destruct (probe_nonempty (S (List.length names)) names s' Hne')
    as [N | (u & P & _)].
  - exfalso. revert N. apply probe_terminates.
  - exists u. split; [exact P |].
    destruct (probe_result _ _ _ _ P) as [H | H]; [exact H | discriminate H].
Qed.

(** C5 (as stated, refuted): starting from the name [_], the first candidate
    is [_0] and the second is [_0_0]: the first candidate, which ends in
    [_0], is not followed by [_1], and the numeric suffix of the second (0)
    is not above that of the first (0). *)
Lemma renamer_underscore_not_increasing :
  candidate 1 (Variable_ "_") = Ok (Variable_ "_0") /\
  candidate 2 (Variable_ "_") = Ok (Variable_ "_0_0") /\
  numeric_suffix "_0" = Some 0%N /\
  numeric_suffix "_0_0" = Some 0%N.
Proof. repeat split; reflexivity. Qed.

(** C5 (amended): a name the pattern of the renamer matches as
    [alpha_num] is followed by [alpha_(num+1)]; any other non-empty name
    first gets [_0] appended, or [0] if it ends in an underscore.  For a
    non-empty starting name without whitespace other than the single
    underscore, all candidates are [alpha_b], [alpha_(b+1)], ... for one
    prefix [alpha], so their numbers increase by one at each step.  The
    probing always ends; from a non-empty name it returns a name that is
    not in the name set, and an [ArgExtOp] is returned as it is, without
    probing. *)
Theorem renamer_candidates :
  (forall name alpha num,
      func_name_match name = Some (alpha, num) ->
      next_indexed_variable (Variable_ name)
      = Ok (Variable_ (indexed alpha (int_of_digits num + 1)))) /\
  (forall name,
      func_name_match name = None -> name <> EmptyString ->
      next_indexed_variable (Variable_ name)
      = Ok (Variable_
              (String.append name
                 (if option_eqb Ascii.eqb (last_char name) (Some underscore)
                  then "0" else "_0")))) /\
  (forall name,
      name <> EmptyString -> no_space name = true -> name <> "_" ->
      exists alpha b,
        alpha <> EmptyString /\
        forall k : nat,
          candidate (S k) (Variable_ name)
          = Ok (Variable_ (indexed alpha (b + N.of_nat k))) /\
          func_name_match (indexed alpha (b + N.of_nat k))
          = Some (alpha, str_of_int (b + N.of_nat k))) /\
  (forall names function,
      unique_name names function <> None /\
      forall u, unique_name names function = Some (Ok u) ->
                name_mem u names = false \/ isinstance_ArgExtOp u = true) /\
  (forall names name,
      name <> EmptyString ->
      exists u, unique_name names (Variable_ name) = Some (Ok (Variable_ u)) /\
                name_mem (Variable_ u) names = false) /\
  (forall names op,
      unique_name names (ArgExtOp op) = Some (Ok (ArgExtOp op))).
Proof.
  split; [exact next_indexed_variable_matched |].
  split.
  { intros name M Hne.
    destruct (next_indexed_variable_unmatched name M Hne) as [[E L] | [E L]];
      rewrite E.
    - destruct (last_char name) as [c |]; simpl; [| reflexivity].
      destruct (Ascii.eqb c underscore) eqn:Ec; [| reflexivity].
      apply Ascii.eqb_eq in Ec. subst. congruence.
    - rewrite L. simpl. reflexivity. }
  split.
  { intros name Hne Hs Hu.
    assert (G : forall alpha b,
               alpha <> EmptyString -> no_space alpha = true ->
               next_indexed_variable (Variable_ name)
               = Ok (Variable_ (indexed alpha b)) ->
               exists alpha b,
                 alpha <> EmptyString /\
                 forall k : nat,
                   candidate (S k) (Variable_ name)
                   = Ok (Variable_ (indexed alpha (b + N.of_nat k))) /\
                   func_name_match (indexed alpha (b + N.of_nat k))
                   = Some (alpha, str_of_int (b + N.of_nat k))).
    { intros alpha b Ha Hsa H1. exists alpha, b. split; [exact Ha |].
      intros k. split.
      - apply candidate_from_indexed; assumption.
      - apply func_name_match_indexed; assumption. }
    destruct (func_name_match name) as [[alpha num] |] eqn:M.
    - destruct (func_name_match_sound _ _ _ M) as (Ha & Hsa & _).
      apply (G alpha (int_of_digits num + 1)%N Ha Hsa).
      apply next_indexed_variable_matched. exact M.
    - destruct (next_indexed_variable_unmatched name M Hne) as [[E L] | [E L]].
      + apply (G name 0%N Hne Hs). rewrite E. reflexivity.
      + destruct (last_char_append name underscore L) as [s' Es'].
        assert (Hs' : s' <> EmptyString).
        { intros ->. simpl in Es'. apply Hu. exact Es'. }
        apply (G s' 0%N Hs').
        * rewrite Es', no_space_append in Hs. apply andb_prop in Hs. tauto.
        * rewrite E, Es', append_assoc. reflexivity. }
  split.
  { intros names function. split.
    - apply unique_name_ends.
    - intros u. apply unique_name_fresh. }
  split; [exact unique_name_Variable |].
  intros names op. unfold unique_name, bind_partial.
  cbn [next_indexed_variable probe isinstance_ArgExtOp negb].
  rewrite andb_false_r. reflexivity.
Qed.

Lemma renamer_candidates_witness :
  exists alpha b,
    alpha <> EmptyString /\
    forall k : nat,
      candidate (S k) (Variable_ "sincos")
      = Ok (Variable_ (indexed alpha (b + N.of_nat k))) /\
      func_name_match (indexed alpha (b + N.of_nat k))
      = Some (alpha, str_of_int (b + N.of_nat k)).
Proof.
  apply (proj1 (proj2 (proj2 renamer_candidates)) "sincos").
  - discriminate.
  - reflexivity.
  - discriminate.
Defined.

(** ** Equality tests *)

Section EqualityTests.

Lemma equivalence_of_eq (A : Type) (eqb : A -> A -> bool) :
  (forall a b, eqb a b = true <-> a = b) -> is_equivalence eqb.
Proof.
  intros H. repeat split.
  - intros a. apply H. reflexivity.
  - intros a b E. apply H. apply H in E. congruence.
  - intros a b c E1 E2. apply H. apply H in E1. apply H in E2. congruence.
Qed.

Lemma equivalence_option (A : Type) (eqb : A -> A -> bool) :
  is_equivalence eqb -> is_equivalence (option_eqb eqb).
Proof.
  intros (R & S & T). repeat split.
  - intros [a |]; simpl; auto.
  - intros [a |] [b |]; simpl; auto.
  - intros [a |] [b |] [c |]; simpl; try discriminate; eauto.
Qed.

Lemma equivalence_and (A : Type) (e1 e2 : A -> A -> bool) :
  is_equivalence e1 -> is_equivalence e2 ->
  is_equivalence (fun a b => e1 a b && e2 a b).
Proof.
  intros (R1 & S1 & T1) (R2 & S2 & T2). repeat split.
  - intros a. rewrite R1, R2. reflexivity.
  - intros a b E. apply andb_prop in E. destruct E as [E1 E2].
    rewrite (S1 _ _ E1), (S2 _ _ E2). reflexivity.
  - intros a b c E F. apply andb_prop in E. apply andb_prop in F.
    destruct E as [E1 E2], F as [F1 F2].
    rewrite (T1 _ _ _ E1 F1), (T2 _ _ _ E2 F2). reflexivity.
Qed.

Lemma equivalence_on (A B : Type) (f : A -> B) (eqb : B -> B -> bool) :
  is_equivalence eqb -> is_equivalence (fun a b => eqb (f a) (f b)).
Proof.
  intros (R & S & T). repeat split; intros; eauto.
Qed.

Lemma list_eqb_eq (A : Type) (eqb : A -> A -> bool) (l m : list A) :
  (forall a b, In a l -> (eqb a b = true <-> a = b)) ->
  (list_eqb eqb l m = true <-> l = m).
Proof.
  revert m. induction l as [| x l IH]; intros [| y m] H; simpl;
    try (split; [discriminate | congruence]); [tauto |].
  rewrite andb_true_iff, (H x y (or_introl eq_refl)), IH.
  - split; [intros [-> ->]; reflexivity | intros E; inversion E; auto].
  - intros a b Ha. apply H. right. exact Ha.
Qed.

End EqualityTests.

Lemma pyobj_eqb_eq : forall a b : pyobj, pyobj_eqb a b = true <-> a = b.
Proof.
  fix IH 1. intros a b.
  destruct a as [| x | x | x | l | l | s x | o x | c l];
    destruct b as [| y | y | y | m | m | t y | p y | d m]; simpl;
    try (split; [discriminate | congruence]).
  - tauto.
  - rewrite Z.eqb_eq. split; congruence.
  - rewrite String.eqb_eq. split; congruence.
  - rewrite String.eqb_eq. split; congruence.
  - assert (E : list_eqb pyobj_eqb l m = true <-> l = m).
    { revert m. induction l as [| x l IHl]; intros [| y m]; simpl;
        try (split; [discriminate | congruence]); [tauto |].
      rewrite andb_true_iff, (IH x y), IHl.
      split; [intros [-> ->]; reflexivity | intros E; inversion E; auto]. }
    rewrite E. split; congruence.
  - assert (E : list_eqb pyobj_eqb l m = true <-> l = m).
    { revert m. induction l as [| x l IHl]; intros [| y m]; simpl;
        try (split; [discriminate | congruence]); [tauto |].
      rewrite andb_true_iff, (IH x y), IHl.
      split; [intros [-> ->]; reflexivity | intros E; inversion E; auto]. }
    rewrite E. split; congruence.
  - rewrite andb_true_iff, (IH s t), Z.eqb_eq. split; [intros [-> ->] | intros E; inversion E]; auto.
  - rewrite andb_true_iff, String.eqb_eq, Z.eqb_eq.
    split; [intros [-> ->] | intros E; inversion E]; auto.
  - assert (E : list_eqb
                  (fun p q => String.eqb (fst p) (fst q) && pyobj_eqb (snd p) (snd q))
                  l m = true <-> l = m).
    { revert m. induction l as [| [k x] l IHl]; intros [| [k' y] m]; simpl;
        try (split; [discriminate | congruence]); [tauto |].
      rewrite !andb_true_iff, String.eqb_eq, (IH x y), IHl.
      split; [intros [[-> ->] ->]; reflexivity | intros E; inversion E; auto]. }
    rewrite andb_true_iff, String.eqb_eq, E.
    split; [intros [-> ->] | intros F; inversion F]; auto.
Qed.


Lemma expr_eqb_eq : forall a b : expr, expr_eqb a b = true <-> a = b.
Proof.
  fix IH 1. intros a b.
  destruct a as [f | f | x | l | l | a1 i1 | f1 p1];
    destruct b as [g | g | y | m | m | a2 i2 | f2 p2]; simpl;
    try (split; [discriminate | congruence]).
  - rewrite function_id_eqb_eq. split; congruence.
  - rewrite function_id_eqb_eq. split; congruence.
  - rewrite Z.eqb_eq. split; congruence.
  - assert (E : list_eqb expr_eqb l m = true <-> l = m).
    { revert m. induction l as [| x l IHl]; intros [| y m]; simpl;
        try (split; [discriminate | congruence]); [tauto |].
      rewrite andb_true_iff, (IH x y), IHl.
      split; [intros [-> ->]; reflexivity | intros E; inversion E; auto]. }
    rewrite E. split; congruence.
  - assert (E : list_eqb expr_eqb l m = true <-> l = m).
    { revert m. induction l as [| x l IHl]; intros [| y m]; simpl;
        try (split; [discriminate | congruence]); [tauto |].
      rewrite andb_true_iff, (IH x y), IHl.
      split; [intros [-> ->]; reflexivity | intros E; inversion E; auto]. }
    rewrite E. split; congruence.
  - rewrite andb_true_iff, (IH a1 a2), (IH i1 i2).
    split; [intros [-> ->] | intros E; inversion E]; auto.
  - assert (E : list_eqb expr_eqb p1 p2 = true <-> p1 = p2).
    { revert p2. induction p1 as [| x l IHl]; intros [| y m]; simpl;
        try (split; [discriminate | congruence]); [tauto |].
      rewrite andb_true_iff, (IH x y), IHl.
      split; [intros [-> ->]; reflexivity | intros E; inversion E; auto]. }
    rewrite andb_true_iff, (IH f1 f2), E.
    split; [intros [-> ->] | intros F; inversion F]; auto.
Qed.

(** Equal dictionaries are those that answer every lookup alike. *)
Lemma dict_eqb_lookup (K V : Type) (keqb : K -> K -> bool) (veqb : V -> V -> bool)
  (d1 d2 : Dict.t K V) :
  (forall a b, keqb a b = true <-> a = b) ->
  (dict_eqb keqb veqb d1 d2 = true <->
   forall k, option_eqb veqb (Dict.get keqb k d1) (Dict.get keqb k d2) = true).
Proof.
  intros Hk. unfold dict_eqb. rewrite andb_true_iff, !forallb_forall. split.
  - intros [H1 H2] k.
    destruct (Dict.get keqb k d1) as [v1 |] eqn:G1.
    + rewrite <- G1. apply H1.
      apply get_Some_In in G1; [| exact Hk].
      change k with (fst (k, v1)). apply in_map. exact G1.
    + destruct (Dict.get keqb k d2) as [v2 |] eqn:G2; [| reflexivity].
      rewrite <- G1, <- G2. apply H2.
      apply get_Some_In in G2; [| exact Hk].
      change k with (fst (k, v2)). apply in_map. exact G2.
  - intros H. split; intros k _; apply H.
Qed.

Lemma equivalence_dict (K V : Type) (keqb : K -> K -> bool) (veqb : V -> V -> bool) :
  (forall a b, keqb a b = true <-> a = b) -> is_equivalence veqb ->
  is_equivalence (dict_eqb keqb veqb).
Proof.
  intros Hk Hv. destruct (equivalence_option _ veqb Hv) as (R & S & T).
  repeat split.
  - intros d. apply (dict_eqb_lookup _ _ _ _ _ _ Hk). intros k. apply R.
  - intros d1 d2 E. apply (dict_eqb_lookup _ _ _ _ _ _ Hk).
    intros k. apply S. revert k. apply (dict_eqb_lookup _ _ _ _ _ _ Hk). exact E.
  - intros d1 d2 d3 E F. apply (dict_eqb_lookup _ _ _ _ _ _ Hk). intros k.
    apply (T _ (Dict.get keqb k d2)).
    + revert k. apply (dict_eqb_lookup _ _ _ _ _ _ Hk). exact E.
    + revert k. apply (dict_eqb_lookup _ _ _ _ _ _ Hk). exact F.
Qed.

Lemma equivalence_dtype_map : is_equivalence (option_eqb dtype_map_eqb).
Proof.
  apply equivalence_option. apply equivalence_dict.
  - exact arg_id_eqb_eq.
  - apply equivalence_of_eq. exact dtype_value_eqb_eq.
Qed.

Lemma equivalence_descr_map : is_equivalence (option_eqb descr_map_eqb).
Proof.
  apply equivalence_option. apply equivalence_dict.
  - exact arg_id_eqb_eq.
  - apply equivalence_of_eq. exact pyobj_eqb_eq.
Qed.

Lemma equivalence_option_string : is_equivalence (option_eqb String.eqb).
Proof. apply equivalence_option, equivalence_of_eq. exact String.eqb_eq. Qed.

Lemma callable_name_eqb_eq (a b : callable_name) :
  callable_name_eqb a b = true <-> a = b.
Proof.
  destruct a as [x | [x]], b as [y | [y]]; simpl;
    try (split; [discriminate | congruence]);
    rewrite String.eqb_eq; split; congruence.
Qed.

Lemma KernelArgument_eqb_eq (a b : KernelArgument) :
  KernelArgument_eqb a b = true <-> a = b.
Proof.
  destruct a as [n1 t1 s1 d1], b as [n2 t2 s2 d2]. unfold KernelArgument_eqb. simpl.
  rewrite !andb_true_iff, String.eqb_eq, dtype_value_eqb_eq, !pyobj_eqb_eq.
  split; [intros [[[-> ->] ->] ->]; reflexivity | intros E; inversion E; auto].
Qed.

Lemma LoopKernel_eqb_eq (a b : LoopKernel) : LoopKernel_eqb a b = true <-> a = b.
Proof.
  destruct a as [n1 a1 w1 i1], b as [n2 a2 w2 i2]. unfold LoopKernel_eqb. simpl.
  rewrite !andb_true_iff, String.eqb_eq, LoopyType_eqb_eq.
  rewrite (list_eqb_eq _ KernelArgument_eqb a1 a2)
    by (intros; apply KernelArgument_eqb_eq).
  rewrite (list_eqb_eq _ String.eqb w1 w2) by (intros; apply String.eqb_eq).
  split; [intros [[[-> ->] ->] ->]; reflexivity | intros E; inversion E; auto].
Qed.

Lemma equivalence_ScalarCallable : is_equivalence ScalarCallable_eqb.
Proof.
  unfold ScalarCallable_eqb.
  apply equivalence_and; [apply equivalence_and; [apply equivalence_and |] |].
  - apply (equivalence_on _ _ sc_name), equivalence_of_eq. exact callable_name_eqb_eq.
  - apply (equivalence_on _ _ sc_arg_id_to_dtype), equivalence_dtype_map.
  - apply (equivalence_on _ _ sc_arg_id_to_descr), equivalence_descr_map.
  - apply (equivalence_on _ _ sc_name_in_target), equivalence_option_string.
Qed.

Lemma equivalence_CallableKernel : is_equivalence CallableKernel_eqb.
Proof.
  unfold CallableKernel_eqb.
  apply equivalence_and; [apply equivalence_and; [apply equivalence_and |] |].
  - apply (equivalence_on _ _ subkernel), equivalence_of_eq. exact LoopKernel_eqb_eq.
  - apply (equivalence_on _ _ ck_arg_id_to_dtype), equivalence_dtype_map.
  - apply (equivalence_on _ _ ck_arg_id_to_descr), equivalence_descr_map.
  - apply (equivalence_on _ _ ck_name_in_target), equivalence_option_string.
Qed.

Lemma equivalence_ManglerCallable : is_equivalence ManglerCallable_eqb.
Proof.
  unfold ManglerCallable_eqb.
  apply equivalence_and;
    [apply equivalence_and; [apply equivalence_and; [apply equivalence_and |] |] |].
  - apply (equivalence_on _ _ mc_name), equivalence_of_eq. exact String.eqb_eq.
  - apply (equivalence_on _ _ function_mangler), equivalence_of_eq. exact Nat.eqb_eq.
  - apply (equivalence_on _ _ mc_arg_id_to_dtype), equivalence_dtype_map.
  - apply (equivalence_on _ _ mc_arg_id_to_descr), equivalence_descr_map.
  - apply (equivalence_on _ _ mc_name_in_target), equivalence_option_string.
Qed.

(** Structural equality of callables is an equivalence relation. *)
Lemma equivalence_InKernelCallable : is_equivalence InKernelCallable_eqb.
Proof.
  destruct equivalence_ScalarCallable as (R1 & S1 & T1).
  destruct equivalence_CallableKernel as (R2 & S2 & T2).
  destruct equivalence_ManglerCallable as (R3 & S3 & T3).
  repeat split.
  - intros [c | c | c]; simpl; auto.
  - intros [a | a | a] [b | b | b]; simpl; auto.
  - intros [a | a | a] [b | b | b] [c | c | c]; simpl; try discriminate; eauto.
Qed.


(** ** Dictionaries keyed up to an equivalence *)

Section DictEquiv.
Variables K V : Type.
Variable eqb : K -> K -> bool.
Hypothesis eqb_equiv : is_equivalence eqb.

Lemma eqb_false_trans (a b c : K) :
  eqb a b = false -> eqb b c = true -> eqb a c = false.
Proof.
  destruct eqb_equiv as (R & S & T). intros H1 H2.
  destruct (eqb a c) eqn:E; [| reflexivity].
  rewrite (T a c b E (S _ _ H2)) in H1. discriminate.
Qed.

Lemma eqb_congr (a b c : K) : eqb a b = true -> eqb a c = eqb b c.
Proof.
  destruct eqb_equiv as (R & S & T). intros H.
  destruct (eqb b c) eqn:E.
  - apply (T a b c H E).
  - destruct (eqb a c) eqn:F; [| reflexivity].
    rewrite (T b a c (S _ _ H) F) in E. discriminate.
Qed.

Lemma get_congr (a b : K) (d : Dict.t K V) :
  eqb a b = true -> Dict.get eqb a d = Dict.get eqb b d.
Proof.
  intros H. induction d as [| [k v] d IH]; simpl; [reflexivity |].
  rewrite (eqb_congr a b k H), IH. reflexivity.
Qed.

Lemma get_set_same_e (k : K) (v : V) (d : Dict.t K V) :
  Dict.get eqb k (Dict.set eqb k v d) = Some v.
Proof.
  destruct eqb_equiv as (R & _).
  induction d as [| [k' v'] d IH]; simpl.
  - rewrite R. reflexivity.
  - destruct (eqb k k') eqn:E; simpl; rewrite E; auto.
Qed.

Lemma get_set_other_e (k k0 : K) (v : V) (d : Dict.t K V) :
  eqb k0 k = false -> Dict.get eqb k0 (Dict.set eqb k v d) = Dict.get eqb k0 d.
Proof.
  intros N. induction d as [| [k' v'] d IH]; simpl.
  - rewrite N. reflexivity.
  - destruct (eqb k k') eqn:E; simpl.
    + rewrite (eqb_false_trans k0 k k' N E). reflexivity.
    + destruct (eqb k0 k'); auto.
Qed.

Lemma get_set_e (k k0 : K) (v : V) (d : Dict.t K V) :
  Dict.get eqb k0 (Dict.set eqb k v d)
  = if eqb k0 k then Some v else Dict.get eqb k0 d.
Proof.
  destruct (eqb k0 k) eqn:E.
  - rewrite (get_congr k0 k _ E). apply get_set_same_e.
  - apply get_set_other_e. exact E.
Qed.

Lemma keys_set_incl (k x : K) (v : V) (d : Dict.t K V) :
  In x (Dict.keys d) -> In x (Dict.keys (Dict.set eqb k v d)).
Proof.
  rewrite keys_set. destruct (Dict.mem eqb k d); [auto |].
  intros H. apply in_or_app. left. exact H.
Qed.

Lemma keys_set_In (k : K) (v : V) (d : Dict.t K V) :
  Dict.mem eqb k d = false -> In k (Dict.keys (Dict.set eqb k v d)).
Proof.
  intros H. rewrite keys_set, H. apply in_or_app. right. left. reflexivity.
Qed.

End DictEquiv.

Lemma equivalence_expr : is_equivalence expr_eqb.
Proof. apply equivalence_of_eq. exact expr_eqb_eq. Qed.

Lemma equivalence_function_id : is_equivalence function_id_eqb.
Proof. apply equivalence_of_eq. exact function_id_eqb_eq. Qed.



(** ** The specialization registry *)

Section RegistryFacts.
Variable ArgExtOp_name : ArgExtOp_ -> result string.

(** What one round of the loop does to the three dictionaries. *)
Lemma register_call_inv (st st' : registry) (call : expr) (c : InKernelCallable) :
  register_call ArgExtOp_name st (call, c) = Some (Ok st') ->
  exists c' new_name,
    Dict.get InKernelCallable_eqb c' (scoped_functions_to_names st') = Some new_name /\
    pymbolic_calls_to_new_names st' = Dict.set expr_eqb call new_name (pymbolic_calls_to_new_names st) /\
    (Dict.mem InKernelCallable_eqb c (scoped_functions_to_names st) = true /\ c' = c /\
     scoped_functions_to_names st' = scoped_functions_to_names st /\ scoped_names_to_functions st' = scoped_names_to_functions st
     \/
     Dict.mem InKernelCallable_eqb c (scoped_functions_to_names st) = false /\
     exists fn,
       callee call = Ok fn /\
       unique_name (Dict.keys (scoped_names_to_functions st)) fn = Some (Ok new_name) /\
       named_callable ArgExtOp_name c new_name = Ok c' /\
       scoped_names_to_functions st' = Dict.set function_id_eqb new_name c' (scoped_names_to_functions st) /\
       scoped_functions_to_names st' = Dict.set InKernelCallable_eqb c' new_name (scoped_functions_to_names st)).
Proof.
  unfold register_call.
  destruct (Dict.mem InKernelCallable_eqb c (scoped_functions_to_names st)) eqn:M; cbn [negb].
  - cbn [bind_partial]. unfold Dict.getitem.
    destruct (Dict.get InKernelCallable_eqb c (scoped_functions_to_names st)) as [n |] eqn:G; cbn [bind_partial];
      [| discriminate].
    intros H. inversion H; subst st'. cbn.
    exists c, n. split; [exact G |]. split; [reflexivity |]. left. auto.
  - destruct (callee call) as [fn | e] eqn:C; cbn [bind_partial]; [| discriminate].
    destruct (unique_name (Dict.keys (scoped_names_to_functions st)) fn) as [[u | e] |] eqn:U;
      cbn [bind_partial]; try discriminate.
    destruct (named_callable ArgExtOp_name c u) as [c' | e] eqn:N;
      cbn [bind_partial]; [| discriminate].
    cbn [scoped_functions_to_names scoped_names_to_functions pymbolic_calls_to_new_names]. unfold Dict.getitem.
    rewrite (get_set_same_e _ _ _ equivalence_InKernelCallable).
    cbn [bind_partial]. intros H. inversion H; subst st'. cbn.
    exists c', u. split.
    + apply (get_set_same_e _ _ _ equivalence_InKernelCallable).
    + split; [reflexivity |]. right. split; [reflexivity |].
      exists fn. auto.
Qed.

Lemma named_callable_not_Kernel (c c' : InKernelCallable) (u : function_id) :
  isinstance_CallableKernel c = false ->
  named_callable ArgExtOp_name c u = Ok c' -> c' = c.
Proof.
  destruct c; simpl; try discriminate; intros _ H; inversion H; reflexivity.
Qed.

Lemma named_callable_Kernel (c c' : InKernelCallable) (u : function_id) :
  named_callable ArgExtOp_name c u = Ok c' ->
  isinstance_CallableKernel c' = isinstance_CallableKernel c.
Proof.
  destruct c as [x | x | x]; simpl.
  - intros H; inversion H; reflexivity.
  - destruct (function_id_name ArgExtOp_name u); simpl; [| discriminate].
    intros H; inversion H; reflexivity.
  - intros H; inversion H; reflexivity.
Qed.

Lemma mem_get (K V : Type) (eqb : K -> K -> bool) (k : K) (d : Dict.t K V) :
  Dict.mem eqb k d = true <-> exists v, Dict.get eqb k d = Some v.
Proof.
  unfold Dict.mem. destruct (Dict.get eqb k d); split; eauto.
  - discriminate.
  - intros [v H]. discriminate.
Qed.

Lemma eqb_class (a b : InKernelCallable) :
  InKernelCallable_eqb a b = true -> isinstance_CallableKernel a = isinstance_CallableKernel b.
Proof. destruct a, b; simpl; congruence. Qed.

(** One round keeps the names of the callables that are not kernels. *)
Lemma register_call_keeps (st st' : registry) (call : expr) (c : InKernelCallable) :
  register_call ArgExtOp_name st (call, c) = Some (Ok st') ->
  (forall k n, isinstance_CallableKernel k = false ->
               Dict.get InKernelCallable_eqb k (scoped_functions_to_names st) = Some n ->
               Dict.get InKernelCallable_eqb k (scoped_functions_to_names st') = Some n) /\
  (forall call', call' <> call ->
                 Dict.get expr_eqb call' (pymbolic_calls_to_new_names st') = Dict.get expr_eqb call' (pymbolic_calls_to_new_names st)).
Proof.
  intros H. destruct (register_call_inv _ _ _ _ H)
    as (c' & nm & G & Hc & [(M & -> & Hf & Hn) | (M & fn & C & U & N & Hn & Hf)]).
  - split.
    + intros k n _ Hk. rewrite Hf. exact Hk.
    + intros call' Hne. rewrite Hc.
      apply (get_set_other_e _ _ _ equivalence_expr).
      destruct (expr_eqb call' call) eqn:E; [| reflexivity].
      apply expr_eqb_eq in E. contradiction.
  - split.
    + intros k n Hk Hg. rewrite Hf.
      rewrite (get_set_e _ _ _ equivalence_InKernelCallable).
      destruct (InKernelCallable_eqb k c') eqn:E; [| exact Hg].
      exfalso.
      assert (Hc' : c' = c).
      { apply (named_callable_not_Kernel c c' nm); [| exact N].
        rewrite <- (named_callable_Kernel _ _ _ N), <- (eqb_class _ _ E).
        exact Hk. }
      subst c'.
      rewrite (get_congr _ _ _ equivalence_InKernelCallable k c _ E) in Hg.
      unfold Dict.mem in M. rewrite Hg in M. discriminate.
    + intros call' Hne. rewrite Hc.
      apply (get_set_other_e _ _ _ equivalence_expr).
      destruct (expr_eqb call' call) eqn:E; [| reflexivity].
      apply expr_eqb_eq in E. contradiction.
Qed.

Lemma register_calls_keeps (items : list (expr * InKernelCallable))
  (st st' : registry) :
  register_calls ArgExtOp_name items st = Some (Ok st') ->
  (forall k n, isinstance_CallableKernel k = false ->
               Dict.get InKernelCallable_eqb k (scoped_functions_to_names st) = Some n ->
               Dict.get InKernelCallable_eqb k (scoped_functions_to_names st') = Some n) /\
  (forall call', ~ In call' (map fst items) ->
                 Dict.get expr_eqb call' (pymbolic_calls_to_new_names st') = Dict.get expr_eqb call' (pymbolic_calls_to_new_names st)).
Proof.
  revert st. induction items as [| [call c] items IH]; intros st;
    cbn [register_calls map fst].
  - intros H. inversion H; subst. auto.
  - destruct (register_call ArgExtOp_name st (call, c)) as [[st1 | e] |] eqn:S1;
      cbn [bind_partial]; try discriminate.
    intros H. destruct (IH _ H) as [I1 I2].
    destruct (register_call_keeps _ _ _ _ S1) as [K1 K2].
    split.
    + intros k n Hk Hg. apply I1; [exact Hk |]. apply K1; assumption.
    + intros call' Hn. rewrite I2.
      * apply K2. intros ->. apply Hn. left. reflexivity.
      * intros Hi. apply Hn. right. exact Hi.
Qed.

(** Every call site whose callable is not a kernel ends with the name its
    callable has in the registry. *)
Lemma register_calls_names (items : list (expr * InKernelCallable))
  (st st' : registry) :
  NoDup (map fst items) ->
  register_calls ArgExtOp_name items st = Some (Ok st') ->
  forall call c, In (call, c) items -> isinstance_CallableKernel c = false ->
  exists n, Dict.get InKernelCallable_eqb c (scoped_functions_to_names st') = Some n /\
            Dict.get expr_eqb call (pymbolic_calls_to_new_names st') = Some n.
Proof.
  revert st. induction items as [| [call0 c0] items IH]; intros st ND;
    cbn [register_calls map fst] in *; [intros _ call c [] |].
  inversion ND as [| ? ? Hnot ND']; subst.
  destruct (register_call ArgExtOp_name st (call0, c0)) as [[st1 | e] |] eqn:S1;
    cbn [bind_partial]; try discriminate.
  intros H call c [Hin | Hin] Hk.
  - inversion Hin; subst call0 c0.
    destruct (register_call_inv _ _ _ _ S1)
      as (c' & nm & G & Hc & Hcase).
    assert (Hc' : c' = c).
    { destruct Hcase as [(_ & -> & _) | (_ & fn & _ & _ & N & _)];
        [reflexivity |].
      apply (named_callable_not_Kernel c c' nm Hk N). }
    subst c'.
    destruct (register_calls_keeps _ _ _ H) as [I1 I2].
    exists nm. split; [apply I1; assumption |].
    rewrite I2 by exact Hnot. rewrite Hc.
    apply (get_set_same_e _ _ _ equivalence_expr).
  - apply (IH st1 ND' H call c Hin Hk).
Qed.

End RegistryFacts.


Section RegistryNames.
Variable ArgExtOp_name : ArgExtOp_ -> result string.

Lemma mem_keys (V : Type) (u : function_id) (d : Dict.t function_id V) :
  Dict.mem function_id_eqb u d = name_mem u (Dict.keys d).
Proof.
  unfold Dict.mem, name_mem. induction d as [| [k v] d IH]; simpl; [reflexivity |].
  destruct (function_id_eqb u k); simpl; [reflexivity | exact IH].
Qed.

Lemma unique_name_from_Variable (names : list function_id) (n : string)
  (u : function_id) :
  unique_name names (Variable_ n) = Some (Ok u) -> name_mem u names = false.
Proof.
  intros H. destruct (unique_name_fresh _ _ _ H) as [F | F]; [exact F |].
  exfalso. unfold unique_name, bind_partial in H.
  destruct (next_indexed_variable (Variable_ n)) as [v | e] eqn:N; [| discriminate].
  destruct (next_indexed_variable_rank n v N) as (s' & -> & _).
  apply probe_Variable in H. congruence.
Qed.

Lemma plain_site_inv (call : expr) (c : InKernelCallable) :
  plain_site (call, c) = true ->
  isinstance_CallableKernel c = false /\
  exists n, callee call = Ok (Variable_ n) /\ n <> EmptyString.
Proof.
  unfold plain_site, callee_is_Variable. cbn [fst snd].
  intros H. apply andb_prop in H. destruct H as [H1 H2].
  apply negb_true_iff in H2. split; [exact H2 |].
  destruct (callee call) as [[n | op] | e]; try discriminate.
  exists n. split; [reflexivity |]. intros ->. discriminate.
Qed.

(** One round on a plain call site keeps the names injective. *)
Lemma register_call_injective (st st' : registry) (call : expr)
  (c : InKernelCallable) :
  names_injective st -> plain_site (call, c) = true ->
  register_call ArgExtOp_name st (call, c) = Some (Ok st') ->
  names_injective st'.
Proof.
  intros [J1 J2] P H. destruct (plain_site_inv _ _ P) as (Hk & n & Cn & Hn).
  destruct (equivalence_InKernelCallable) as (R & S & T).
  destruct (register_call_inv _ _ _ _ _ H)
    as (c' & u & G & Hc & [(M & -> & Hf & Hnf) | (M & fn & C & U & N & Hnf & Hf)]).
  - unfold names_injective. rewrite Hf, Hnf. split; assumption.
  - rewrite Cn in C. inversion C; subst fn.
    assert (Hc' : c' = c) by (apply (named_callable_not_Kernel _ c c' u Hk N)).
    subst c'.
    assert (Fr : name_mem u (Dict.keys (scoped_names_to_functions st)) = false)
      by (apply (unique_name_from_Variable _ n); exact U).
    assert (NotIn : forall k, Dict.get InKernelCallable_eqb k
                                (scoped_functions_to_names st) <> Some u).
    { intros k Hg. apply J2 in Hg. apply name_mem_In in Hg. congruence. }
    unfold names_injective. rewrite Hf, Hnf. split.
    + intros k1 k2 m.
      rewrite !(get_set_e _ _ _ equivalence_InKernelCallable).
      destruct (InKernelCallable_eqb k1 c) eqn:E1;
        destruct (InKernelCallable_eqb k2 c) eqn:E2.
      * intros _ _. apply (T k1 c k2 E1 (S _ _ E2)).
      * intros A B. inversion A; subst m. exfalso. apply (NotIn k2 B).
      * intros A B. inversion B; subst m. exfalso. apply (NotIn k1 A).
      * apply J1.
    + intros k m. rewrite (get_set_e _ _ _ equivalence_InKernelCallable).
      destruct (InKernelCallable_eqb k c).
      * intros A. inversion A; subst m. apply keys_set_In.
        rewrite mem_keys. exact Fr.
      * intros A. apply keys_set_incl. apply (J2 k m A).
Qed.

(** One round on a plain call site succeeds. *)
Lemma register_call_succeeds (st : registry) (call : expr) (c : InKernelCallable) :
  plain_site (call, c) = true ->
  exists st', register_call ArgExtOp_name st (call, c) = Some (Ok st').
Proof.
  intros P. destruct (plain_site_inv _ _ P) as (Hk & n & Cn & Hn).
  unfold register_call.
  destruct (Dict.mem InKernelCallable_eqb c (scoped_functions_to_names st)) eqn:M;
    cbn [negb bind_partial].
  - apply mem_get in M. destruct M as [v G]. unfold Dict.getitem. rewrite G.
    cbn [bind_partial]. eauto.
  - rewrite Cn. cbn [bind_partial].
    destruct (unique_name_Variable (Dict.keys (scoped_names_to_functions st)) n Hn)
      as (u & -> & _).
    cbn [bind_partial].
    assert (N : named_callable ArgExtOp_name c (Variable_ u) = Ok c)
      by (destruct c; [reflexivity | discriminate Hk | reflexivity]).
    rewrite N. cbn [bind_partial scoped_functions_to_names]. unfold Dict.getitem.
    rewrite (get_set_same_e _ _ _ equivalence_InKernelCallable).
    cbn [bind_partial]. eauto.
Qed.

(** One round always ends. *)
Lemma register_call_ends (st : registry) (item : expr * InKernelCallable) :
  register_call ArgExtOp_name st item <> None.
Proof.
  destruct item as [call c]. unfold register_call.
  destruct (Dict.mem InKernelCallable_eqb c (scoped_functions_to_names st));
    cbn [negb bind_partial].
  - destruct (Dict.getitem InKernelCallable_eqb c (scoped_functions_to_names st));
      discriminate.
  - destruct (callee call) as [fn | e]; cbn [bind_partial]; [| discriminate].
    destruct (unique_name (Dict.keys (scoped_names_to_functions st)) fn)
      as [[u | e] |] eqn:U; cbn [bind_partial].
    + destruct (named_callable ArgExtOp_name c u) as [c' | e];
        cbn [bind_partial]; [| discriminate].
      match goal with
      | |- context [Dict.getitem ?e ?k ?d] => destruct (Dict.getitem e k d)
      end; discriminate.
    + discriminate.
    + exfalso. revert U. apply unique_name_ends.
Qed.

Lemma register_calls_ends (items : list (expr * InKernelCallable)) (st : registry) :
  register_calls ArgExtOp_name items st <> None.
Proof.
  revert st. induction items as [| item items IH]; intros st;
    cbn [register_calls]; [discriminate |].
  destruct (register_call ArgExtOp_name st item) as [[st1 | e] |] eqn:S1;
    cbn [bind_partial].
  - apply IH.
  - discriminate.
  - exfalso. revert S1. apply register_call_ends.
Qed.

Lemma register_calls_injective (items : list (expr * InKernelCallable))
  (st st' : registry) :
  names_injective st -> forallb plain_site items = true ->
  register_calls ArgExtOp_name items st = Some (Ok st') ->
  names_injective st'.
Proof.
  revert st. induction items as [| [call c] items IH]; intros st J P;
    cbn [register_calls forallb] in *.
  - intros H. inversion H; subst. exact J.
  - apply andb_prop in P. destruct P as [P1 P2].
    destruct (register_call ArgExtOp_name st (call, c)) as [[st1 | e] |] eqn:S1;
      cbn [bind_partial]; try discriminate.
    apply IH; [| exact P2].
    apply (register_call_injective st st1 call c J P1 S1).
Qed.

Lemma register_calls_succeeds (items : list (expr * InKernelCallable))
  (st : registry) :
  forallb plain_site items = true ->
  exists st', register_calls ArgExtOp_name items st = Some (Ok st').
Proof.
  revert st. induction items as [| [call c] items IH]; intros st P;
    cbn [register_calls forallb] in *; [eauto |].
  apply andb_prop in P. destruct P as [P1 P2].
  destruct (register_call_succeeds st call c P1) as [st1 ->].
  cbn [bind_partial]. apply IH. exact P2.
Qed.

End RegistryNames.


(** C4 (as stated, refuted): two call sites of the same [ArgExtOp], one
    specialized for [float32] and one for [float64], have different
    callables and are given the same name, the operator itself. *)
Lemma registry_ArgExtOp_same_name :
  InKernelCallable_eqb (argmax_callable float32) (argmax_callable float64) = false /\
  exists st,
    register_pymbolic_calls_to_knl_callables no_ArgExtOp_name []
      [(argmax_call "x", argmax_callable float32);
       (argmax_call "y", argmax_callable float64)] = Some (Ok st) /\
    Dict.get expr_eqb (argmax_call "x") (pymbolic_calls_to_new_names st)
      = Some (ArgExtOp argmax) /\
    Dict.get expr_eqb (argmax_call "y") (pymbolic_calls_to_new_names st)
      = Some (ArgExtOp argmax).
Proof.
  split; [reflexivity |]. eexists. split; [reflexivity |].
  split; reflexivity.
Qed.

(** A [CallableKernel] is stored under its renamed copy, so the same
    kernel callable met at a second call site is not found and is named
    again. *)
Lemma registry_CallableKernel_named_twice :
  exists st,
    register_pymbolic_calls_to_knl_callables no_ArgExtOp_name []
      [(Call (Id (Variable_ "twice")) [Id (Variable_ "a")], Kernel twice_int32);
       (Call (Id (Variable_ "twice")) [Id (Variable_ "b")], Kernel twice_int32)]
      = Some (Ok st) /\
    Dict.get expr_eqb (Call (Id (Variable_ "twice")) [Id (Variable_ "a")])
             (pymbolic_calls_to_new_names st) = Some (Variable_ "twice_0") /\
    Dict.get expr_eqb (Call (Id (Variable_ "twice")) [Id (Variable_ "b")])
             (pymbolic_calls_to_new_names st) = Some (Variable_ "twice_1").
Proof. eexists. split; [reflexivity |]. split; reflexivity. Qed.

(** C4 (amended): the registration always ends.  When it succeeds, two
    call sites whose callables are structurally equal and are not
    [CallableKernel]s have the same name.  When every callee is a
    [Variable] with a non-empty name and no callable is a
    [CallableKernel], the registration succeeds and two call sites whose
    callables differ have different names: names go by the value of the
    callable, not by the call site. *)
Theorem registry_names_by_value
  (ArgExtOp_name : ArgExtOp_ -> result string)
  (scoped_functions : Dict.t function_id InKernelCallable)
  (calls : Dict.t expr InKernelCallable) :
  NoDup (Dict.keys calls) ->
  register_pymbolic_calls_to_knl_callables ArgExtOp_name scoped_functions calls
    <> None /\
  (forall st,
      register_pymbolic_calls_to_knl_callables ArgExtOp_name scoped_functions calls
        = Some (Ok st) ->
      forall call1 c1 call2 c2,
        In (call1, c1) (Dict.items calls) -> In (call2, c2) (Dict.items calls) ->
        isinstance_CallableKernel c1 = false ->
        InKernelCallable_eqb c1 c2 = true ->
        exists n,
          Dict.get expr_eqb call1 (pymbolic_calls_to_new_names st) = Some n /\
          Dict.get expr_eqb call2 (pymbolic_calls_to_new_names st) = Some n) /\
  (forallb plain_site (Dict.items calls) = true ->
   exists st,
     register_pymbolic_calls_to_knl_callables ArgExtOp_name scoped_functions calls
       = Some (Ok st) /\
     forall call1 c1 call2 c2 n1 n2,
       In (call1, c1) (Dict.items calls) -> In (call2, c2) (Dict.items calls) ->
       InKernelCallable_eqb c1 c2 = false ->
       Dict.get expr_eqb call1 (pymbolic_calls_to_new_names st) = Some n1 ->
       Dict.get expr_eqb call2 (pymbolic_calls_to_new_names st) = Some n2 ->
       n1 <> n2).
Proof.
  intros ND. unfold register_pymbolic_calls_to_knl_callables.
  split; [apply register_calls_ends |]. split.
  - intros st H call1 c1 call2 c2 H1 H2 Hk E.
    assert (Hk2 : isinstance_CallableKernel c2 = false)
      by (rewrite <- (eqb_class _ _ E); exact Hk).
    destruct (register_calls_names _ _ _ _ ND H call1 c1 H1 Hk) as (n1 & F1 & G1).
    destruct (register_calls_names _ _ _ _ ND H call2 c2 H2 Hk2) as (n2 & F2 & G2).
    rewrite (get_congr _ _ _ equivalence_InKernelCallable c1 c2 _ E) in F1.
    exists n1. split; [exact G1 |]. rewrite G2. congruence.
  - intros P.
    destruct (register_calls_succeeds ArgExtOp_name (Dict.items calls)
                {| scoped_names_to_functions := Dict.copy scoped_functions;
                   scoped_functions_to_names := Dict.empty _ _;
                   pymbolic_calls_to_new_names := Dict.empty _ _ |} P) as [st H].
    exists st. split; [exact H |].
    assert (J : names_injective st).
    { apply (register_calls_injective ArgExtOp_name _ _ st) in H; [exact H | | exact P].
      split; intros; discriminate. }
    intros call1 c1 call2 c2 n1 n2 H1 H2 E G1 G2 Hn. subst n2.
    assert (K : forall call c, In (call, c) (Dict.items calls) ->
                               isinstance_CallableKernel c = false).
    { intros call c Hin. rewrite forallb_forall in P.
      apply P in Hin. apply plain_site_inv in Hin. tauto. }
    destruct (register_calls_names _ _ _ _ ND H call1 c1 H1 (K _ _ H1))
      as (m1 & F1 & G1').
    destruct (register_calls_names _ _ _ _ ND H call2 c2 H2 (K _ _ H2))
      as (m2 & F2 & G2').
    rewrite G1 in G1'. rewrite G2 in G2'. inversion G1'; inversion G2'; subst.
    destruct J as [J1 _]. rewrite (J1 c1 c2 m2 F1 F2) in E. discriminate.
Qed.

Lemma registry_names_by_value_witness :
  exists st,
    register_pymbolic_calls_to_knl_callables no_ArgExtOp_name []
      [(sincos_call "x", sincos_callable float32);
       (sincos_call "y", sincos_callable float64);
       (sincos_call "z", sincos_callable float32)] = Some (Ok st) /\
    forall call1 c1 call2 c2 n1 n2,
      In (call1, c1) [(sincos_call "x", sincos_callable float32);
                      (sincos_call "y", sincos_callable float64);
                      (sincos_call "z", sincos_callable float32)] ->
      In (call2, c2) [(sincos_call "x", sincos_callable float32);
                      (sincos_call "y", sincos_callable float64);
                      (sincos_call "z", sincos_callable float32)] ->
      InKernelCallable_eqb c1 c2 = false ->
      Dict.get expr_eqb call1 (pymbolic_calls_to_new_names st) = Some n1 ->
      Dict.get expr_eqb call2 (pymbolic_calls_to_new_names st) = Some n2 ->
      n1 <> n2.
Proof.
  apply (proj2 (proj2 (registry_names_by_value no_ArgExtOp_name []
                         [(sincos_call "x", sincos_callable float32);
                          (sincos_call "y", sincos_callable float64);
                          (sincos_call "z", sincos_callable float32)]
                         ltac:(repeat constructor; simpl; intuition discriminate)))).
  reflexivity.
Defined.


(** ** The call-site rewrite pass *)

Section NameChangerFacts.
Variable old_subst_rules : list string.
Variable parse_tagged_name : expr -> result (string * option string).
Variable subst_expander : expr -> result expr.
Variable map_substitution : string -> option string -> list expr -> result expr.
Variable expr_to_new_names : Dict.t expr function_id.

Let rewrite : expr -> result expr :=
  rec old_subst_rules parse_tagged_name subst_expander map_substitution
      expr_to_new_names.

Let clean : expr -> Prop :=
  untracked old_subst_rules parse_tagged_name subst_expander expr_to_new_names.

Lemma rec_untracked : forall e : expr, clean e -> rewrite e = Ok e.
Proof.
  fix IH 1. intros e.
  assert (L : forall l : list expr,
             (fix all (l : list expr) : Prop :=
                match l with
                | [] => True
                | x :: l' => clean x /\ all l'
                end) l ->
             (forall x, In x l -> clean x -> rewrite x = Ok x) ->
             mapM rewrite l = Ok l).
  { clear IH. induction l as [| x l IHl]; [reflexivity |].
    intros [Hx Hl] Hrec. cbn [mapM].
    rewrite (Hrec x (or_introl eq_refl) Hx). cbn [bind].
    change ((fix go (l0 : list expr) : result (list expr) :=
               match l0 with
               | [] => Ok []
               | x0 :: l' => bind (rewrite x0) (fun y => bind (go l') (fun ys => Ok (y :: ys)))
               end) l) with (mapM rewrite l).
    rewrite IHl; [reflexivity | exact Hl |].
    intros y Hy. apply Hrec. right. exact Hy. }
  destruct e as [f | f | x | l | l | a i | f ps]; intros H.
  - reflexivity.
  - reflexivity.
  - reflexivity.
  - change (rewrite (Sum l)) with (bind (mapM rewrite l) (fun cs => Ok (Sum cs))).
    rewrite (L l H); [reflexivity |].
    clear L H. induction l as [| x l IHl]; [intros y [] |].
    intros y [<- | Hy]; [apply IH | apply IHl; exact Hy].
  - change (rewrite (Product l))
      with (bind (mapM rewrite l) (fun cs => Ok (Product cs))).
    rewrite (L l H); [reflexivity |].
    clear L H. induction l as [| x l IHl]; [intros y [] |].
    intros y [<- | Hy]; [apply IH | apply IHl; exact Hy].
  - destruct H as [Ha Hi].
    change (rewrite (Subscript a i))
      with (bind (rewrite a) (fun a' => bind (rewrite i) (fun i' => Ok (Subscript a' i')))).
    rewrite (IH a Ha), (IH i Hi). reflexivity.
  - destruct H as [(name & tag & ex & Hp & Hr & He & Hm & Hme) [Hf Hps]].
    change (rewrite (Call f ps))
      with (map_call old_subst_rules parse_tagged_name subst_expander
              map_substitution expr_to_new_names rewrite f ps).
    unfold map_call. rewrite Hp. cbn [bind]. rewrite Hr. cbn [negb].
    rewrite He. cbn [bind]. rewrite Hm, Hme.
    rewrite (IH f Hf). cbn [bind].
    rewrite (L ps Hps); [reflexivity |].
    clear L Hps Hp He Hm. induction ps as [| x l IHl]; [intros y [] |].
    intros y [<- | Hy]; [apply IH | apply IHl; exact Hy].
Qed.

(** C9: a call whose callee names a substitution rule is handed to the
    substitution-rule expansion; any other call is first expanded, then
    looked up in the name map as it stands and, failing that, as expanded,
    and a call found either way gets the scoped new name as its callee
    while its parameters are rewritten recursively; a call found neither
    way is rebuilt from its rewritten parts; and an expression that holds
    no tracked call and no call of a substitution rule is returned
    unchanged. *)
Theorem rewrite_pass_spec :
  (forall function parameters name tag,
      parse_tagged_name function = Ok (name, tag) ->
      existsb (String.eqb name) old_subst_rules = true ->
      rewrite (Call function parameters)
      = map_substitution name tag parameters) /\
  (forall function parameters name tag expanded_expr new_name,
      parse_tagged_name function = Ok (name, tag) ->
      existsb (String.eqb name) old_subst_rules = false ->
      subst_expander (Call function parameters) = Ok expanded_expr ->
      Dict.get expr_eqb (Call function parameters) expr_to_new_names
        = Some new_name ->
      rewrite (Call function parameters)
      = (children <- mapM rewrite parameters ;;
         Ok (Call (ScopedFunction new_name) children))) /\
  (forall function parameters name tag expanded_expr new_name,
      parse_tagged_name function = Ok (name, tag) ->
      existsb (String.eqb name) old_subst_rules = false ->
      subst_expander (Call function parameters) = Ok expanded_expr ->
      Dict.get expr_eqb (Call function parameters) expr_to_new_names = None ->
      Dict.get expr_eqb expanded_expr expr_to_new_names = Some new_name ->
      rewrite (Call function parameters)
      = (children <- mapM rewrite parameters ;;
         Ok (Call (ScopedFunction new_name) children))) /\
  (forall function parameters name tag expanded_expr,
      parse_tagged_name function = Ok (name, tag) ->
      existsb (String.eqb name) old_subst_rules = false ->
      subst_expander (Call function parameters) = Ok expanded_expr ->
      Dict.get expr_eqb (Call function parameters) expr_to_new_names = None ->
      Dict.get expr_eqb expanded_expr expr_to_new_names = None ->
      rewrite (Call function parameters)
      = (function' <- rewrite function ;;
         children <- mapM rewrite parameters ;;
         Ok (Call function' children))) /\
  (forall e, clean e -> rewrite e = Ok e).
Proof.
  assert (U : forall function parameters,
             rewrite (Call function parameters)
             = map_call old_subst_rules parse_tagged_name subst_expander
                 map_substitution expr_to_new_names rewrite function parameters)
    by reflexivity.
  repeat split.
  - intros f ps name tag Hp Hr. rewrite U. unfold map_call.
    rewrite Hp. cbn [bind]. rewrite Hr. reflexivity.
  - intros f ps name tag ex n Hp Hr He Hg. rewrite U. unfold map_call.
    rewrite Hp. cbn [bind]. rewrite Hr. cbn [negb]. rewrite He. cbn [bind].
    unfold Dict.mem, Dict.getitem. rewrite Hg. reflexivity.
  - intros f ps name tag ex n Hp Hr He Hg Hge. rewrite U. unfold map_call.
    rewrite Hp. cbn [bind]. rewrite Hr. cbn [negb]. rewrite He. cbn [bind].
    unfold Dict.mem, Dict.getitem. rewrite Hg, Hge. reflexivity.
  - intros f ps name tag ex Hp Hr He Hg Hge. rewrite U. unfold map_call.
    rewrite Hp. cbn [bind]. rewrite Hr. cbn [negb]. rewrite He. cbn [bind].
    unfold Dict.mem. rewrite Hg, Hge. reflexivity.
  - exact rec_untracked.
Qed.

End NameChangerFacts.

Lemma rewrite_pass_spec_witness :
  rec [] parse_untagged_name (fun e => Ok e) no_substitution
      [(sincos_call "x", Variable_ "sincos_0")] (sincos_call "x")
  = (children <-
       mapM (rec [] parse_untagged_name (fun e => Ok e) no_substitution
               [(sincos_call "x", Variable_ "sincos_0")])
            [Id (Variable_ "x")] ;;
     Ok (Call (ScopedFunction (Variable_ "sincos_0")) children)).
Proof.
  apply (proj1 (proj2 (rewrite_pass_spec [] parse_untagged_name (fun e => Ok e)
                         no_substitution
                         [(sincos_call "x", Variable_ "sincos_0")]))
           (Id (Variable_ "sincos")) [Id (Variable_ "x")] "sincos" None
           (sincos_call "x") (Variable_ "sincos_0"));
    reflexivity.
Defined.


(** * Further properties of the code *)

(** ** The check against an earlier specialization *)

Lemma check_specialized_Ok_iff (self_map : dtype_map)
  (items : list (arg_id * dtype_value)) :
  check_specialized self_map items = Ok tt <->
  forall id t, In (id, t) items -> Dict.get arg_id_eqb id self_map = Some t.
Proof.
  induction items as [| [id0 t0] items IH]; simpl.
  - split; [intros _ id t [] | reflexivity].
  - unfold Dict.getitem.
    destruct (Dict.get arg_id_eqb id0 self_map) as [old |] eqn:G; simpl.
    + destruct (dtype_value_eqb old t0) eqn:E; simpl.
      * apply dtype_value_eqb_eq in E. subst old. rewrite IH. split.
        -- intros H id t [Hin | Hin]; [inversion Hin; subst; exact G | auto].
        -- intros H id t Hin. apply H. right. exact Hin.
      * split; [discriminate |]. intros H.
        assert (F := H id0 t0 (or_introl eq_refl)). rewrite G in F.
        inversion F; subst. rewrite (proj2 (dtype_value_eqb_eq t0 t0) eq_refl) in E.
        discriminate.
    + split; [discriminate |]. intros H.
      assert (F := H id0 t0 (or_introl eq_refl)). rewrite G in F. discriminate.
Qed.

(** X1: the check that opens [with_types] of a scalar or mangler callable
    passes exactly when the callable is still unspecialized, or when every
    entry of the new map is already in the callable's type map with the
    same type; in every other case it raises. *)
Theorem check_already_specialized_passes_iff
  (self_map : option dtype_map) (arg_id_to_dtype : dtype_map) :
  check_already_specialized self_map arg_id_to_dtype = Ok tt <->
  match self_map with
  | None => True
  | Some known =>
      forall id t, In (id, t) (Dict.items arg_id_to_dtype) ->
                   Dict.get arg_id_eqb id known = Some t
  end.
Proof.
  destruct self_map as [known |]; simpl.
  - apply check_specialized_Ok_iff.
  - tauto.
Qed.

(** ** The built-in families of [ScalarCallable.with_types] *)

Lemma is_input_id_not_result (id : arg_id) (i : Z) :
  is_input_id id = true -> i < 0 -> arg_id_eqb id (Pos i) = false.
Proof.
  destruct id as [j | s]; simpl; [| reflexivity].
  intros H Hi. apply Z.leb_le in H. apply Z.eqb_neq. lia.
Qed.

Lemma get_set_result_id (id : arg_id) (i : Z) (v : dtype_value) (d : dtype_map) :
  is_input_id id = true -> i < 0 ->
  Dict.get arg_id_eqb id (Dict.set arg_id_eqb (Pos i) v d) = Dict.get arg_id_eqb id d.
Proof.
  intros H Hi. apply (get_set_other arg_id_eqb arg_id_eqb_eq).
  intros ->. simpl in H. apply Z.leb_le in H. lia.
Qed.

Lemma make_tuple_fold_inputs (m : dtype_map) (l : list Z) (acc : dtype_map)
  (id : arg_id) :
  (forall i, In i l -> 0 <= i) -> is_input_id id = true ->
  Dict.get arg_id_eqb id (fold_left (make_tuple_step m) l acc)
  = Dict.get arg_id_eqb id acc.
Proof.
  revert acc. induction l as [| i l IH]; intros acc Hl Hid; simpl; [reflexivity |].
  rewrite IH; [| intros j Hj; apply Hl; right; exact Hj | exact Hid].
  unfold make_tuple_step.
  destruct (Dict.get arg_id_eqb (Pos i) m) as [[t |] |]; try reflexivity.
  apply get_set_result_id; [exact Hid |].
  assert (0 <= i) by (apply Hl; left; reflexivity). lia.
Qed.

Lemma py_range_nonneg (n : nat) (i : Z) : In i (py_range n) -> 0 <= i.
Proof.
  unfold py_range. intros H. apply in_map_iff in H.
  destruct H as (k & <- & _). lia.
Qed.

(** X2: when the target does not resolve the name itself, a successful
    [ScalarCallable.with_types] keeps the callable's name and descriptors,
    sets the type map, and in that map every keyword id and every
    non-negative id has exactly the type (or absence) it had in the map
    passed in: the built-in families only write result ids. *)
Theorem ScalarCallable_with_types_keeps_inputs
  (ext : External) (self new_self : ScalarCallable) (arg_id_to_dtype : dtype_map)
  (kernel : LoopKernel) :
  name_in (function_identifiers ext) (sc_name self) = false ->
  ScalarCallable_with_types ext self arg_id_to_dtype kernel = Ok new_self ->
  sc_name new_self = sc_name self /\
  sc_arg_id_to_descr new_self = sc_arg_id_to_descr self /\
  exists new_arg_id_to_dtype,
    sc_arg_id_to_dtype new_self = Some new_arg_id_to_dtype /\
    forall id, is_input_id id = true ->
               Dict.get arg_id_eqb id new_arg_id_to_dtype
               = Dict.get arg_id_eqb id arg_id_to_dtype.
Proof.
  intros Hn. unfold ScalarCallable_with_types. rewrite Hn.
  destruct (check_already_specialized (sc_arg_id_to_dtype self) arg_id_to_dtype)
    as [[] | e]; cbn [bind]; [| discriminate].
  destruct (name_in ["indexof"; "indexof_vec"] (sc_name self)).
  { intros H. inversion H; subst; cbn. repeat split. eexists. split; [reflexivity |].
    intros id Hid. apply get_set_result_id; [exact Hid | lia]. }
  destruct (callable_name_eqb (sc_name self) (Name "make_tuple")).
  { intros H. inversion H; subst; cbn. repeat split. eexists. split; [reflexivity |].
    intros id Hid. apply make_tuple_fold_inputs; [apply py_range_nonneg | exact Hid]. }
  destruct (sc_name self) as [s | op]; [discriminate |].
  destruct (Dict.getitem arg_id_eqb (Pos 0) arg_id_to_dtype) as [t0 | e];
    cbn [bind]; [| discriminate].
  destruct (Dict.getitem arg_id_eqb (Pos 1) arg_id_to_dtype) as [t1 | e];
    cbn [bind]; [| discriminate].
  destruct (op_result_dtypes ext op kernel t0 t1) as [rs | e]; cbn [bind];
    [| discriminate].
  destruct (list_getitem rs 0) as [r0 | e]; cbn [bind]; [| discriminate].
  destruct (list_getitem rs 1) as [r1 | e]; cbn [bind]; [| discriminate].
  destruct (numpy_type_name t0) as [n0 | e]; cbn [bind]; [| discriminate].
  destruct (numpy_type_name t1) as [n1 | e]; cbn [bind]; [| discriminate].
  intros H. inversion H; subst; cbn. repeat split. eexists. split; [reflexivity |].
  intros id Hid. rewrite !get_set_result_id by (auto; lia). reflexivity.
Qed.

Lemma ScalarCallable_with_types_keeps_inputs_witness :
  exists new_arg_id_to_dtype,
    sc_arg_id_to_dtype
      {| sc_name := Name "indexof";
         sc_arg_id_to_dtype := Some [(Pos 0, Some int32); (Pos (-1), Some int32)];
         sc_arg_id_to_descr := None; sc_name_in_target := None |}
    = Some new_arg_id_to_dtype /\
    forall id, is_input_id id = true ->
               Dict.get arg_id_eqb id new_arg_id_to_dtype
               = Dict.get arg_id_eqb id [(Pos 0, Some int32)].
Proof.
  apply (proj2 (proj2 (ScalarCallable_with_types_keeps_inputs bare_external
                         (fresh_scalar "indexof") _ [(Pos 0, Some int32)]
                         laplace_kernel eq_refl eq_refl))).
Defined.


Lemma py_range_In (n : nat) (i : Z) : In i (py_range n) <-> 0 <= i < Z.of_nat n.
Proof.
  unfold py_range. rewrite in_map_iff. split.
  - intros (k & <- & Hk). apply in_seq in Hk. lia.
  - intros H. exists (Z.to_nat i). split; [lia |]. apply in_seq. lia.
Qed.

Lemma make_tuple_fold_other (m : dtype_map) (l : list Z) (acc : dtype_map) (i : Z) :
  (~ In i l \/ forall t, Dict.get arg_id_eqb (Pos i) m <> Some (Some t)) ->
  Dict.get arg_id_eqb (Pos (- i - 1)) (fold_left (make_tuple_step m) l acc)
  = Dict.get arg_id_eqb (Pos (- i - 1)) acc.
Proof.
  revert acc. induction l as [| j l IH]; intros acc H; simpl; [reflexivity |].
  rewrite IH by (destruct H as [H | H]; [left; intros F; apply H; right; exact F
                                        | right; exact H]).
  unfold make_tuple_step.
  destruct (Dict.get arg_id_eqb (Pos j) m) as [[t |] |] eqn:G; try reflexivity.
  apply (get_set_other arg_id_eqb arg_id_eqb_eq).
  intros E. inversion E as [E']. assert (j = i) by lia. subst j.
  destruct H as [H | H]; [apply H; left; reflexivity | apply (H t G)].
Qed.

Lemma make_tuple_fold_outputs (m : dtype_map) (l : list Z) (acc : dtype_map)
  (i : Z) (t : LoopyType) :
  NoDup l -> In i l -> Dict.get arg_id_eqb (Pos i) m = Some (Some t) ->
  Dict.get arg_id_eqb (Pos (- i - 1)) (fold_left (make_tuple_step m) l acc)
  = Some (Some t).
Proof.
  revert acc. induction l as [| j l IH]; intros acc ND Hin G; [destruct Hin |].
  inversion ND as [| ? ? Hnot ND']; subst. simpl.
  destruct Hin as [-> | Hin].
  - rewrite make_tuple_fold_other by (left; exact Hnot).
    unfold make_tuple_step. rewrite G.
    apply (get_set_same arg_id_eqb arg_id_eqb_eq).
  - apply IH; assumption.
Qed.

Lemma py_range_NoDup (n : nat) : NoDup (py_range n).
Proof.
  unfold py_range. apply Injective_map_NoDup; [| apply seq_NoDup].
  intros a b E. lia.
Qed.

(** X3: for the [make_tuple] family, each input id [i] that is below the
    number of entries of the map passed in and has a type there gives the
    result id [-(i+1)] that same type; every other result id keeps what the
    map passed in said about it; and the callable is bound to the symbol
    [loopy_make_tuple]. *)
Theorem make_tuple_with_types
  (ext : External) (self new_self : ScalarCallable) (arg_id_to_dtype : dtype_map)
  (kernel : LoopKernel) :
  sc_name self = Name "make_tuple" ->
  name_in (function_identifiers ext) (sc_name self) = false ->
  ScalarCallable_with_types ext self arg_id_to_dtype kernel = Ok new_self ->
  sc_name_in_target new_self = Some "loopy_make_tuple" /\
  exists new_arg_id_to_dtype,
    sc_arg_id_to_dtype new_self = Some new_arg_id_to_dtype /\
    (forall i t,
        0 <= i < Z.of_nat (List.length arg_id_to_dtype) ->
        Dict.get arg_id_eqb (Pos i) arg_id_to_dtype = Some (Some t) ->
        Dict.get arg_id_eqb (Pos (- i - 1)) new_arg_id_to_dtype = Some (Some t)) /\
    (forall i,
        ~ (0 <= i < Z.of_nat (List.length arg_id_to_dtype)) \/
        (forall t, Dict.get arg_id_eqb (Pos i) arg_id_to_dtype <> Some (Some t)) ->
        Dict.get arg_id_eqb (Pos (- i - 1)) new_arg_id_to_dtype
        = Dict.get arg_id_eqb (Pos (- i - 1)) arg_id_to_dtype).
Proof.
  intros Hname Hn. unfold ScalarCallable_with_types. rewrite Hn, Hname.
  destruct (check_already_specialized (sc_arg_id_to_dtype self) arg_id_to_dtype)
    as [[] | e]; cbn [bind]; [| discriminate].
  change (name_in ["indexof"; "indexof_vec"] (Name "make_tuple")) with false.
  change (callable_name_eqb (Name "make_tuple") (Name "make_tuple")) with true.
  cbv iota. intros H. inversion H; subst; cbn [sc_name_in_target sc_arg_id_to_dtype].
  split; [reflexivity |]. eexists. split; [reflexivity |]. split.
  - intros i t Hi G. apply make_tuple_fold_outputs.
    + apply py_range_NoDup.
    + apply py_range_In. exact Hi.
    + exact G.
  - intros i Hi. apply make_tuple_fold_other.
    destruct Hi as [Hi | Hi]; [left | right; exact Hi].
    intros F. apply py_range_In in F. contradiction.
Qed.

Lemma make_tuple_with_types_witness :
  exists new_self,
    ScalarCallable_with_types bare_external (fresh_scalar "make_tuple")
      [(Pos 0, Some int32); (Pos 1, Some float64)] laplace_kernel = Ok new_self /\
    sc_name_in_target new_self = Some "loopy_make_tuple" /\
    sc_arg_id_to_dtype new_self
    = Some [(Pos 0, Some int32); (Pos 1, Some float64);
            (Pos (-1), Some int32); (Pos (-2), Some float64)].
Proof.
  eexists. split; [reflexivity |].
  split; [| reflexivity].
  apply (proj1 (make_tuple_with_types bare_external (fresh_scalar "make_tuple") _
                  [(Pos 0, Some int32); (Pos 1, Some float64)] laplace_kernel
                  eq_refl eq_refl eq_refl)).
Defined.


(** X4: for the index-producing family ([indexof], [indexof_vec]) on a
    target that does not resolve the name itself, specialization is
    idempotent: if the map passed in has no entry for the result id [-1], or
    has the kernel's index type there, then specializing the result again
    with the same map succeeds and returns the same callable. *)
Theorem indexof_with_types_idempotent
  (ext : External) (self new_self : ScalarCallable) (arg_id_to_dtype : dtype_map)
  (kernel : LoopKernel) :
  name_in ["indexof"; "indexof_vec"] (sc_name self) = true ->
  name_in (function_identifiers ext) (sc_name self) = false ->
  NoDup (Dict.keys arg_id_to_dtype) ->
  (Dict.get arg_id_eqb (Pos (-1)) arg_id_to_dtype = None \/
   Dict.get arg_id_eqb (Pos (-1)) arg_id_to_dtype = Some (Some (index_dtype kernel))) ->
  ScalarCallable_with_types ext self arg_id_to_dtype kernel = Ok new_self ->
  ScalarCallable_with_types ext new_self arg_id_to_dtype kernel = Ok new_self.
Proof.
  intros Hfam Hn ND Hres. unfold ScalarCallable_with_types at 1. rewrite Hn, Hfam.
  destruct (check_already_specialized (sc_arg_id_to_dtype self) arg_id_to_dtype)
    as [[] | e]; cbn [bind]; [| discriminate].
  intros H. inversion H; subst new_self. clear H.
  unfold ScalarCallable_with_types. cbn [sc_name sc_arg_id_to_dtype
    sc_arg_id_to_descr sc_name_in_target]. rewrite Hn, Hfam.
  assert (C : check_already_specialized
                (Some (Dict.set arg_id_eqb (Pos (-1)) (Some (index_dtype kernel))
                         (Dict.copy arg_id_to_dtype))) arg_id_to_dtype = Ok tt).
  { apply check_specialized_Ok_iff. intros id t Hin.
    assert (G : Dict.get arg_id_eqb id arg_id_to_dtype = Some t)
      by (apply (In_get_Some arg_id_eqb arg_id_eqb_eq); assumption).
    destruct (arg_id_eqb id (Pos (-1))) eqn:E.
    - apply arg_id_eqb_eq in E. subst id.
      rewrite (get_set_same arg_id_eqb arg_id_eqb_eq).
      destruct Hres as [Hres | Hres]; rewrite Hres in G; [discriminate |].
      exact G.
    - rewrite (get_set_other arg_id_eqb arg_id_eqb_eq); [exact G |].
      intros ->. rewrite (proj2 (arg_id_eqb_eq _ _) eq_refl) in E. discriminate. }
  rewrite C. reflexivity.
Qed.

Lemma indexof_with_types_idempotent_witness :
  ScalarCallable_with_types bare_external
    {| sc_name := Name "indexof";
       sc_arg_id_to_dtype := Some [(Pos 0, Some int32); (Pos (-1), Some int32)];
       sc_arg_id_to_descr := None; sc_name_in_target := None |}
    [(Pos 0, Some int32)] laplace_kernel
  = Ok {| sc_name := Name "indexof";
          sc_arg_id_to_dtype := Some [(Pos 0, Some int32); (Pos (-1), Some int32)];
          sc_arg_id_to_descr := None; sc_name_in_target := None |}.
Proof.
  apply (indexof_with_types_idempotent bare_external (fresh_scalar "indexof") _
           [(Pos 0, Some int32)] laplace_kernel eq_refl eq_refl).
  - repeat constructor. simpl. tauto.
  - left. reflexivity.
  - reflexivity.
Defined.

(** ** [CallableKernel] *)

(** With pairwise distinct argument names, no two names share an id. *)
Lemma kw_to_pos_injective (k : LoopKernel) (n1 n2 : string) (pos : Z) :
  NoDup (map arg_name (args k)) ->
  Dict.get String.eqb n1 (fst (get_kw_pos_association k)) = Some pos ->
  Dict.get String.eqb n2 (fst (get_kw_pos_association k)) = Some pos ->
  n1 = n2.
Proof.
  intros N. rewrite (get_kw_pos_association_combine k N). cbn [fst].
  intros H1 H2.
  apply (get_Some_In String.eqb String.eqb_eq) in H1.
  apply (get_Some_In String.eqb String.eqb_eq) in H2.
  apply In_combine_swap in H1. apply In_combine_swap in H2.
  assert (Ni : NoDup (Dict.keys (combine (scan_ids k (args k) 0 (-1))
                                         (map arg_name (args k))))).
  { rewrite keys_combine.
    - apply scan_ids_NoDup. lia.
    - rewrite scan_ids_length, length_map. reflexivity. }
  apply (In_get_Some Z.eqb Z.eqb_eq _ _ _ Ni) in H1.
  apply (In_get_Some Z.eqb Z.eqb_eq _ _ _ Ni) in H2.
  congruence.
Qed.

Lemma harvest_fold (kw : kw_to_pos_map) (l : list KernelArgument)
  (d d' : dtype_map) :
  (forall n1 n2 pos, Dict.get String.eqb n1 kw = Some pos ->
                     Dict.get String.eqb n2 kw = Some pos -> n1 = n2) ->
  NoDup (map arg_name l) ->
  foldM (harvest_dtype kw) l d = Ok d' ->
  (forall a, In a l ->
     exists pos,
       Dict.get String.eqb (arg_name a) kw = Some pos /\
       Dict.get arg_id_eqb (Kw (arg_name a)) d' = Some (arg_dtype a) /\
       Dict.get arg_id_eqb (Pos pos) d' = Some (arg_dtype a)) /\
  (forall id,
     (forall a, In a l ->
        id <> Kw (arg_name a) /\
        forall pos, Dict.get String.eqb (arg_name a) kw = Some pos -> id <> Pos pos) ->
     Dict.get arg_id_eqb id d' = Dict.get arg_id_eqb id d).
Proof.
  intros Inj. revert d. induction l as [| a l IH]; intros d ND; cbn [foldM].
  - intros H. inversion H; subst. split; [intros a [] | reflexivity].
  - inversion ND as [| ? ? Hnot ND']; subst.
    unfold harvest_dtype at 1. unfold Dict.getitem.
    destruct (Dict.get String.eqb (arg_name a) kw) as [pos |] eqn:G;
      cbn [bind]; [| discriminate].
    intros H. destruct (IH _ ND' H) as [I1 I2]. split.
    + intros b [<- | Hb]; [| apply I1; exact Hb].
      exists pos. split; [exact G |].
      assert (Fresh : forall b, In b l ->
                 Kw (arg_name a) <> Kw (arg_name b) /\
                 Pos pos <> Kw (arg_name b) /\
                 (forall p, Dict.get String.eqb (arg_name b) kw = Some p ->
                            Kw (arg_name a) <> Pos p /\ Pos pos <> Pos p)).
      { intros b Hb.
        assert (Hne : arg_name a <> arg_name b).
        { intros E. apply Hnot. rewrite E. apply in_map. exact Hb. }
        split; [congruence |]. split; [discriminate |].
        intros p Hp. split; [discriminate |].
        intros E. inversion E; subst p. apply Hne. apply (Inj _ _ pos G Hp). }
      split.
      * rewrite I2.
        -- rewrite (get_set_other arg_id_eqb arg_id_eqb_eq) by discriminate.
           apply (get_set_same arg_id_eqb arg_id_eqb_eq).
        -- intros b Hb. destruct (Fresh b Hb) as (F1 & _ & F3).
           split; [exact F1 |]. intros p Hp. apply (F3 p Hp).
      * rewrite I2.
        -- apply (get_set_same arg_id_eqb arg_id_eqb_eq).
        -- intros b Hb. destruct (Fresh b Hb) as (_ & F2 & F3).
           split; [exact F2 |]. intros p Hp. apply (F3 p Hp).
    + intros id Hid. rewrite I2.
      * destruct (Hid a (or_introl eq_refl)) as [H1 H2].
        rewrite (get_set_other arg_id_eqb arg_id_eqb_eq) by (apply H2; exact G).
        apply (get_set_other arg_id_eqb arg_id_eqb_eq). exact H1.
      * intros b Hb. apply Hid. right. exact Hb.
Qed.

Lemma CallableKernel_init_args (k : LoopKernel) (t : option dtype_map)
  (d : option descr_map) (n : option string) :
  args (subkernel (CallableKernel_init k t d n)) = args k.
Proof. destruct n; reflexivity. Qed.

(** X5: after a successful [CallableKernel.with_types] on a subkernel whose
    argument names are pairwise distinct (before and after type inference),
    the new type map holds every argument of the specialized subkernel
    twice, under its keyword and under its positional id, with the
    argument's type both times. *)
Theorem CallableKernel_with_types_keyword_and_position
  (ext : External) (self new_self : CallableKernel) (arg_id_to_dtype : dtype_map)
  (kernel : LoopKernel) :
  NoDup (map arg_name (args (subkernel self))) ->
  CallableKernel_with_types ext self arg_id_to_dtype kernel = Ok new_self ->
  NoDup (map arg_name (args (subkernel new_self))) ->
  exists new_arg_id_to_dtype,
    ck_arg_id_to_dtype new_self = Some new_arg_id_to_dtype /\
    forall a, In a (args (subkernel new_self)) ->
      exists pos,
        Dict.get String.eqb (arg_name a)
                 (fst (get_kw_pos_association (subkernel self))) = Some pos /\
        Dict.get arg_id_eqb (Kw (arg_name a)) new_arg_id_to_dtype
          = Some (arg_dtype a) /\
        Dict.get arg_id_eqb (Pos pos) new_arg_id_to_dtype = Some (arg_dtype a).
Proof.
  intros N. unfold CallableKernel_with_types.
  assert (Inj := fun n1 n2 pos => kw_to_pos_injective (subkernel self) n1 n2 pos N).
  destruct (get_kw_pos_association (subkernel self)) as [kw pk]. cbn [fst] in *.
  destruct (mapM (push_dtype kw arg_id_to_dtype) (args (subkernel self)))
    as [new_args | e]; cbn [bind]; [| discriminate].
  destruct (infer_unknown_types ext (kernel_copy_args (subkernel self) new_args))
    as [specialized | e]; cbn [bind]; [| discriminate].
  destruct (foldM (harvest_dtype kw) (args specialized) (Dict.empty arg_id dtype_value))
    as [m' | e] eqn:F; cbn [bind]; [| discriminate].
  intros H. inversion H; subst new_self. clear H.
  rewrite CallableKernel_init_args. intros N'.
  exists m'. split; [destruct (ck_name_in_target self); reflexivity |].
  apply (proj1 (harvest_fold kw (args specialized) _ m' Inj N' F)).
Qed.

Lemma CallableKernel_with_types_keyword_and_position_witness :
  exists new_self new_arg_id_to_dtype,
    CallableKernel_with_types bare_external twice_int32 [(Pos 0, Some float32)]
      laplace_kernel = Ok new_self /\
    ck_arg_id_to_dtype new_self = Some new_arg_id_to_dtype /\
    forall a, In a (args (subkernel new_self)) ->
      exists pos,
        Dict.get String.eqb (arg_name a)
                 (fst (get_kw_pos_association (subkernel twice_int32))) = Some pos /\
        Dict.get arg_id_eqb (Kw (arg_name a)) new_arg_id_to_dtype
          = Some (arg_dtype a) /\
        Dict.get arg_id_eqb (Pos pos) new_arg_id_to_dtype = Some (arg_dtype a).
Proof.
  eexists.
  destruct (CallableKernel_with_types_keyword_and_position bare_external
              twice_int32 _ [(Pos 0, Some float32)] laplace_kernel
              ltac:(repeat constructor; simpl; tauto) eq_refl
              ltac:(repeat constructor; simpl; tauto)) as (m' & H1 & H2).
  exists m'. split; [reflexivity |]. split; assumption.
Defined.


Lemma map_list_update (A B : Type) (f : A -> B) (l : list A) (j : nat) (x old : A) :
  nth_error l j = Some old -> f x = f old ->
  map f (list_update l j x) = map f l.
Proof.
  revert j. induction l as [| y l IH]; intros [| j]; simpl; try discriminate.
  - intros H E. inversion H; subst. rewrite E. reflexivity.
  - intros H E. rewrite (IH j H E). reflexivity.
Qed.

Lemma list_setitem_map (A B : Type) (f : A -> B) (l l' : list A) (i : Z) (x old : A) :
  list_getitem l i = Ok old -> list_setitem l i x = Ok l' -> f x = f old ->
  map f l' = map f l.
Proof.
  unfold list_getitem, list_setitem. cbv zeta.
  set (j := if i <? 0 then i + Z.of_nat (List.length l) else i).
  destruct ((j <? 0) || (Z.of_nat (List.length l) <=? j)); [discriminate |].
  destruct (nth_error l (Z.to_nat j)) as [y |] eqn:N; [| discriminate].
  intros H1 H2 E. inversion H1; subst y. inversion H2; subst l'.
  apply (map_list_update _ _ f l _ x old N E).
Qed.

(** One round of the loop of [with_descrs] touches shapes and dim tags
    only, and accepts the two kinds of descriptor only. *)
Lemma push_descr_frame (kw : kw_to_pos_map) (new_args new_args' : list KernelArgument)
  (id : arg_id) (descr : pyobj) :
  push_descr kw new_args (id, descr) = Ok new_args' ->
  map arg_name new_args' = map arg_name new_args /\
  map arg_dtype new_args' = map arg_dtype new_args /\
  (Record.isinstance descr "ArrayArgDescriptor" = true \/
   Record.isinstance descr "ValueArgDescriptor" = true).
Proof.
  unfold push_descr.
  destruct (match id with
            | Pos i => Ok i
            | Kw s => Dict.getitem String.eqb s kw
            end) as [i |]; cbn [bind]; [| discriminate].
  destruct (Record.isinstance descr "ArrayArgDescriptor") eqn:A.
  - destruct (list_getitem new_args i) as [old |] eqn:G; cbn [bind]; [| discriminate].
    destruct (Record.getattr descr "shape") as [shape |]; cbn [bind]; [| discriminate].
    destruct (Record.getattr descr "dim_tags") as [dim_tags |]; cbn [bind];
      [| discriminate].
    intros H. split; [| split; [| left; reflexivity]].
    + apply (list_setitem_map _ _ arg_name _ _ _ _ old G H). reflexivity.
    + apply (list_setitem_map _ _ arg_dtype _ _ _ _ old G H). reflexivity.
  - destruct (Record.isinstance descr "ValueArgDescriptor") eqn:V; [| discriminate].
    intros H. inversion H; subst. auto.
Qed.

Lemma push_descr_fold (kw : kw_to_pos_map) (items : list (arg_id * pyobj))
  (new_args new_args' : list KernelArgument) :
  foldM (push_descr kw) items new_args = Ok new_args' ->
  map arg_name new_args' = map arg_name new_args /\
  map arg_dtype new_args' = map arg_dtype new_args /\
  forall id descr, In (id, descr) items ->
    Record.isinstance descr "ArrayArgDescriptor" = true \/
    Record.isinstance descr "ValueArgDescriptor" = true.
Proof.
  revert new_args. induction items as [| [id descr] items IH]; intros new_args;
    cbn [foldM].
  - intros H. inversion H; subst. repeat split. intros id descr [].
  - destruct (push_descr kw new_args (id, descr)) as [a1 |] eqn:P; cbn [bind];
      [| discriminate].
    intros H. destruct (IH _ H) as (I1 & I2 & I3).
    destruct (push_descr_frame _ _ _ _ _ P) as (P1 & P2 & P3).
    split; [congruence |]. split; [congruence |].
    intros id' descr' [E | Hin]; [inversion E; subst; exact P3 | eauto].
Qed.

(** X6: a successful [CallableKernel.with_descrs] changes nothing of the
    subkernel's arguments but shapes and dim tags: their number, order,
    names and types are as before; the callable's type map and target name
    are kept, the map passed in becomes its descriptor map, and every
    descriptor in that map is an [ArrayArgDescriptor] or a
    [ValueArgDescriptor] (any other kind makes the call fail). *)
Theorem CallableKernel_with_descrs_frame
  (self new_self : CallableKernel) (arg_id_to_descr : descr_map) :
  CallableKernel_with_descrs self arg_id_to_descr = Ok new_self ->
  map arg_name (args (subkernel new_self)) = map arg_name (args (subkernel self)) /\
  map arg_dtype (args (subkernel new_self)) = map arg_dtype (args (subkernel self)) /\
  ck_arg_id_to_dtype new_self = ck_arg_id_to_dtype self /\
  ck_name_in_target new_self = ck_name_in_target self /\
  ck_arg_id_to_descr new_self = Some arg_id_to_descr /\
  forall id descr, In (id, descr) (Dict.items arg_id_to_descr) ->
    Record.isinstance descr "ArrayArgDescriptor" = true \/
    Record.isinstance descr "ValueArgDescriptor" = true.
Proof.
  unfold CallableKernel_with_descrs.
  destruct (get_kw_pos_association (subkernel self)) as [kw pk].
  destruct (foldM (push_descr kw) (Dict.items arg_id_to_descr) (args (subkernel self)))
    as [new_args |] eqn:F; cbn [bind]; [| discriminate].
  intros H. inversion H; subst new_self. clear H.
  destruct (push_descr_fold _ _ _ _ F) as (F1 & F2 & F3).
  rewrite CallableKernel_init_args.
  repeat split; try assumption; destruct (ck_name_in_target self); reflexivity.
Qed.

Lemma CallableKernel_with_descrs_frame_witness :
  exists new_self,
    CallableKernel_with_descrs twice_int32
      [(Kw "x", PyInstance "ArrayArgDescriptor"
                  [("shape", PyTuple [PyInt 16]); ("mem_scope", PyStr "GLOBAL");
                   ("dim_tags", PyTuple [PyFixedStrideArrayDimTag (PyInt 1) 0])])]
      = Ok new_self /\
    map arg_name (args (subkernel new_self)) = ["x"] /\
    map arg_shape (args (subkernel new_self)) = [PyTuple [PyInt 16]].
Proof.
  eexists. split; [reflexivity |]. split; [| reflexivity].
  apply (proj1 (CallableKernel_with_descrs_frame twice_int32 _
                  [(Kw "x", PyInstance "ArrayArgDescriptor"
                              [("shape", PyTuple [PyInt 16]);
                               ("mem_scope", PyStr "GLOBAL");
                               ("dim_tags",
                                PyTuple [PyFixedStrideArrayDimTag (PyInt 1) 0])])]
                  eq_refl)).
Defined.


(** ** The registry, continued *)

Section RegistryMore.
Variable ArgExtOp_name : ArgExtOp_ -> result string.

Lemma get_In_keys (V : Type) (n : function_id) (c : V) (d : Dict.t function_id V) :
  Dict.get function_id_eqb n d = Some c -> name_mem n (Dict.keys d) = true.
Proof.
  intros H. rewrite <- mem_keys. unfold Dict.mem. rewrite H. reflexivity.
Qed.

Lemma register_call_resolves (st st' : registry) (call : expr)
  (c : InKernelCallable) :
  names_resolve st -> plain_site (call, c) = true ->
  register_call ArgExtOp_name st (call, c) = Some (Ok st') ->
  names_resolve st'.
Proof.
  intros K P H. destruct (plain_site_inv _ _ P) as (Hk & n & Cn & Hn).
  destruct (equivalence_InKernelCallable) as (R & S & T).
  destruct (register_call_inv _ _ _ _ _ H)
    as (c' & u & G & Hc & [(M & -> & Hf & Hnf) | (M & fn & C & U & N & Hnf & Hf)]).
  - unfold names_resolve. rewrite Hf, Hnf. exact K.
  - rewrite Cn in C. inversion C; subst fn.
    assert (Hc' : c' = c) by (apply (named_callable_not_Kernel _ c c' u Hk N)).
    subst c'.
    assert (Fr : name_mem u (Dict.keys (scoped_names_to_functions st)) = false)
      by (apply (unique_name_from_Variable _ n); exact U).
    unfold names_resolve. rewrite Hf, Hnf. intros k m.
    rewrite (get_set_e _ _ _ equivalence_InKernelCallable).
    destruct (InKernelCallable_eqb k c) eqn:E.
    + intros A. inversion A; subst m. exists c. split.
      * apply (get_set_same_e _ _ _ equivalence_function_id).
      * apply S. exact E.
    + intros A. destruct (K k m A) as (c0 & G0 & E0). exists c0.
      split; [| exact E0].
      rewrite (get_set_other_e _ _ _ equivalence_function_id); [exact G0 |].
      destruct (function_id_eqb m u) eqn:Em; [| reflexivity].
      apply function_id_eqb_eq in Em. subst m.
      rewrite (get_In_keys _ _ _ _ G0) in Fr. discriminate.
Qed.

Lemma register_calls_resolve (items : list (expr * InKernelCallable))
  (st st' : registry) :
  names_resolve st -> forallb plain_site items = true ->
  register_calls ArgExtOp_name items st = Some (Ok st') ->
  names_resolve st'.
Proof.
  revert st. induction items as [| [call c] items IH]; intros st K P;
    cbn [register_calls forallb] in *.
  - intros H. inversion H; subst. exact K.
  - apply andb_prop in P. destruct P as [P1 P2].
    destruct (register_call ArgExtOp_name st (call, c)) as [[st1 | e] |] eqn:S1;
      cbn [bind_partial]; try discriminate.
    apply IH; [| exact P2].
    apply (register_call_resolves st st1 call c K P1 S1).
Qed.

Lemma callee_is_Variable_inv (call : expr) :
  callee_is_Variable call = true ->
  exists n, callee call = Ok (Variable_ n) /\ n <> EmptyString.
Proof.
  unfold callee_is_Variable.
  destruct (callee call) as [[n | op] | e]; try discriminate.
  intros H. exists n. split; [reflexivity |]. intros ->. discriminate.
Qed.

(** One round with a [Variable] callee leaves every binding of
    [scoped_names_to_functions] as it is. *)
Lemma register_call_keeps_bindings (st st' : registry) (call : expr)
  (c : InKernelCallable) :
  callee_is_Variable call = true ->
  register_call ArgExtOp_name st (call, c) = Some (Ok st') ->
  forall n c0,
    Dict.get function_id_eqb n (scoped_names_to_functions st) = Some c0 ->
    Dict.get function_id_eqb n (scoped_names_to_functions st') = Some c0.
Proof.
  intros P H n c0 G0. destruct (callee_is_Variable_inv _ P) as (x & Cx & Hx).
  destruct (register_call_inv _ _ _ _ _ H)
    as (c' & u & G & Hc & [(M & -> & Hf & Hnf) | (M & fn & C & U & N & Hnf & Hf)]).
  - rewrite Hnf. exact G0.
  - rewrite Cx in C. inversion C; subst fn.
    assert (Fr : name_mem u (Dict.keys (scoped_names_to_functions st)) = false)
      by (apply (unique_name_from_Variable _ x); exact U).
    rewrite Hnf.
    rewrite (get_set_other_e _ _ _ equivalence_function_id); [exact G0 |].
    destruct (function_id_eqb n u) eqn:Em; [| reflexivity].
    apply function_id_eqb_eq in Em. subst n.
    rewrite (get_In_keys _ _ _ _ G0) in Fr. discriminate.
Qed.

Lemma register_calls_keep_bindings (items : list (expr * InKernelCallable))
  (st st' : registry) :
  forallb (fun item => callee_is_Variable (fst item)) items = true ->
  register_calls ArgExtOp_name items st = Some (Ok st') ->
  forall n c0,
    Dict.get function_id_eqb n (scoped_names_to_functions st) = Some c0 ->
    Dict.get function_id_eqb n (scoped_names_to_functions st') = Some c0.
Proof.
  revert st. induction items as [| [call c] items IH]; intros st P;
    cbn [register_calls forallb fst] in *.
  - intros H. inversion H; subst. auto.
  - apply andb_prop in P. destruct P as [P1 P2].
    destruct (register_call ArgExtOp_name st (call, c)) as [[st1 | e] |] eqn:S1;
      cbn [bind_partial]; try discriminate.
    intros H n c0 G0. apply (IH st1 P2 H).
    apply (register_call_keeps_bindings st st1 call c P1 S1). exact G0.
Qed.

End RegistryMore.

(** X7: when every callee is a [Variable] with a non-empty name and no
    callable is a [CallableKernel], the registration succeeds and resolves
    back: the name given to a call site is bound, in the final
    [scoped_names_to_functions], to a callable structurally equal to the
    one the call site came with. *)
Theorem registry_round_trip
  (ArgExtOp_name : ArgExtOp_ -> result string)
  (scoped_functions : Dict.t function_id InKernelCallable)
  (calls : Dict.t expr InKernelCallable) :
  NoDup (Dict.keys calls) ->
  forallb plain_site (Dict.items calls) = true ->
  exists st,
    register_pymbolic_calls_to_knl_callables ArgExtOp_name scoped_functions calls
      = Some (Ok st) /\
    forall call c, In (call, c) (Dict.items calls) ->
      exists n c',
        Dict.get expr_eqb call (pymbolic_calls_to_new_names st) = Some n /\
        Dict.get function_id_eqb n (scoped_names_to_functions st) = Some c' /\
        InKernelCallable_eqb c' c = true.
Proof.
  intros ND P. unfold register_pymbolic_calls_to_knl_callables.
  destruct (register_calls_succeeds ArgExtOp_name (Dict.items calls)
              {| scoped_names_to_functions := Dict.copy scoped_functions;
                 scoped_functions_to_names := Dict.empty _ _;
                 pymbolic_calls_to_new_names := Dict.empty _ _ |} P) as [st H].
  exists st. split; [exact H |].
  assert (K : names_resolve st).
  { apply (register_calls_resolve ArgExtOp_name _ _ st) in H; [exact H | | exact P].
    intros k n G. discriminate G. }
  intros call c Hin.
  assert (Hk : isinstance_CallableKernel c = false).
  { rewrite forallb_forall in P. apply P in Hin. apply plain_site_inv in Hin. tauto. }
  destruct (register_calls_names _ _ _ _ ND H call c Hin Hk) as (n & F & G).
  destruct (K c n F) as (c' & G' & E). exists n, c'. auto.
Qed.

Lemma registry_round_trip_witness :
  exists st,
    register_pymbolic_calls_to_knl_callables no_ArgExtOp_name []
      [(sincos_call "x", sincos_callable float32);
       (sincos_call "y", sincos_callable float64)] = Some (Ok st) /\
    forall call c,
      In (call, c) [(sincos_call "x", sincos_callable float32);
                    (sincos_call "y", sincos_callable float64)] ->
      exists n c',
        Dict.get expr_eqb call (pymbolic_calls_to_new_names st) = Some n /\
        Dict.get function_id_eqb n (scoped_names_to_functions st) = Some c' /\
        InKernelCallable_eqb c' c = true.
Proof.
  apply (registry_round_trip no_ArgExtOp_name []
           [(sincos_call "x", sincos_callable float32);
            (sincos_call "y", sincos_callable float64)]).
  - repeat constructor; simpl; intuition discriminate.
  - reflexivity.
Defined.

(** X8: when every callee is a [Variable] with a non-empty name, a
    successful registration keeps every binding the kernel's
    [scoped_functions] had: each of its names is still bound to the same
    callable afterwards, since every new callable gets a name that was not
    in use. *)
Theorem registry_keeps_scoped_functions
  (ArgExtOp_name : ArgExtOp_ -> result string)
  (scoped_functions : Dict.t function_id InKernelCallable)
  (calls : Dict.t expr InKernelCallable) (st : registry) :
  forallb (fun item => callee_is_Variable (fst item)) (Dict.items calls) = true ->
  register_pymbolic_calls_to_knl_callables ArgExtOp_name scoped_functions calls
    = Some (Ok st) ->
  forall n c,
    Dict.get function_id_eqb n scoped_functions = Some c ->
    Dict.get function_id_eqb n (scoped_names_to_functions st) = Some c.
Proof.
  intros P H n c G.
  apply (register_calls_keep_bindings ArgExtOp_name _ _ st P H). exact G.
Qed.

Lemma registry_keeps_scoped_functions_witness :
  exists st,
    register_pymbolic_calls_to_knl_callables no_ArgExtOp_name
      [(Variable_ "sincos_0", sincos_callable float64)]
      [(sincos_call "x", sincos_callable float32)] = Some (Ok st) /\
    Dict.get function_id_eqb (Variable_ "sincos_0") (scoped_names_to_functions st)
      = Some (sincos_callable float64) /\
    Dict.get expr_eqb (sincos_call "x") (pymbolic_calls_to_new_names st)
      = Some (Variable_ "sincos_1").
Proof.
  eexists. split; [reflexivity |]. split; [| reflexivity].
  apply (registry_keeps_scoped_functions no_ArgExtOp_name
           [(Variable_ "sincos_0", sincos_callable float64)]
           [(sincos_call "x", sincos_callable float32)] _ eq_refl eq_refl).
  reflexivity.
Defined.


(** ** Readiness for code generation *)

Lemma ScalarCallable_with_types_sets_types
  (ext : External) (self new_self : ScalarCallable) (arg_id_to_dtype : dtype_map)
  (kernel : LoopKernel) :
  name_in (function_identifiers ext) (sc_name self) = false ->
  ScalarCallable_with_types ext self arg_id_to_dtype kernel = Ok new_self ->
  is_not_None (sc_arg_id_to_dtype new_self) = true.
Proof.
  intros Hn. unfold ScalarCallable_with_types. rewrite Hn.
  destruct (check_already_specialized (sc_arg_id_to_dtype self) arg_id_to_dtype)
    as [[] | e]; cbn [bind]; [| discriminate].
  destruct (name_in ["indexof"; "indexof_vec"] (sc_name self));
    [intros H; inversion H; reflexivity |].
  destruct (callable_name_eqb (sc_name self) (Name "make_tuple"));
    [intros H; inversion H; reflexivity |].
  destruct (sc_name self) as [s | op]; [discriminate |].
  destruct (Dict.getitem arg_id_eqb (Pos 0) arg_id_to_dtype) as [t0 | e];
    cbn [bind]; [| discriminate].
  destruct (Dict.getitem arg_id_eqb (Pos 1) arg_id_to_dtype) as [t1 | e];
    cbn [bind]; [| discriminate].
  destruct (op_result_dtypes ext op kernel t0 t1) as [rs | e]; cbn [bind];
    [| discriminate].
  destruct (list_getitem rs 0) as [r0 | e]; cbn [bind]; [| discriminate].
  destruct (list_getitem rs 1) as [r1 | e]; cbn [bind]; [| discriminate].
  destruct (numpy_type_name t0) as [n0 | e]; cbn [bind]; [| discriminate].
  destruct (numpy_type_name t1) as [n1 | e]; cbn [bind]; [| discriminate].
  intros H. inversion H; reflexivity.
Qed.

(** X9: a scalar callable that one of the built-in families resolves (the
    target does not resolve its name) is ready for code generation after
    [with_types] followed by [with_descrs], whatever maps are passed, as
    soon as both calls succeed; and [with_descrs] alone never makes an
    untyped scalar callable ready. *)
Theorem ScalarCallable_ready_after_specialization
  (ext : External) (self typed : ScalarCallable) (arg_id_to_dtype : dtype_map)
  (kernel : LoopKernel) (arg_id_to_descr : descr_map) :
  name_in (function_identifiers ext) (sc_name self) = false ->
  ScalarCallable_with_types ext self arg_id_to_dtype kernel = Ok typed ->
  (exists ready,
      ScalarCallable_with_descrs typed arg_id_to_descr = Ok ready /\
      ScalarCallable_is_ready_for_codegen ready = true) /\
  (sc_arg_id_to_dtype self = None ->
   exists described,
      ScalarCallable_with_descrs self arg_id_to_descr = Ok described /\
      ScalarCallable_is_ready_for_codegen described = false).
Proof.
  intros Hn H. split.
  - eexists. split; [reflexivity |].
    unfold ScalarCallable_is_ready_for_codegen. cbn.
    rewrite (ScalarCallable_with_types_sets_types _ _ _ _ _ Hn H). reflexivity.
  - intros Hnone. eexists. split; [reflexivity |].
    unfold ScalarCallable_is_ready_for_codegen. cbn. rewrite Hnone. reflexivity.
Qed.

Lemma ScalarCallable_ready_after_specialization_witness :
  exists ready,
    ScalarCallable_with_descrs
      {| sc_name := Name "indexof";
         sc_arg_id_to_dtype := Some [(Pos 0, Some int32); (Pos (-1), Some int32)];
         sc_arg_id_to_descr := None; sc_name_in_target := None |}
      [(Pos 0, ValueArgDescriptor)] = Ok ready /\
    ScalarCallable_is_ready_for_codegen ready = true.
Proof.
  apply (proj1 (ScalarCallable_ready_after_specialization bare_external
                  (fresh_scalar "indexof") _ [(Pos 0, Some int32)] laplace_kernel
                  [(Pos 0, ValueArgDescriptor)] eq_refl eq_refl)).
Defined.

Lemma CallableKernel_with_types_name (ext : External) (self new_self : CallableKernel)
  (arg_id_to_dtype : dtype_map) (kernel : LoopKernel) :
  CallableKernel_with_types ext self arg_id_to_dtype kernel = Ok new_self ->
  ck_name_in_target new_self = ck_name_in_target self /\
  ck_arg_id_to_descr new_self = ck_arg_id_to_descr self.
Proof.
  unfold CallableKernel_with_types.
  destruct (get_kw_pos_association (subkernel self)) as [kw pk].
  destruct (mapM (push_dtype kw arg_id_to_dtype) (args (subkernel self)))
    as [new_args | e]; cbn [bind]; [| discriminate].
  destruct (infer_unknown_types ext (kernel_copy_args (subkernel self) new_args))
    as [specialized | e]; cbn [bind]; [| discriminate].
  destruct (foldM (harvest_dtype kw) (args specialized) (Dict.empty arg_id dtype_value))
    as [m' | e]; cbn [bind]; [| discriminate].
  intros H. inversion H; subst. split; destruct (ck_name_in_target self); reflexivity.
Qed.

Lemma CallableKernel_with_descrs_name (self new_self : CallableKernel)
  (arg_id_to_descr : descr_map) :
  CallableKernel_with_descrs self arg_id_to_descr = Ok new_self ->
  ck_name_in_target new_self = ck_name_in_target self.
Proof.
  unfold CallableKernel_with_descrs.
  destruct (get_kw_pos_association (subkernel self)) as [kw pk].
  destruct (foldM (push_descr kw) (Dict.items arg_id_to_descr) (args (subkernel self)))
    as [new_args |]; cbn [bind]; [| discriminate].
  intros H. inversion H; subst. destruct (ck_name_in_target self); reflexivity.
Qed.

(** X10: specialization never names a kernel callable: [with_types] and
    [with_descrs] of a [CallableKernel] keep its [name_in_target], so a
    kernel callable without a target name is not ready for code generation
    after any sequence of the two. *)
Theorem CallableKernel_not_ready_without_name
  (ext : External) (kernel : LoopKernel)
  (steps : list (dtype_map + descr_map)) (self new_self : CallableKernel) :
  ck_name_in_target self = None ->
  foldM (fun c step =>
           match step with
           | inl arg_id_to_dtype =>
               CallableKernel_with_types ext c arg_id_to_dtype kernel
           | inr arg_id_to_descr => CallableKernel_with_descrs c arg_id_to_descr
           end) steps self = Ok new_self ->
  ck_name_in_target new_self = None /\
  CallableKernel_is_ready_for_codegen new_self = false.
Proof.
  revert self. induction steps as [| step steps IH]; intros self Hnone;
    cbn [foldM].
  - intros H. inversion H; subst. split; [exact Hnone |].
    unfold CallableKernel_is_ready_for_codegen. rewrite Hnone.
    apply andb_false_r.
  - destruct step as [m | d].
    + destruct (CallableKernel_with_types ext self m kernel) as [c1 |] eqn:W;
        cbn [bind]; [| discriminate].
      apply IH. destruct (CallableKernel_with_types_name _ _ _ _ _ W) as [E _].
      congruence.
    + destruct (CallableKernel_with_descrs self d) as [c1 |] eqn:W;
        cbn [bind]; [| discriminate].
      apply IH. rewrite (CallableKernel_with_descrs_name _ _ _ W). exact Hnone.
Qed.

Lemma CallableKernel_not_ready_without_name_witness :
  exists new_self,
    CallableKernel_with_descrs twice_int32 [(Pos 0, ValueArgDescriptor)]
      = Ok new_self /\
    is_not_None (ck_arg_id_to_dtype new_self) = true /\
    is_not_None (ck_arg_id_to_descr new_self) = true /\
    CallableKernel_is_ready_for_codegen new_self = false.
Proof.
  eexists. split; [reflexivity |]. split; [reflexivity |]. split; [reflexivity |].
  apply (proj2 (CallableKernel_not_ready_without_name bare_external laplace_kernel
                  [inr [(Pos 0, ValueArgDescriptor)]] twice_int32 _
                  eq_refl eq_refl)).
Defined.

(** X11: registering a kernel callable that was not registered before,
    under a [Variable] callee, stores a copy under a name [n] that was not
    in use, gives the call site that name, and makes [n] both the copy's
    [name_in_target] and the name of its subkernel; the arguments and both
    maps are those of the callable registered, so the copy is ready for
    code generation exactly when both maps are set. *)
Theorem registry_names_kernel_callable
  (ArgExtOp_name : ArgExtOp_ -> result string) (st st' : registry)
  (call : expr) (c : CallableKernel) :
  Dict.mem InKernelCallable_eqb (Kernel c) (scoped_functions_to_names st) = false ->
  callee_is_Variable call = true ->
  register_call ArgExtOp_name st (call, Kernel c) = Some (Ok st') ->
  exists n c',
    name_mem (Variable_ n) (Dict.keys (scoped_names_to_functions st)) = false /\
    Dict.get expr_eqb call (pymbolic_calls_to_new_names st') = Some (Variable_ n) /\
    Dict.get function_id_eqb (Variable_ n) (scoped_names_to_functions st')
      = Some (Kernel c') /\
    ck_name_in_target c' = Some n /\
    kernel_name (subkernel c') = n /\
    args (subkernel c') = args (subkernel c) /\
    ck_arg_id_to_dtype c' = ck_arg_id_to_dtype c /\
    ck_arg_id_to_descr c' = ck_arg_id_to_descr c /\
    CallableKernel_is_ready_for_codegen c'
    = is_not_None (ck_arg_id_to_dtype c) && is_not_None (ck_arg_id_to_descr c).
Proof.
  intros M P H. destruct (callee_is_Variable_inv _ P) as (x & Cx & Hx).
  destruct (register_call_inv _ _ _ _ _ H)
    as (c' & u & G & Hc & [(M' & _) | (_ & fn & C & U & N & Hnf & Hf)]);
    [congruence |].
  rewrite Cx in C. inversion C; subst fn.
  assert (Fr : name_mem u (Dict.keys (scoped_names_to_functions st)) = false)
    by (apply (unique_name_from_Variable _ x); exact U).
  destruct u as [n | op].
  - cbn in N. inversion N; subst c'. exists n. eexists.
    split; [exact Fr |]. split.
    { rewrite Hc. apply (get_set_same_e _ _ _ equivalence_expr). }
    split.
    { rewrite Hnf. apply (get_set_same_e _ _ _ equivalence_function_id). }
    cbn. unfold CallableKernel_is_ready_for_codegen. cbn.
    rewrite andb_true_r. repeat split.
  - exfalso. unfold unique_name, bind_partial in U.
    destruct (next_indexed_variable (Variable_ x)) as [v | e] eqn:Nx; [| discriminate].
    destruct (next_indexed_variable_rank x v Nx) as (s' & -> & _).
    apply probe_Variable in U. discriminate.
Qed.

Lemma registry_names_kernel_callable_witness :
  exists n c',
    Dict.get function_id_eqb (Variable_ n)
      [(Variable_ "twice_0",
        Kernel (CallableKernel_init twice_kernel
                  (Some [(Kw "x", Some int32); (Pos 0, Some int32)]) None
                  (Some "twice_0")))]
      = Some (Kernel c') /\
    ck_name_in_target c' = Some n /\ kernel_name (subkernel c') = n.
Proof.
  destruct (registry_names_kernel_callable no_ArgExtOp_name
              {| scoped_names_to_functions := [];
                 scoped_functions_to_names := [];
                 pymbolic_calls_to_new_names := [] |} _
              (Call (Id (Variable_ "twice")) []) twice_int32
              eq_refl eq_refl eq_refl)
    as (n & c' & _ & _ & G & Hn & Hk & _).
  exists n, c'. cbn in G. auto.
Defined.


(** ** The renamer, continued *)

Lemma rank_lt_neq (a b : string) : rank_lt (rank_of a) (rank_of b) -> a <> b.
Proof. intros H ->. apply (rank_lt_irrefl _ H). Qed.

(** X12: [next_indexed_variable] raises on exactly one [Variable], the one
    with the empty name ([IndexError]); on every other it returns a
    [Variable] with a non-empty name different from the one it was given. *)
Theorem next_indexed_variable_edges (name : string) :
  (name = EmptyString ->
   next_indexed_variable (Variable_ name) = Raise IndexError) /\
  (name <> EmptyString ->
   exists name', next_indexed_variable (Variable_ name) = Ok (Variable_ name') /\
                 name' <> EmptyString /\ name' <> name).
Proof.
  split.
  - intros ->. reflexivity.
  - intros Hne. destruct (next_indexed_variable_nonempty name Hne) as (s' & E & Hs').
    exists s'. split; [exact E |]. split; [exact Hs' |].
    destruct (next_indexed_variable_rank name _ E) as (s'' & Ev & Hlt).
    inversion Ev; subst s''. intros ->. apply (rank_lt_irrefl _ Hlt).
Qed.

Lemma next_indexed_variable_edges_witness :
  exists name', next_indexed_variable (Variable_ "sincos") = Ok (Variable_ name') /\
                name' <> EmptyString /\ name' <> "sincos".
Proof.
  apply (proj2 (next_indexed_variable_edges "sincos")). discriminate.
Defined.

Lemma candidate_Variable (k : nat) (name : string) (v : function_id) :
  candidate k (Variable_ name) = Ok v -> exists s, v = Variable_ s.
Proof.
  revert v. induction k as [| k IH]; intros v; cbn [candidate].
  - intros H. inversion H. eauto.
  - destruct (candidate k (Variable_ name)) as [w | e]; cbn [bind];
      [| discriminate].
    destruct (IH w eq_refl) as [a ->].
    intros H. destruct (next_indexed_variable_rank a v H) as (s' & -> & _). eauto.
Qed.

Lemma candidate_rank (name : string) (i k : nat) (a b : string) :
  candidate i (Variable_ name) = Ok (Variable_ a) ->
  candidate (i + S k) (Variable_ name) = Ok (Variable_ b) ->
  rank_lt (rank_of a) (rank_of b).
Proof.
  intros Ha. revert b. induction k as [| k IH]; intros b.
  - replace (i + 1)%nat with (S i) by lia. cbn [candidate]. rewrite Ha. cbn [bind].
    intros H. destruct (next_indexed_variable_rank a _ H) as (s' & E & Hlt).
    inversion E; subst. exact Hlt.
  - replace (i + S (S k))%nat with (S (i + S k)) by lia. cbn [candidate].
    destruct (candidate (i + S k) (Variable_ name)) as [v | e] eqn:C; cbn [bind];
      [| discriminate].
    destruct (candidate_Variable _ _ _ C) as [m ->].
    intros H. destruct (next_indexed_variable_rank m _ H) as (s' & E & Hlt).
    inversion E; subst. apply (rank_lt_trans _ (rank_of m)); [apply IH; reflexivity | exact Hlt].
Qed.

(** X13: the candidates of a name never repeat: whatever the starting
    name, the [i]-th and the [j]-th candidate are different names for
    [i < j] (the starting name itself counts as candidate 0). *)
Theorem candidates_never_repeat (name : string) (i j : nat) (u v : function_id) :
  (i < j)%nat ->
  candidate i (Variable_ name) = Ok u ->
  candidate j (Variable_ name) = Ok v ->
  u <> v.
Proof.
  intros Hij Hu Hv.
  destruct (candidate_Variable _ _ _ Hu) as [a ->].
  destruct (candidate_Variable _ _ _ Hv) as [b ->].
  replace j with (i + S (j - i - 1))%nat in Hv by lia.
  intros E. inversion E; subst b.
  apply (rank_lt_irrefl (rank_of a)). apply (candidate_rank name i _ a a Hu Hv).
Qed.

Lemma candidates_never_repeat_witness :
  Variable_ "sincos_0" <> Variable_ "sincos_2".
Proof.
  apply (candidates_never_repeat "sincos" 1 3 _ _ ltac:(lia) eq_refl eq_refl).
Defined.

Lemma probe_first_unused (fuel : nat) (names : list function_id) (name : string)
  (i : nat) (a : string) (u : function_id) :
  candidate i (Variable_ name) = Ok (Variable_ a) ->
  probe fuel names (Variable_ a) = Some (Ok u) ->
  exists k,
    candidate (i + k) (Variable_ name) = Ok u /\
    name_mem u names = false /\
    forall j, (j < k)%nat ->
      exists v, candidate (i + j) (Variable_ name) = Ok v /\ name_mem v names = true.
Proof.
  revert i a. induction fuel as [| fuel IH]; intros i a Ha; [discriminate |].
  cbn [probe isinstance_ArgExtOp negb]. rewrite andb_true_r.
  destruct (name_mem (Variable_ a) names) eqn:M.
  - destruct (next_indexed_variable (Variable_ a)) as [v | e] eqn:N; [| discriminate].
    destruct (next_indexed_variable_rank a v N) as (b & -> & _).
    intros H.
    assert (Hb : candidate (S i) (Variable_ name) = Ok (Variable_ b))
      by (cbn [candidate]; rewrite Ha; exact N).
    destruct (IH (S i) b Hb H) as (k & Hk & Hf & Hall).
    exists (S k). replace (i + S k)%nat with (S i + k)%nat by lia.
    split; [exact Hk |]. split; [exact Hf |].
    intros j Hj. destruct j as [| j].
    + exists (Variable_ a). rewrite Nat.add_0_r. auto.
    + replace (i + S j)%nat with (S i + j)%nat by lia. apply Hall. lia.
  - intros H. inversion H; subst u. exists 0%nat. rewrite Nat.add_0_r.
    split; [exact Ha |]. split; [exact M |]. intros j Hj. lia.
Qed.

(** X14: the name the probing returns for a [Variable] callee is the first
    candidate that is not in the name set: it is the [k]-th candidate after
    the callee's name for some [k >= 1], it is not in the set, and every
    candidate before it is. *)
Theorem unique_name_is_first_unused (names : list function_id) (name : string)
  (u : function_id) :
  unique_name names (Variable_ name) = Some (Ok u) ->
  exists k,
    candidate (S k) (Variable_ name) = Ok u /\
    name_mem u names = false /\
    forall j, (j < k)%nat ->
      exists v, candidate (S j) (Variable_ name) = Ok v /\ name_mem v names = true.
Proof.
  unfold unique_name, bind_partial.
  destruct (next_indexed_variable (Variable_ name)) as [v | e] eqn:N; [| discriminate].
  destruct (next_indexed_variable_rank name v N) as (a & -> & _).
  intros H.
  assert (Ha : candidate 1 (Variable_ name) = Ok (Variable_ a)) by exact N.
  destruct (probe_first_unused _ names name 1 a u Ha H) as (k & Hk & Hf & Hall).
  exists k. split; [exact Hk |]. split; [exact Hf |].
  intros j Hj. apply (Hall j Hj).
Qed.

Lemma unique_name_is_first_unused_witness :
  exists k,
    candidate (S k) (Variable_ "f") = Ok (Variable_ "f_2") /\
    name_mem (Variable_ "f_2") [Variable_ "f_1"; Variable_ "f_0"] = false /\
    forall j, (j < k)%nat ->
      exists v, candidate (S j) (Variable_ "f") = Ok v /\
                name_mem v [Variable_ "f_1"; Variable_ "f_0"] = true.
Proof.
  apply (unique_name_is_first_unused [Variable_ "f_1"; Variable_ "f_0"] "f"
           (Variable_ "f_2") eq_refl).
Defined.

(** X15: a name [alpha_num], with a non-empty prefix free of whitespace
    and a non-empty string of digits [num], is followed by [alpha_n] where
    [n] is the number [num] denotes plus one, written without leading
    zeros; the prefix may itself contain underscores and digits, the
    pattern splits at the last underscore. *)
Theorem next_indexed_variable_counts_up (alpha num : string) :
  alpha <> EmptyString -> no_space alpha = true ->
  all_digits num = true -> num <> EmptyString ->
  func_name_match (String.append alpha (String underscore num)) = Some (alpha, num) /\
  next_indexed_variable (Variable_ (String.append alpha (String underscore num)))
  = Ok (Variable_ (indexed alpha (int_of_digits num + 1))) /\
  func_name_match (indexed alpha (int_of_digits num + 1))
  = Some (alpha, str_of_int (int_of_digits num + 1)).
Proof.
  intros Ha Hs Hd Hn.
  assert (M : func_name_match (String.append alpha (String underscore num))
              = Some (alpha, num)).
  { unfold func_name_match.
    rewrite (match_alpha_complete alpha EmptyString num); auto. }
  split; [exact M |]. split.
  - apply next_indexed_variable_matched. exact M.
  - apply func_name_match_indexed; assumption.
Qed.

Lemma next_indexed_variable_counts_up_witness :
  next_indexed_variable (Variable_ "a_1_007") = Ok (Variable_ "a_1_8").
Proof.
  apply (proj1 (proj2 (next_indexed_variable_counts_up "a_1" "007"
                         ltac:(discriminate) eq_refl eq_refl ltac:(discriminate)))).
Defined.


(** ** [ManglerCallable] *)

Section DictAppend.
Variables K V : Type.
Variable eqb : K -> K -> bool.
Hypothesis eqb_eq : forall a b, eqb a b = true <-> a = b.

Lemma get_app (k : K) (d1 d2 : Dict.t K V) :
  Dict.get eqb k (d1 ++ d2)
  = match Dict.get eqb k d1 with
    | Some v => Some v
    | None => Dict.get eqb k d2
    end.
Proof.
  induction d1 as [| [k' v'] d1 IH]; simpl; [reflexivity |].
  destruct (eqb k k'); [reflexivity | exact IH].
Qed.

(** Storing entries under keys that are new and pairwise distinct appends
    them, in order. *)
Lemma fold_set_fresh (kvs : list (K * V)) (d : Dict.t K V) :
  NoDup (map fst kvs) ->
  (forall k, In k (map fst kvs) -> Dict.get eqb k d = None) ->
  fold_left (fun acc kv => Dict.set eqb (fst kv) (snd kv) acc) kvs d = d ++ kvs.
Proof.
  revert d. induction kvs as [| [k v] kvs IH]; intros d ND Hf; simpl.
  - rewrite app_nil_r. reflexivity.
  - inversion ND as [| ? ? Hnot ND']; subst.
    rewrite (set_fresh eqb k v d) by (apply Hf; left; reflexivity).
    rewrite IH; [rewrite <- app_assoc; reflexivity | exact ND' |].
    intros k' Hk'. rewrite get_app, (Hf k') by (right; exact Hk'). simpl.
    destruct (eqb k' k) eqn:E; [| reflexivity].
    apply eqb_eq in E. subst k'. contradiction.
Qed.

End DictAppend.

Arguments get_app {K V} eqb k d1 d2.
Arguments fold_set_fresh {K V} eqb eqb_eq kvs d _ _.

Lemma enumerate_from_fst_In (A : Type) (start : Z) (l : list A) (i : Z) :
  In i (map fst (enumerate_from start l)) <->
  start <= i < start + Z.of_nat (List.length l).
Proof.
  revert start. induction l as [| x l IH]; intros start.
  - simpl. lia.
  - cbn [enumerate_from map fst In]. rewrite IH.
    change (List.length (x :: l)) with (S (List.length l)). lia.
Qed.

Lemma enumerate_from_fst_NoDup (A : Type) (start : Z) (l : list A) :
  NoDup (map fst (enumerate_from start l)).
Proof.
  revert start. induction l as [| x l IH]; intros start; simpl; constructor.
  - intros H. apply enumerate_from_fst_In in H. lia.
  - apply IH.
Qed.

Lemma enumerate_from_snd (A : Type) (start : Z) (l : list A) :
  map snd (enumerate_from start l) = l.
Proof.
  revert start. induction l as [| x l IH]; intros start; simpl;
    [reflexivity | rewrite IH; reflexivity].
Qed.


(** The dictionary [{key(i): v}] over an enumeration, built entry by
    entry from the empty dictionary. *)
Lemma fold_set_enumerate (key : Z -> arg_id) (l : list dtype_value) :
  (forall i j, key i = key j -> i = j) ->
  fold_left (fun d iv => Dict.set arg_id_eqb (key (fst iv)) (snd iv) d)
            (enumerate_from 0 l) (Dict.empty arg_id dtype_value)
  = map (fun iv => (key (fst iv), snd iv)) (enumerate_from 0 l).
Proof.
  intros Inj.
  assert (E : forall (kvs : list (Z * dtype_value)) d,
             fold_left (fun d iv => Dict.set arg_id_eqb (key (fst iv)) (snd iv) d) kvs d
             = fold_left (fun acc kv => Dict.set arg_id_eqb (fst kv) (snd kv) acc)
                         (map (fun iv => (key (fst iv), snd iv)) kvs) d).
  { induction kvs as [| kv kvs IH]; intros d; simpl; [reflexivity | apply IH]. }
  rewrite E, (fold_set_fresh arg_id_eqb arg_id_eqb_eq); [reflexivity | |].
  - rewrite map_map. cbn [fst].
    rewrite <- (map_map fst key). apply Injective_map_NoDup; [exact Inj |].
    apply enumerate_from_fst_NoDup.
  - intros k _. reflexivity.
Qed.

(** The map built from a mangle result, entry by entry. *)
Lemma mangled_arg_id_to_dtype_entries (info : CallMangleInfo) :
  mangled_arg_id_to_dtype info
  = map (fun iv => (Pos (fst iv), snd iv)) (enumerate_from 0 (arg_dtypes info)) ++
    map (fun iv => (Pos (- fst iv - 1), snd iv))
        (enumerate_from 0 (result_dtypes info)).
Proof.
  unfold mangled_arg_id_to_dtype, Dict.update.
  rewrite (fold_set_enumerate Pos) by (intros i j E; inversion E; reflexivity).
  rewrite (fold_set_enumerate (fun i => Pos (- i - 1)))
    by (intros i j E; inversion E; lia).
  apply (fold_set_fresh arg_id_eqb arg_id_eqb_eq).
  - rewrite map_map. cbn [fst].
    rewrite <- (map_map fst (fun i => Pos (- i - 1))).
    apply Injective_map_NoDup; [intros i j E; inversion E; lia |].
    apply enumerate_from_fst_NoDup.
  - intros k Hk. rewrite map_map in Hk. cbn [fst] in Hk.
    apply in_map_iff in Hk. destruct Hk as ([i v] & <- & Hin). cbn [fst].
    apply (get_None_not_In arg_id_eqb arg_id_eqb_eq).
    unfold Dict.keys. rewrite map_map. cbn [fst]. intros F.
    apply in_map_iff in F. destruct F as ([j w] & E & Hj). cbn [fst] in E.
    inversion E as [E'].
    assert (Hi : In i (map fst (enumerate_from 0 (result_dtypes info))))
      by (apply in_map_iff; exists (i, v); auto).
    assert (Hj' : In j (map fst (enumerate_from 0 (arg_dtypes info))))
      by (apply in_map_iff; exists (j, w); auto).
    apply enumerate_from_fst_In in Hi. apply enumerate_from_fst_In in Hj'. lia.
Qed.

Lemma mangled_keys_NoDup (info : CallMangleInfo) :
  NoDup (Dict.keys (mangled_arg_id_to_dtype info)).
Proof.
  rewrite mangled_arg_id_to_dtype_entries. unfold Dict.keys.
  rewrite map_app, !map_map. cbn [fst].
  rewrite <- (map_map fst Pos), <- (map_map fst (fun i => Pos (- i - 1))).
  apply NoDup_app.
  - apply Injective_map_NoDup; [intros i j E; inversion E; reflexivity |].
    apply enumerate_from_fst_NoDup.
  - apply Injective_map_NoDup; [intros i j E; inversion E; lia |].
    apply enumerate_from_fst_NoDup.
  - intros k Hk F. apply in_map_iff in Hk. apply in_map_iff in F.
    destruct Hk as (i & <- & Hi). destruct F as (j & E & Hj).
    apply enumerate_from_fst_In in Hi. apply enumerate_from_fst_In in Hj.
    inversion E. lia.
Qed.




Lemma int_keys_Pos (zs : list Z) : int_keys (map Pos zs) = Ok zs.
Proof.
  unfold int_keys. induction zs as [| z zs IH]; [reflexivity |].
  cbn [map mapM bind].
  change ((fix go (l : list arg_id) : result (list Z) :=
             match l with
             | [] => Ok []
             | x :: l' =>
                 bind match x with Pos i => Ok i | Kw _ => Raise TypeError end
                      (fun y => bind (go l') (fun ys => Ok (y :: ys)))
             end) (map Pos zs))
    with (mapM (fun id => match id with Pos i => Ok i | Kw _ => Raise TypeError end)
               (map Pos zs)).
  rewrite IH. reflexivity.
Qed.

Lemma filter_insert_sorted (x : Z) (l : list Z) :
  filter (fun key => 0 <=? key) (insert_sorted x l)
  = if 0 <=? x then insert_sorted x (filter (fun key => 0 <=? key) l)
    else filter (fun key => 0 <=? key) l.
Proof.
  induction l as [| y l IH]; simpl.
  - destruct (0 <=? x); reflexivity.
  - destruct (x <=? y) eqn:Exy; simpl.
    + destruct (0 <=? x) eqn:Ex; [| reflexivity].
      assert (Ey : (0 <=? y) = true) by (apply Z.leb_le; apply Z.leb_le in Exy, Ex; lia).
      rewrite Ey. simpl. rewrite Exy. reflexivity.
    + rewrite IH. destruct (0 <=? y); destruct (0 <=? x); simpl;
        try rewrite Exy; reflexivity.
Qed.

Lemma filter_sort_ints (l : list Z) :
  filter (fun key => 0 <=? key) (sort_ints l)
  = sort_ints (filter (fun key => 0 <=? key) l).
Proof.
  unfold sort_ints. induction l as [| x l IH]; simpl; [reflexivity |].
  rewrite filter_insert_sorted, IH. destruct (0 <=? x); reflexivity.
Qed.

Lemma sort_ints_enumerate (A : Type) (start : Z) (l : list A) :
  sort_ints (map fst (enumerate_from start l)) = map fst (enumerate_from start l).
Proof.
  revert start. induction l as [| x l IH]; intros start; [reflexivity |].
  cbn [enumerate_from map fst]. unfold sort_ints in *. cbn [fold_right].
  rewrite IH. destruct l as [| y l]; [reflexivity |].
  cbn [enumerate_from map fst insert_sorted].
  replace (start <=? start + 1) with true by (symmetry; apply Z.leb_le; lia).
  reflexivity.
Qed.

Lemma mapM_getitem (D : dtype_map) (E : list (Z * dtype_value)) :
  (forall i v, In (i, v) E -> Dict.get arg_id_eqb (Pos i) D = Some v) ->
  mapM (fun key => Dict.getitem arg_id_eqb (Pos key) D) (map fst E) = Ok (map snd E).
Proof.
  induction E as [| [i v] E IH]; intros H; [reflexivity |].
  cbn [map mapM fst snd]. unfold Dict.getitem at 1.
  rewrite (H i v (or_introl eq_refl)). cbn [bind].
  change ((fix go (l : list Z) : result (list dtype_value) :=
             match l with
             | [] => Ok []
             | x :: l' =>
                 bind (Dict.getitem arg_id_eqb (Pos x) D)
                      (fun y => bind (go l') (fun ys => Ok (y :: ys)))
             end) (map fst E))
    with (mapM (fun key => Dict.getitem arg_id_eqb (Pos key) D) (map fst E)).
  rewrite IH; [reflexivity |]. intros j w Hj. apply H. right. exact Hj.
Qed.

Lemma filter_none (A : Type) (f : A -> bool) (l : list A) :
  (forall x, In x l -> f x = false) -> filter f l = [].
Proof.
  induction l as [| x l IH]; intros H; [reflexivity |].
  simpl. rewrite (H x (or_introl eq_refl)). apply IH.
  intros y Hy. apply H. right. exact Hy.
Qed.

(** Read back in the order of its non-negative ids, the map built from a
    mangle result gives the mangler's argument types. *)
Lemma sorted_input_dtypes_mangled (info : CallMangleInfo) :
  sorted_input_dtypes (mangled_arg_id_to_dtype info) = Ok (arg_dtypes info).
Proof.
  unfold sorted_input_dtypes.
  assert (ND := mangled_keys_NoDup info).
  assert (Keys : Dict.keys (mangled_arg_id_to_dtype info)
                 = map Pos (map fst (enumerate_from 0 (arg_dtypes info)) ++
                            map (fun i => - i - 1)
                                (map fst (enumerate_from 0 (result_dtypes info))))).
  { rewrite mangled_arg_id_to_dtype_entries. unfold Dict.keys.
    rewrite !map_app, !map_map. reflexivity. }
  rewrite Keys, int_keys_Pos. cbn [bind].
  rewrite filter_sort_ints, filter_app.
  assert (F1 : filter (fun key => 0 <=? key)
                      (map fst (enumerate_from 0 (arg_dtypes info)))
               = map fst (enumerate_from 0 (arg_dtypes info))).
  { apply forallb_filter_id. apply forallb_forall. intros i Hi.
    apply enumerate_from_fst_In in Hi. apply Z.leb_le. lia. }
  assert (F2 : filter (fun key => 0 <=? key)
                      (map (fun i => - i - 1)
                           (map fst (enumerate_from 0 (result_dtypes info))))
               = []).
  { apply filter_none. intros x Hx. apply in_map_iff in Hx.
    destruct Hx as (i & <- & Hi). apply enumerate_from_fst_In in Hi.
    apply Z.leb_gt. lia. }
  rewrite F1, F2, app_nil_r, sort_ints_enumerate.
  rewrite mapM_getitem; [rewrite enumerate_from_snd; reflexivity |].
  intros i v Hin. apply (In_get_Some arg_id_eqb arg_id_eqb_eq _ _ _ ND).
  rewrite mangled_arg_id_to_dtype_entries. apply in_or_app. left.
  apply in_map_iff. exists (i, v). auto.
Qed.


(** X17: after a successful [ManglerCallable.with_types], [mangle_result]
    on the new callable asks the same mangler, under the same name, about
    exactly the argument types that the mangler had answered with: the
    stored type map reads back, in the order of its non-negative ids, as
    the mangler's own argument types. *)
Theorem ManglerCallable_mangle_result_round_trip
  (ext : External) (self new_self : ManglerCallable) (arg_id_to_dtype : dtype_map)
  (kernel : LoopKernel) :
  ManglerCallable_with_types ext self arg_id_to_dtype kernel = Ok new_self ->
  exists known info,
    sorted_input_dtypes arg_id_to_dtype = Ok known /\
    manglers ext (function_mangler self) (mc_name self) known = Ok (Some info) /\
    ManglerCallable_mangle_result ext new_self kernel
    = manglers ext (function_mangler self) (mc_name self) (arg_dtypes info).
Proof.
  unfold ManglerCallable_with_types.
  destruct (check_already_specialized (mc_arg_id_to_dtype self) arg_id_to_dtype)
    as [[] | e]; cbn [bind]; [| discriminate].
  destruct (sorted_input_dtypes arg_id_to_dtype) as [ts | e]; cbn [bind];
    [| discriminate].
  destruct (manglers ext (function_mangler self) (mc_name self) ts)
    as [[info |] | e] eqn:M; cbn [bind]; try discriminate.
  intros H. inversion H; subst new_self. clear H.
  exists ts, info. split; [reflexivity |]. split; [exact M |].
  unfold ManglerCallable_mangle_result. cbn [mc_arg_id_to_dtype function_mangler mc_name].
  rewrite sorted_input_dtypes_mangled. reflexivity.
Qed.

Lemma ManglerCallable_mangle_result_round_trip_witness :
  exists known info,
    sorted_input_dtypes [(Pos 0, Some float32)] = Ok known /\
    sincos_mangler "sincos" known = Ok (Some info) /\
    ManglerCallable_mangle_result sincos_external
      {| mc_name := "sincos"; function_mangler := 0%nat;
         mc_arg_id_to_dtype :=
           Some [(Pos 0, Some float32); (Pos (-1), Some float32);
                 (Pos (-2), Some float32)];
         mc_arg_id_to_descr := None; mc_name_in_target := Some "sincos" |}
      laplace_kernel
    = sincos_mangler "sincos" (arg_dtypes info).
Proof.
  apply (ManglerCallable_mangle_result_round_trip sincos_external
           fresh_sincos_mangler _ [(Pos 0, Some float32)] laplace_kernel eq_refl).
Defined.

(** ** The id resolver, continued *)

Lemma scan_ids_In (k : LoopKernel) (l : list KernelArgument) (r w id : Z) :
  In id (scan_ids k l r w) <->
  r <= id < r + count_inputs k l \/ w - count_outputs k l < id <= w.
Proof.
  revert r w. induction l as [| a l IH]; intros r w.
  - unfold count_inputs, count_outputs. simpl. lia.
  - assert (L : forall (x : KernelArgument) (m : list KernelArgument),
               Z.of_nat (List.length (x :: m)) = 1 + Z.of_nat (List.length m)).
    { intros x m. change (List.length (x :: m)) with (S (List.length m)). lia. }
    unfold count_inputs, count_outputs in *. cbn [scan_ids filter].
    destruct (is_written k (arg_name a)); cbn [negb In]; rewrite IH, ?L; lia.
Qed.

Lemma pos_to_kw_fold (k : LoopKernel) (l : list KernelArgument) (st : kw_pos_state) :
  (forall id, In id (Dict.keys (pos_to_kw st)) ->
              write_count st < id < read_count st) ->
  write_count st < read_count st ->
  pos_to_kw (fold_left (kw_pos_step k) l st) =
    pos_to_kw st ++
    combine (scan_ids k l (read_count st) (write_count st)) (map arg_name l).
Proof.
  revert st. induction l as [| a l IH]; intros st Hpk Hwr; simpl.
  - rewrite app_nil_r. reflexivity.
  - assert (Hr : Dict.get Z.eqb (read_count st) (pos_to_kw st) = None).
    { apply (get_None_not_In Z.eqb Z.eqb_eq). intros H. apply Hpk in H. lia. }
    assert (Hw : Dict.get Z.eqb (write_count st) (pos_to_kw st) = None).
    { apply (get_None_not_In Z.eqb Z.eqb_eq). intros H. apply Hpk in H. lia. }
    unfold kw_pos_step at 2.
    destruct (negb (is_written k (arg_name a))) eqn:E.
    + rewrite IH; cbn [pos_to_kw read_count write_count].
      * rewrite (set_fresh Z.eqb _ _ _ Hr), <- app_assoc. reflexivity.
      * rewrite (set_fresh Z.eqb _ _ _ Hr). intros id. unfold Dict.keys.
        rewrite map_app. simpl. intros H.
        apply in_app_or in H. destruct H as [H | [H | []]];
          [apply Hpk in H; lia | lia].
      * lia.
    + rewrite IH; cbn [pos_to_kw read_count write_count].
      * rewrite (set_fresh Z.eqb _ _ _ Hw), <- app_assoc. reflexivity.
      * rewrite (set_fresh Z.eqb _ _ _ Hw). intros id. unfold Dict.keys.
        rewrite map_app. simpl. intros H.
        apply in_app_or in H. destruct H as [H | [H | []]];
          [apply Hpk in H; lia | lia].
      * lia.
Qed.

(** X18: on every kernel, also one whose argument names repeat, the
    id-to-name map of the resolver has one entry per argument, in
    declaration order, and its ids leave no gap: an id is assigned exactly
    if it lies between minus the number of written arguments and the
    number of the other arguments (excluded). *)
Theorem pos_to_kw_ids_contiguous (k : LoopKernel) :
  map snd (snd (get_kw_pos_association k)) = map arg_name (args k) /\
  forall id,
    Dict.mem Z.eqb id (snd (get_kw_pos_association k)) = true <->
    - count_outputs k (args k) <= id < count_inputs k (args k).
Proof.
  unfold get_kw_pos_association. cbn [snd].
  rewrite (pos_to_kw_fold k (args k) kw_pos_init);
    [| intros id [] | simpl; lia].
  cbn [pos_to_kw kw_pos_init read_count write_count app].
  assert (L : List.length (scan_ids k (args k) 0 (-1))
              = List.length (map arg_name (args k)))
    by (rewrite scan_ids_length, length_map; reflexivity).
  assert (Ci : 0 <= count_inputs k (args k)) by (unfold count_inputs; lia).
  assert (Co : 0 <= count_outputs k (args k)) by (unfold count_outputs; lia).
  split.
  - revert L. generalize (scan_ids k (args k) 0 (-1)) (map arg_name (args k)).
    induction l as [| i l IH]; intros [| n names]; simpl; try discriminate;
      [reflexivity |].
    intros H. f_equal. apply IH. lia.
  - intros id. rewrite mem_get. split.
    + intros [v G]. apply (get_Some_In Z.eqb Z.eqb_eq) in G.
      apply In_combine_l in G. apply scan_ids_In in G. lia.
    + intros H.
      assert (Hin : In id (scan_ids k (args k) 0 (-1))) by (apply scan_ids_In; lia).
      rewrite <- (keys_combine _ _ _ _ L) in Hin.
      destruct (Dict.get Z.eqb id
                  (combine (scan_ids k (args k) 0 (-1)) (map arg_name (args k))))
        as [v |] eqn:G; [eauto |].
      apply (get_None_not_In Z.eqb Z.eqb_eq) in G. contradiction.
Qed.


(** ** Descriptors by keyword *)

Lemma count_inputs_all (k : LoopKernel) (l : list KernelArgument) :
  (forall a, In a l -> is_written k (arg_name a) = false) ->
  count_inputs k l = Z.of_nat (List.length l) /\ count_outputs k l = 0.
Proof.
  unfold count_inputs, count_outputs. induction l as [| a l IH]; intros H;
    [split; reflexivity |].
  cbn [filter]. rewrite (H a (or_introl eq_refl)). cbn [negb].
  destruct IH as [I1 I2]; [intros b Hb; apply H; right; exact Hb |].
  split.
  - change (List.length (a :: filter (fun a0 => negb (is_written k (arg_name a0))) l))
      with (S (List.length (filter (fun a0 => negb (is_written k (arg_name a0))) l))).
    change (List.length (a :: l)) with (S (List.length l)). lia.
  - exact I2.
Qed.

Lemma list_getitem_nth (A : Type) (l1 l2 : list A) (a : A) (i : Z) :
  i = Z.of_nat (List.length l1) \/
  i = Z.of_nat (List.length l1) - Z.of_nat (List.length (l1 ++ a :: l2)) ->
  list_getitem (l1 ++ a :: l2) i = Ok a.
Proof.
  intros Hi. unfold list_getitem. cbv zeta.
  assert (Ln : Z.of_nat (List.length (l1 ++ a :: l2))
               = Z.of_nat (List.length l1) + 1 + Z.of_nat (List.length l2)).
  { rewrite length_app. change (List.length (a :: l2)) with (S (List.length l2)). lia. }
  set (n := Z.of_nat (List.length (l1 ++ a :: l2))) in *.
  set (j := if i <? 0 then i + n else i).
  assert (Hj : j = Z.of_nat (List.length l1)).
  { unfold j. destruct Hi as [-> | ->].
    - replace (Z.of_nat (List.length l1) <? 0) with false
        by (symmetry; apply Z.ltb_ge; lia). reflexivity.
    - replace (Z.of_nat (List.length l1) - n <? 0) with true
        by (symmetry; apply Z.ltb_lt; lia). lia. }
  rewrite Hj.
  replace (Z.of_nat (List.length l1) <? 0) with false
    by (symmetry; apply Z.ltb_ge; lia).
  replace (n <=? Z.of_nat (List.length l1)) with false
    by (symmetry; apply Z.leb_gt; lia).
  cbn [orb]. rewrite Nat2Z.id, nth_error_app2 by lia.
  rewrite Nat.sub_diag. reflexivity.
Qed.

(** X19: on a kernel whose argument names are pairwise distinct and that
    declares its inputs first and then at most one written argument, the
    id the resolver gives an argument, used as an index into the argument
    list the way [CallableKernel.with_descrs] uses it ([new_args[id]], a
    negative id counting from the end), reaches that very argument. *)
Theorem resolver_id_indexes_argument (k : LoopKernel) (a : KernelArgument) :
  NoDup (map arg_name (args k)) ->
  inputs_then_one_output k ->
  In a (args k) ->
  exists pos,
    Dict.get String.eqb (arg_name a) (fst (get_kw_pos_association k)) = Some pos /\
    list_getitem (args k) pos = Ok a.
Proof.
  intros N (ins & outs & E & Hins & Houts & Hlen) Hin.
  rewrite (get_kw_pos_association_combine k N). cbn [fst].
  assert (Nk : NoDup (Dict.keys (combine (map arg_name (args k))
                                         (scan_ids k (args k) 0 (-1))))).
  { rewrite keys_combine; [exact N |].
    rewrite scan_ids_length, length_map. reflexivity. }
  assert (G : forall l1 l2,
             args k = l1 ++ a :: l2 ->
             Dict.get String.eqb (arg_name a)
               (combine (map arg_name (args k)) (scan_ids k (args k) 0 (-1)))
             = Some (if is_written k (arg_name a)
                     then -1 - count_outputs k l1 else count_inputs k l1)).
  { intros l1 l2 El. apply (In_get_Some String.eqb String.eqb_eq); [exact Nk |].
    rewrite El, map_app, scan_ids_app.
    rewrite combine_app_same by (rewrite scan_ids_length, length_map; reflexivity).
    apply in_or_app. right. simpl.
    destruct (is_written k (arg_name a)); simpl; left; f_equal; lia. }
  rewrite E in Hin. apply in_app_or in Hin. destruct Hin as [Hi | Ho].
  - apply in_split in Hi. destruct Hi as (l1 & l2 & ->).
    assert (El : args k = l1 ++ a :: (l2 ++ outs))
      by (rewrite E, <- app_assoc; reflexivity).
    eexists. split; [apply (G _ _ El) |].
    rewrite (Hins a) by (apply in_or_app; right; left; reflexivity).
    destruct (count_inputs_all k l1) as [C _].
    { intros b Hb. apply Hins. apply in_or_app. left. exact Hb. }
    rewrite C, El. apply list_getitem_nth. left. reflexivity.
  - destruct outs as [| o [| o' outs']]; [destruct Ho | | simpl in Hlen; lia].
    destruct Ho as [-> | []].
    assert (El : args k = ins ++ a :: []) by exact E.
    eexists. split; [apply (G _ _ El) |].
    rewrite (Houts a) by (left; reflexivity).
    destruct (count_inputs_all k ins Hins) as [_ C].
    rewrite C, El. apply list_getitem_nth. right.
    rewrite length_app. simpl. lia.
Qed.

Lemma resolver_id_indexes_argument_witness :
  exists pos,
    Dict.get String.eqb "lap" (fst (get_kw_pos_association laplace_kernel)) = Some pos /\
    list_getitem (args laplace_kernel) pos
    = Ok {| arg_name := "lap"; arg_dtype := Some float32;
            arg_shape := PyTuple [PyVar "K"; PyInt 8];
            arg_dim_tags := PyNone |}.
Proof.
  apply (resolver_id_indexes_argument laplace_kernel
           {| arg_name := "lap"; arg_dtype := Some float32;
              arg_shape := PyTuple [PyVar "K"; PyInt 8];
              arg_dim_tags := PyNone |}).
  - simpl. repeat constructor; simpl; intuition discriminate.
  - exists (firstn 2 (args laplace_kernel)), (skipn 2 (args laplace_kernel)).
    split; [reflexivity |]. split; [| split].
    + intros a [<- | [<- | []]]; reflexivity.
    + intros a [<- | []]; reflexivity.
    + simpl. lia.
  - simpl. auto.
Defined.

(** Without that layout the id misses: on a kernel that declares its
    written argument first, the descriptor passed for the input [x] lands
    on the written argument [y]. *)
Lemma with_descrs_by_keyword_misses :
  exists new_self,
    CallableKernel_with_descrs
      {| subkernel := scale_kernel; ck_arg_id_to_dtype := None;
         ck_arg_id_to_descr := None; ck_name_in_target := None |}
      [(Kw "x", descr16)] = Ok new_self /\
    map (fun a => (arg_name a, arg_shape a)) (args (subkernel new_self))
    = [("y", PyTuple [PyInt 16]); ("x", PyTuple [PyInt 8])].
Proof. eexists. split; reflexivity. Qed.


(** ** The call emitted for a kernel callable *)

Lemma mapM_Forall2 (A B : Type) (f : A -> result B) (l : list A) (r : list B) :
  mapM f l = Ok r -> Forall2 (fun x y => f x = Ok y) l r.
Proof.
  revert r. induction l as [| x l IH]; intros r H.
  - injection H as <-. constructor.
  - cbn [mapM] in H. apply bind_Ok_inv in H. destruct H as (y & Hy & H).
    apply bind_Ok_inv in H. destruct H as (ys & Hys & H).
    injection H as <-. constructor; [exact Hy | apply IH; exact Hys].
Qed.

Lemma Forall2_nth_error_l (A B : Type) (R : A -> B -> Prop) (l : list A)
  (r : list B) (i : nat) (x : A) :
  Forall2 R l r -> nth_error l i = Some x ->
  exists y, nth_error r i = Some y /\ R x y.
Proof.
  intros F. revert i. induction F as [| a b l r Hab F IH]; intros [| i] H;
    try discriminate.
  - injection H as <-. exists b. split; [reflexivity | exact Hab].
  - apply (IH i H).
Qed.

Lemma Forall2_nth_error_r (A B : Type) (R : A -> B -> Prop) (l : list A)
  (r : list B) (i : nat) (y : B) :
  Forall2 R l r -> nth_error r i = Some y ->
  exists x, nth_error l i = Some x /\ R x y.
Proof.
  intros F. revert i. induction F as [| a b l r Hab F IH]; intros [| i] H;
    try discriminate.
  - injection H as <-. exists a. split; [reflexivity | exact Hab].
  - apply (IH i H).
Qed.

Lemma Forall2_length_eq (A B : Type) (R : A -> B -> Prop) (l : list A) (r : list B) :
  Forall2 R l r -> List.length r = List.length l.
Proof. induction 1; simpl; congruence. Qed.

Lemma Forall2_map_Some (A B : Type) (g : B -> option A) (l : list A) (r : list B) :
  Forall2 (fun i x => g x = Some i) l r -> map g r = map Some l.
Proof. induction 1 as [| a b l r Hab F IH]; simpl; congruence. Qed.

Lemma nth_error_combine (A B : Type) (l1 : list A) (l2 : list B) (i : nat)
  (a : A) (b : B) :
  nth_error l1 i = Some a -> nth_error l2 i = Some b ->
  nth_error (combine l1 l2) i = Some (a, b).
Proof.
  revert l2 i. induction l1 as [| x l1 IH]; intros [| y l2] [| i] H1 H2;
    try discriminate.
  - injection H1 as <-. injection H2 as <-. reflexivity.
  - apply (IH l2 i H1 H2).
Qed.

Lemma enumerate_from_nth_error (A : Type) (start : Z) (l : list A) (i : nat) (x : A) :
  nth_error l i = Some x ->
  nth_error (enumerate_from start l) i = Some (start + Z.of_nat i, x).
Proof.
  revert start i. induction l as [| y l IH]; intros start [| i] H;
    try discriminate.
  - injection H as <-. cbn [enumerate_from nth_error]. do 2 f_equal. simpl. lia.
  - cbn [enumerate_from nth_error]. rewrite (IH (start + 1) i H).
    do 2 f_equal. lia.
Qed.

Lemma enumerate_from_length (A : Type) (start : Z) (l : list A) :
  List.length (enumerate_from start l) = List.length l.
Proof.
  revert start. induction l as [| x l IH]; intros start; simpl;
    [reflexivity | rewrite IH; reflexivity].
Qed.

Arguments mapM_Forall2 {A B} f l r _.
Arguments Forall2_nth_error_l {A B R l r} i {x} _ _.
Arguments Forall2_nth_error_r {A B R l r} i {y} _ _.
Arguments Forall2_length_eq {A B R l r} _.
Arguments Forall2_map_Some {A B} g l r _.
Arguments nth_error_combine {A B} l1 l2 i {a b} _ _.
Arguments enumerate_from_nth_error {A} start l i {x} _.
Arguments enumerate_from_length {A} start l.

Lemma subscript_dtype_Some (d : dtype_map) (id : arg_id) (t : dtype_value) :
  subscript_dtype (Some d) id = Ok t -> Dict.get arg_id_eqb id d = Some t.
Proof.
  unfold subscript_dtype, Dict.getitem.
  destruct (Dict.get arg_id_eqb id d); [congruence | discriminate].
Qed.

(** The loop over the keyword positions appends, for each position, the
    keyword parameter named there and the type recorded for that name. *)
Lemma append_kw_parameters_inv (self : CallableKernel) (pk : pos_to_kw_map)
  (kwp : Dict.t string expr) (l : list Z) :
  forall ps ts ps' ts',
    foldM (append_kw_parameter self pk kwp) l (ps, ts) = Ok (ps', ts') ->
    exists r : list (string * (expr * dtype_value)),
      ps' = ps ++ map (fun x => fst (snd x)) r /\
      ts' = ts ++ map (fun x => snd (snd x)) r /\
      Forall2 (fun i x =>
                 Dict.get Z.eqb i pk = Some (fst x) /\
                 Dict.get String.eqb (fst x) kwp = Some (fst (snd x)) /\
                 subscript_dtype (ck_arg_id_to_dtype self) (Kw (fst x))
                 = Ok (snd (snd x))) l r.
Proof.
  induction l as [| i l IH]; intros ps ts ps' ts' H.
  - injection H as <- <-. exists []. cbn [map]. rewrite !app_nil_r.
    repeat split. constructor.
  - cbn [foldM] in H. apply bind_Ok_inv in H. destruct H as ([ps1 ts1] & S & H).
    unfold append_kw_parameter, Dict.getitem in S.
    destruct (Dict.get Z.eqb i pk) as [s |] eqn:E1; [| discriminate].
    cbn [bind] in S.
    destruct (Dict.get String.eqb s kwp) as [p |] eqn:E2; [| discriminate].
    cbn [bind] in S.
    destruct (subscript_dtype (ck_arg_id_to_dtype self) (Kw s)) as [t | e] eqn:E3;
      [| discriminate].
    cbn [bind] in S. injection S as <- <-.
    apply IH in H. destruct H as (r & -> & -> & F).
    exists ((s, (p, t)) :: r). rewrite <- !app_assoc. cbn [map fst snd app].
    repeat split. constructor; [| exact F]. cbn [fst snd]. auto.
Qed.

Lemma pos_to_kw_inverse (k : LoopKernel) (i : Z) (s : string) :
  NoDup (map arg_name (args k)) ->
  Dict.get Z.eqb i (snd (get_kw_pos_association k)) = Some s ->
  Dict.get String.eqb s (fst (get_kw_pos_association k)) = Some i.
Proof.
  intros N. rewrite (get_kw_pos_association_combine k N). cbn [fst snd]. intros H.
  apply (In_get_Some String.eqb String.eqb_eq).
  - rewrite keys_combine; [exact N |].
    rewrite scan_ids_length, length_map. reflexivity.
  - apply In_combine_swap. apply (get_Some_In Z.eqb Z.eqb_eq). exact H.
Qed.

(** X20: the call that a successful [CallableKernel.emit_call_insn] emits
    on a subkernel with pairwise distinct argument names is to the
    callable's target name and has one argument per positional parameter,
    keyword parameter and assignee.  The positional parameters come first,
    the [i]-th translated at the type of id [i]; every keyword parameter
    stands at the position the resolver gives its name, which lies right
    after the positional ones, translated at the type recorded for its
    name; the assignees come last, the [i]-th translated at the type of id
    [-(i+1)]. *)
Theorem CallableKernel_emit_call_insn_layout
  (cexpr : Type) (to_code : expr -> dtype_value -> result cexpr)
  (self : CallableKernel) (insn : CallInstruction)
  (kw_parameters : Dict.t string expr) (call : c_call cexpr) :
  NoDup (map arg_name (args (subkernel self))) ->
  kw_parameters = match insn_kw_parameters insn with Some kw => kw | None => [] end ->
  NoDup (Dict.keys kw_parameters) ->
  CallableKernel_emit_call_insn to_code self (CallInsn insn) = Ok call ->
  exists arg_id_to_dtype name,
    ck_arg_id_to_dtype self = Some arg_id_to_dtype /\
    ck_name_in_target self = Some name /\
    c_function call = Some name /\
    List.length (c_parameters call)
    = (List.length (insn_parameters insn) + List.length kw_parameters
       + List.length (insn_assignees insn))%nat /\
    (forall i par,
        nth_error (insn_parameters insn) i = Some par ->
        exists dtype c,
          Dict.get arg_id_eqb (Pos (Z.of_nat i)) arg_id_to_dtype = Some dtype /\
          to_code par dtype = Ok c /\
          nth_error (c_parameters call) i = Some c) /\
    (forall kw par,
        In (kw, par) kw_parameters ->
        exists pos dtype c,
          Dict.get String.eqb kw (fst (get_kw_pos_association (subkernel self)))
            = Some pos /\
          Z.of_nat (List.length (insn_parameters insn)) <= pos
            < Z.of_nat (List.length (insn_parameters insn)
                        + List.length kw_parameters) /\
          Dict.get arg_id_eqb (Kw kw) arg_id_to_dtype = Some dtype /\
          to_code par dtype = Ok c /\
          nth_error (c_parameters call) (Z.to_nat pos) = Some c) /\
    (forall i a,
        nth_error (insn_assignees insn) i = Some a ->
        exists dtype c,
          Dict.get arg_id_eqb (Pos (- Z.of_nat i - 1)) arg_id_to_dtype = Some dtype /\
          to_code a dtype = Ok c /\
          nth_error (c_parameters call)
            (List.length (insn_parameters insn) + List.length kw_parameters + i)
          = Some c).
Proof.
  intros N Ekw Nkw H.
  unfold CallableKernel_emit_call_insn in H. cbv zeta in H. rewrite <- Ekw in H.
  apply bind_Ok_inv in H. destruct H as (u & Hready & H).
  unfold py_assert, CallableKernel_is_ready_for_codegen in Hready.
  destruct (ck_arg_id_to_dtype self) as [d |] eqn:Ed; [| discriminate].
  destruct (ck_arg_id_to_descr self) as [ds |]; [| discriminate].
  destruct (ck_name_in_target self) as [name |] eqn:En; [| discriminate].
  clear Hready u.
  apply bind_Ok_inv in H. destruct H as (pd & Hpd & H).
  apply bind_Ok_inv in H. destruct H as ([ps' ts'] & Hst & H).
  apply bind_Ok_inv in H. destruct H as (ad & Had & H).
  apply bind_Ok_inv in H. destruct H as (cs & Hcs & H).
  injection H as <-. cbn [c_function c_parameters].
  set (ps := insn_parameters insn) in *.
  set (asg := insn_assignees insn) in *.
  set (n := List.length ps) in *.
  set (m := List.length kw_parameters) in *.
  apply mapM_Forall2 in Hpd, Had, Hcs.
  apply append_kw_parameters_inv in Hst. destruct Hst as (r & -> & -> & F).
  set (qs := map (fun x : string * (expr * dtype_value) => fst (snd x)) r) in *.
  set (us := map (fun x : string * (expr * dtype_value) => snd (snd x)) r) in *.
  assert (Lpd : List.length pd = n).
  { rewrite (Forall2_length_eq Hpd). apply enumerate_from_length. }
  assert (Lad : List.length ad = List.length asg).
  { rewrite (Forall2_length_eq Had). apply enumerate_from_length. }
  assert (Lr : List.length r = m).
  { rewrite (Forall2_length_eq F), length_map. unfold py_range.
    rewrite length_map, length_seq. reflexivity. }
  assert (Lqs : List.length qs = m) by (unfold qs; rewrite length_map; exact Lr).
  assert (Lus : List.length us = m) by (unfold us; rewrite length_map; exact Lr).
  (* what stands at an index of the emitted call *)
  assert (At : forall i p t,
             nth_error ((ps ++ qs) ++ asg) i = Some p ->
             nth_error ((pd ++ us) ++ ad) i = Some t ->
             exists c, to_code p t = Ok c /\ nth_error cs i = Some c).
  { intros i p t Hp Ht.
    destruct (Forall2_nth_error_l i Hcs (nth_error_combine _ _ i Hp Ht))
      as (c & Hc & Hpc).
    exists c. split; [exact Hpc | exact Hc]. }
  (* the keyword found at each position *)
  assert (Fi : forall j x, nth_error r j = Some x ->
             Dict.get String.eqb (fst x)
               (fst (get_kw_pos_association (subkernel self)))
             = Some (Z.of_nat n + Z.of_nat j) /\
             Dict.get String.eqb (fst x) kw_parameters = Some (fst (snd x)) /\
             Dict.get arg_id_eqb (Kw (fst x)) d = Some (snd (snd x)) /\
             (j < m)%nat).
  { intros j x Hx.
    destruct (Forall2_nth_error_r j F Hx) as (i & Hi & G1 & G2 & G3).
    assert (Hj : (j < m)%nat).
    { rewrite <- Lr. apply nth_error_Some. rewrite Hx. discriminate. }
    assert (Ei : i = Z.of_nat n + Z.of_nat j).
    { unfold py_range in Hi. rewrite !nth_error_map in Hi.
      rewrite (nth_error_nth' (seq 0 m) 0%nat) in Hi
        by (rewrite length_seq; exact Hj).
      rewrite seq_nth in Hi by exact Hj. cbn in Hi. congruence. }
    subst i. repeat split.
    - apply (pos_to_kw_inverse _ _ _ N G1).
    - exact G2.
    - apply subscript_dtype_Some. rewrite <- Ed. exact G3.
    - exact Hj. }
  exists d, name. repeat split.
  - rewrite (Forall2_length_eq Hcs), length_combine, !length_app.
    rewrite Lpd, Lqs, Lus, Lad. fold n. lia.
  - (* positional parameters *)
    intros i par Hi.
    destruct (Forall2_nth_error_l i Hpd (enumerate_from_nth_error 0 ps i Hi))
      as (dtype & Hdt & Hsub).
    cbn [fst] in Hsub. rewrite Z.add_0_l in Hsub.
    assert (Li : (i < n)%nat) by (apply nth_error_Some; rewrite Hi; discriminate).
    destruct (At i par dtype) as (c & Hc & Hnth).
    + rewrite nth_error_app1 by (rewrite length_app; fold n; lia).
      rewrite nth_error_app1 by (fold n; lia). exact Hi.
    + rewrite nth_error_app1 by (rewrite length_app, Lpd; lia).
      rewrite nth_error_app1 by (rewrite Lpd; lia). exact Hdt.
    + exists dtype, c. repeat split;
        [apply subscript_dtype_Some; exact Hsub | exact Hc | exact Hnth].
  - (* keyword parameters *)
    intros kw par Hin.
    set (names := map (fun x : string * (expr * dtype_value) => fst x) r).
    assert (Nn : NoDup names).
    { apply (NoDup_map_inv
               (fun s => Dict.get String.eqb s
                           (fst (get_kw_pos_association (subkernel self))))).
      unfold names. rewrite map_map.
      rewrite (Forall2_map_Some
                 (fun x : string * (expr * dtype_value) =>
                    Dict.get String.eqb (fst x)
                      (fst (get_kw_pos_association (subkernel self))))
                 (map (fun j => Z.of_nat n + j) (py_range m)) r).
      - apply Injective_map_NoDup; [intros a b E; congruence |].
        apply Injective_map_NoDup; [intros a b E; lia | apply py_range_NoDup].
      - clear - F N. induction F as [| i x l r (G1 & _) F IH]; constructor.
        + apply (pos_to_kw_inverse _ _ _ N G1).
        + exact IH. }
    assert (In_keys : incl names (Dict.keys kw_parameters)).
    { intros s Hs. unfold names in Hs. apply in_map_iff in Hs.
      destruct Hs as (x & <- & Hx). apply In_nth_error in Hx.
      destruct Hx as (j & Hj). destruct (Fi j x Hj) as (_ & G2 & _).
      apply (get_Some_In String.eqb String.eqb_eq) in G2.
      unfold Dict.keys. apply in_map_iff. exists (fst x, fst (snd x)).
      split; [reflexivity | exact G2]. }
    assert (Keys_in : incl (Dict.keys kw_parameters) names).
    { apply NoDup_length_incl; [exact Nn | | exact In_keys].
      unfold names, Dict.keys. rewrite !length_map. fold m. lia. }
    assert (Hk : In kw names).
    { apply Keys_in. unfold Dict.keys. apply in_map_iff.
      exists (kw, par). split; [reflexivity | exact Hin]. }
    unfold names in Hk. apply in_map_iff in Hk. destruct Hk as (x & Ex & Hx).
    apply In_nth_error in Hx. destruct Hx as (j & Hj).
    destruct (Fi j x Hj) as (G1 & G2 & G3 & Lj). rewrite Ex in G1, G2, G3.
    rewrite (In_get_Some String.eqb String.eqb_eq _ _ _ Nkw Hin) in G2.
    injection G2 as G2.
    destruct (At (n + j)%nat par (snd (snd x))) as (c & Hc & Hnth).
    + rewrite nth_error_app1 by (rewrite length_app, Lqs; fold n; lia).
      rewrite nth_error_app2 by (fold n; lia).
      replace (n + j - List.length ps)%nat with j by (fold n; lia).
      unfold qs. rewrite nth_error_map, Hj. cbn. rewrite G2. reflexivity.
    + rewrite nth_error_app1 by (rewrite length_app, Lpd, Lus; lia).
      rewrite nth_error_app2 by (rewrite Lpd; lia).
      replace (n + j - List.length pd)%nat with j by (rewrite Lpd; lia).
      unfold us. rewrite nth_error_map, Hj. reflexivity.
    + exists (Z.of_nat n + Z.of_nat j), (snd (snd x)), c.
      repeat split; [exact G1 | lia | lia | exact G3 | exact Hc |].
      replace (Z.to_nat (Z.of_nat n + Z.of_nat j)) with (n + j)%nat by lia.
      exact Hnth.
  - (* assignees *)
    intros i a Hi.
    destruct (Forall2_nth_error_l i Had (enumerate_from_nth_error 0 asg i Hi))
      as (dtype & Hdt & Hsub).
    cbn [fst] in Hsub. rewrite Z.add_0_l in Hsub.
    destruct (At (n + m + i)%nat a dtype) as (c & Hc & Hnth).
    + rewrite nth_error_app2 by (rewrite length_app, Lqs; fold n; lia).
      rewrite length_app, Lqs. fold n.
      replace (n + m + i - (n + m))%nat with i by lia. exact Hi.
    + rewrite nth_error_app2 by (rewrite length_app, Lpd, Lus; lia).
      rewrite length_app, Lpd, Lus.
      replace (n + m + i - (n + m))%nat with i by lia. exact Hdt.
    + exists dtype, c. repeat split;
        [apply subscript_dtype_Some; exact Hsub | exact Hc | exact Hnth].
Qed.


Lemma CallableKernel_emit_call_insn_layout_witness :
  exists call,
    CallableKernel_emit_call_insn code_request laplace_ready (CallInsn laplace_insn)
    = Ok call /\
    c_function call = Some "laplace" /\
    exists pos dtype c,
      Dict.get String.eqb "u" (fst (get_kw_pos_association laplace_kernel))
        = Some pos /\
      1 <= pos < 2 /\
      code_request (Id (Variable_ "u")) dtype = Ok c /\
      nth_error (c_parameters call) (Z.to_nat pos) = Some c.
Proof.
  eexists. split; [reflexivity |].
  destruct (CallableKernel_emit_call_insn_layout _ code_request laplace_ready
              laplace_insn [("u", Id (Variable_ "u"))] _
              ltac:(repeat constructor; simpl; intuition discriminate) eq_refl
              ltac:(repeat constructor; simpl; tauto) eq_refl)
    as (d & name & Hd & Hn & Hf & _ & _ & Hk & _).
  split; [reflexivity |].
  destruct (Hk "u" (Id (Variable_ "u")) (or_introl eq_refl))
    as (pos & dtype & c & G1 & G2 & _ & G4 & G5).
  exists pos, dtype, c. repeat split; try assumption; simpl in G2; lia.
Defined.


(** ** The call emitted for a scalar callable *)

Lemma mapM_total (A B : Type) (f : A -> result B) (l : list A) :
  (forall x, In x l -> exists y, f x = Ok y) -> exists r, mapM f l = Ok r.
Proof.
  induction l as [| x l IH]; intros H; [exists []; reflexivity |].
  destruct (H x (or_introl eq_refl)) as (y & Hy).
  destruct IH as (r & Hr); [intros z Hz; apply H; right; exact Hz |].
  exists (y :: r). cbn [mapM].
  change ((fix go (l0 : list A) : result (list B) :=
             match l0 with
             | [] => Ok []
             | x0 :: l' => bind (f x0) (fun y0 => bind (go l') (fun ys => Ok (y0 :: ys)))
             end) l) with (mapM f l).
  rewrite Hy, Hr. reflexivity.
Qed.

(** [zip] of three sequences of which only the first and the last are
    used. *)
Lemma combine3_middle (A B C : Type) (l1 : list A) (l2 l2' : list B) (l3 : list C) :
  List.length l2 = List.length l1 -> List.length l2' = List.length l1 ->
  map (fun x => (fst (fst x), snd x)) (combine (combine l1 l2) l3)
  = map (fun x => (fst (fst x), snd x)) (combine (combine l1 l2') l3).
Proof.
  revert l2 l2' l3. induction l1 as [| a l1 IH]; intros [| b l2] [| b' l2'] l3 H H';
    try discriminate; [reflexivity |].
  destruct l3 as [| c l3]; [reflexivity |].
  cbn [combine map fst snd]. f_equal. apply IH; simpl in *; congruence.
Qed.

Lemma mapM_map (A B C : Type) (g : A -> B) (f : B -> result C) (l : list A) :
  mapM f (map g l) = mapM (fun x => f (g x)) l.
Proof.
  induction l as [| x l IH]; [reflexivity |].
  cbn [map mapM].
  change ((fix go (l0 : list B) : result (list C) :=
             match l0 with
             | [] => Ok []
             | x0 :: l' => bind (f x0) (fun y0 => bind (go l') (fun ys => Ok (y0 :: ys)))
             end) (map g l)) with (mapM f (map g l)).
  rewrite IH. reflexivity.
Qed.

(** A duplicate-free list with one element more than a duplicate-free
    part of it has exactly one element outside that part. *)
Lemma one_more (A : Type) (L : list A) :
  forall K : list A,
    NoDup L -> NoDup K -> incl L K -> List.length K = S (List.length L) ->
    exists x, In x K /\ ~ In x L /\ forall y, In y K -> In y L \/ y = x.
Proof.
  induction L as [| a L IH]; intros K NL NK I Len.
  - destruct K as [| x [| y K]]; try discriminate.
    exists x. split; [left; reflexivity |]. split; [intros [] |].
    intros y [<- | []]. right. reflexivity.
  - destruct (in_split a K (I a (or_introl eq_refl))) as (K1 & K2 & ->).
    inversion NL as [| a' L' Ha NL']; subst.
    pose proof (NoDup_remove_1 _ _ _ NK) as NK'.
    pose proof (NoDup_remove_2 _ _ _ NK) as Ha'.
    destruct (IH (K1 ++ K2) NL' NK') as (x & Hx & Hnx & Hall).
    + intros y Hy. specialize (I y (or_intror Hy)).
      apply in_app_or in I. apply in_or_app.
      destruct I as [I | [-> | I]]; [left; exact I | contradiction | right; exact I].
    + rewrite length_app in *. simpl in Len. lia.
    + exists x. split; [| split].
      * apply in_app_or in Hx. apply in_or_app.
        destruct Hx as [Hx | Hx]; [left; exact Hx | right; right; exact Hx].
      * intros [-> | Hx']; [contradiction | contradiction].
      * intros y Hy. apply in_app_or in Hy.
        destruct Hy as [Hy | [<- | Hy]].
        -- destruct (Hall y (in_or_app _ _ _ (or_introl Hy))) as [G | G];
             [left; right; exact G | right; exact G].
        -- left. left. reflexivity.
        -- destruct (Hall y (in_or_app _ _ _ (or_intror Hy))) as [G | G];
             [left; right; exact G | right; exact G].
Qed.

Arguments mapM_total {A B} f l _.
Arguments combine3_middle {A B C} l1 l2 l2' l3 _ _.
Arguments mapM_map {A B C} g f l.
Arguments one_more {A} L K _ _ _ _.

(** X21: when [ScalarCallable.emit_call] succeeds, the expression is a call
    and the callable has a type map with one entry more than the call has
    parameters; the emitted call has one argument per parameter, the
    [i]-th translated at the type of id [i]; a type map with distinct keys
    holds, beside the ids of the parameters, exactly one further id (the
    single assignee, whatever id it has); and the types inferred for the
    parameters are not used: with any other type inference that answers on
    every parameter the same call is emitted. *)
Theorem ScalarCallable_emit_call_single_assignee
  (cexpr : Type) (infer_type : expr -> result dtype_value)
  (rec_code : expr -> dtype_value -> result cexpr)
  (self : ScalarCallable) (expression : expr) (call : c_call cexpr) :
  (forall d, sc_arg_id_to_dtype self = Some d -> NoDup (Dict.keys d)) ->
  ScalarCallable_emit_call infer_type rec_code self expression = Ok call ->
  exists function parameters d,
    expression = Call function parameters /\
    sc_arg_id_to_dtype self = Some d /\
    List.length d = S (List.length parameters) /\
    c_function call = sc_name_in_target self /\
    List.length (c_parameters call) = List.length parameters /\
    (forall i par,
        nth_error parameters i = Some par ->
        exists dtype c,
          Dict.get arg_id_eqb (Pos (Z.of_nat i)) d = Some dtype /\
          rec_code par dtype = Ok c /\
          nth_error (c_parameters call) i = Some c) /\
    (exists id,
        In id (Dict.keys d) /\
        (forall i, 0 <= i < Z.of_nat (List.length parameters) -> id <> Pos i) /\
        forall id', In id' (Dict.keys d) ->
          id' = id \/
          exists i, 0 <= i < Z.of_nat (List.length parameters) /\ id' = Pos i) /\
    (forall infer_type' : expr -> result dtype_value,
        (forall par, In par parameters -> exists t, infer_type' par = Ok t) ->
        ScalarCallable_emit_call infer_type' rec_code self expression = Ok call).
Proof.
  intros ND H. unfold ScalarCallable_emit_call in H.
  apply bind_Ok_inv in H. destruct H as (u & Hready & H).
  apply bind_Ok_inv in H. destruct H as (ps & Hps & H).
  apply bind_Ok_inv in H. destruct H as (len & Hlen & H).
  apply bind_Ok_inv in H. destruct H as (u' & Hn & H).
  apply bind_Ok_inv in H. destruct H as (ad & Had & H).
  apply bind_Ok_inv in H. destruct H as (pd & Hpd & H).
  apply bind_Ok_inv in H. destruct H as (cs & Hcs & H).
  injection H as <-. cbn [c_function c_parameters].
  destruct expression as [| | | | | | function parameters]; try discriminate.
  injection Hps as ->.
  destruct (sc_arg_id_to_dtype self) as [d |] eqn:Ed; [| discriminate].
  injection Hlen as <-.
  unfold py_assert in Hn.
  destruct (Z.of_nat (List.length ps) =? Z.of_nat (List.length d) - 1) eqn:En;
    [| discriminate].
  apply Z.eqb_eq in En.
  assert (Ld : List.length d = S (List.length ps)) by lia.
  replace (Z.to_nat (Z.of_nat (List.length d) - 1)) with (List.length ps) in Had
    by lia.
  set (n := List.length ps) in *.
  pose proof (mapM_Forall2 _ _ _ Had) as Fad.
  pose proof (mapM_Forall2 _ _ _ Hpd) as Fpd.
  pose proof (mapM_Forall2 _ _ _ Hcs) as Fcs.
  assert (Lad : List.length ad = n).
  { rewrite (Forall2_length_eq Fad). unfold py_range.
    rewrite length_map, length_seq. reflexivity. }
  assert (Lpd : List.length pd = n) by apply (Forall2_length_eq Fpd).
  assert (Hpos : forall i, (i < n)%nat ->
             exists dtype, nth_error ad i = Some dtype /\
                           Dict.get arg_id_eqb (Pos (Z.of_nat i)) d = Some dtype).
  { intros i Hi.
    assert (Hr : nth_error (py_range n) i = Some (Z.of_nat i)).
    { unfold py_range. rewrite nth_error_map.
      rewrite (nth_error_nth' (seq 0 n) 0%nat) by (rewrite length_seq; exact Hi).
      rewrite seq_nth by exact Hi. reflexivity. }
    destruct (Forall2_nth_error_l i Fad Hr) as (dtype & Hdt & Hsub).
    exists dtype. split; [exact Hdt | apply subscript_dtype_Some; exact Hsub]. }
  exists function, ps, d. repeat split.
  - exact Ld.
  - rewrite (Forall2_length_eq Fcs), !length_combine. lia.
  - intros i par Hi.
    assert (Li : (i < n)%nat) by (apply nth_error_Some; rewrite Hi; discriminate).
    destruct (Hpos i Li) as (dtype & Hdt & Hget).
    destruct (nth_error pd i) as [t |] eqn:Et;
      [| apply nth_error_None in Et; lia].
    destruct (Forall2_nth_error_l i Fcs
                (nth_error_combine _ _ i (nth_error_combine _ _ i Hi Et) Hdt))
      as (c & Hc & Hpc).
    exists dtype, c. repeat split; [exact Hget | exact Hpc | exact Hc].
  - destruct (one_more (map Pos (py_range n)) (Dict.keys d)) as (id & I1 & I2 & I3).
    + apply Injective_map_NoDup; [intros a b E; congruence | apply py_range_NoDup].
    + apply (ND d eq_refl).
    + intros id Hid. apply in_map_iff in Hid. destruct Hid as (i & <- & Hi).
      apply py_range_In in Hi.
      destruct (Hpos (Z.to_nat i)) as (dtype & _ & Hget); [lia |].
      rewrite Z2Nat.id in Hget by lia.
      apply (get_Some_In arg_id_eqb arg_id_eqb_eq) in Hget.
      unfold Dict.keys. apply in_map_iff. exists (Pos i, dtype).
      split; [reflexivity | exact Hget].
    + unfold Dict.keys, py_range. rewrite !length_map, length_seq. exact Ld.
    + exists id. split; [exact I1 |]. split.
      * intros i Hi ->. apply I2. apply in_map. apply py_range_In. exact Hi.
      * intros id' Hid'. destruct (I3 id' Hid') as [G | G]; [right | left; exact G].
        apply in_map_iff in G. destruct G as (i & <- & Hi).
        exists i. split; [apply py_range_In; exact Hi | reflexivity].
  - intros infer_type' Htot.
    destruct (mapM_total infer_type' ps Htot) as (pd' & Hpd').
    assert (Lpd' : List.length pd' = n)
      by apply (Forall2_length_eq (mapM_Forall2 _ _ _ Hpd')).
    unfold ScalarCallable_emit_call.
    unfold ScalarCallable_is_ready_for_codegen in *. rewrite Ed in *.
    rewrite Hready. cbn [bind expression_parameters len_dtype_map].
    fold n. unfold py_assert.
    replace (Z.of_nat n =? Z.of_nat (List.length d) - 1) with true
      by (symmetry; apply Z.eqb_eq; lia).
    cbn [bind].
    replace (Z.to_nat (Z.of_nat (List.length d) - 1)) with n by lia.
    rewrite Had. cbn [bind]. rewrite Hpd'. cbn [bind].
    rewrite <- (mapM_map (fun x : expr * dtype_value * dtype_value =>
                            (fst (fst x), snd x))
                         (fun y => rec_code (fst y) (snd y))) in Hcs |- *.
    rewrite (combine3_middle ps pd' pd ad Lpd' Lpd), Hcs. reflexivity.
Qed.

Lemma ScalarCallable_emit_call_single_assignee_witness :
  exists call,
    ScalarCallable_emit_call infer_float64 code_request sin_ready
      (Call (Id (Variable_ "sin")) [Id (Variable_ "x")]) = Ok call /\
    c_parameters call = [(Id (Variable_ "x"), Some float32)] /\
    exists id,
      In id [Pos 0; Pos (-1)] /\
      (forall i, 0 <= i < 1 -> id <> Pos i) /\
      forall id', In id' [Pos 0; Pos (-1)] ->
        id' = id \/ exists i, 0 <= i < 1 /\ id' = Pos i.
Proof.
  eexists. split; [reflexivity |]. split; [reflexivity |].
  destruct (ScalarCallable_emit_call_single_assignee _ infer_float64 code_request
              sin_ready (Call (Id (Variable_ "sin")) [Id (Variable_ "x")]) _
              ltac:(intros d E; injection E as <-; repeat constructor; simpl;
                    intuition discriminate)
              eq_refl)
    as (f & ps & d & E & Ed & _ & _ & _ & _ & Hid & _).
  injection E as <- <-. injection Ed as <-. exact Hid.
Defined.
